(** * Kindle clippings to Obsidian: a shallow embedding of the extraction script

    The development embeds [utilities.py] and the top-level script
    [extract-kindle-clippings.py] and proves properties of the parser, the
    content hash, the chronology reconciler, the overlap detector, the
    dedup gate and the writer.

    Modelling conventions.
    - A Python [str] is a list of Unicode code points ([N]).  Text read from
      a file opened with the encoding utf8 only holds Unicode scalar values;
      the predicate [Py.scalar_text] records it where it matters.
    - A Python [int] that counts characters or indexes a list is a [nat];
      integers parsed from location strings are [Z], with no bound on the
      number of digits [int] accepts.
    - A Python [dict] is an insertion-ordered association list.
    - Exceptions are an explicit result type; an uncaught exception ends the
      run.  A loop that can spin for ever gets an outcome of its own.
    - The clippings file is the text Python's text layer hands over, line
      endings already turned into newlines.  The output directory is a
      dictionary from file name to text; names are not split at path
      separators, and opening or writing a file does not fail: the errors
      of the file system are left out, as is the limit of [int] on the
      digits of a location.
    - Of what the script prints, the lines of the parser and of the
      reconciler are kept ([stdout]); of the scan and of the writer, the
      index and the files are kept.  The modification time the script sets
      on a file at the end is left out.
    - Library calls whose code is not part of the repository (dateutil's
      [parse], [unicodedata.normalize], [datetime.now]) are Section
      variables of the pipeline; the interactive choice of books is the
      list of titles it returns. *)

From Stdlib Require Import ZArith NArith Ascii String Lia.
From stdpp Require Import base list sorting.

Local Open Scope nat_scope.

(** ** Python strings *)

Module Py.

Abbreviation char := N (only parsing).
Abbreviation str := (list N) (only parsing).

(** ASCII literal of the script as a list of code points. *)
Definition lit (s : string) : str :=
  map N_of_ascii (list_ascii_of_string s).

Definition str_eqb (a b : str) : bool := bool_decide (a = b).

(** [str.isspace] on one character (Unicode 14 table of CPython 3.11):
    the separators and control characters Python treats as whitespace. *)
Definition isspace (c : char) : bool :=
  ((9 <=? c) && (c <=? 13) || (28 <=? c) && (c <=? 32)
   || (c =? 133) || (c =? 160) || (c =? 5760)
   || (8192 <=? c) && (c <=? 8202)
   || (c =? 8232) || (c =? 8233) || (c =? 8239) || (c =? 8287)
   || (c =? 12288))%N.

(** First code point of every run of ten Unicode decimal digits (category
    Nd): each run holds the digits 0 to 9 in order. *)
Definition decimal_runs : list N :=
  [48; 1632; 1776; 1984; 2406; 2534; 2662; 2790; 2918; 3046; 3174; 3302;
   3430; 3558; 3664; 3792; 3872; 4160; 4240; 6112; 6160; 6470; 6608; 6784;
   6800; 6992; 7088; 7232; 7248; 42528; 43216; 43264; 43472; 43504; 43600;
   44016; 65296; 66720; 68912; 69734; 69872; 69942; 70096; 70384; 70736;
   70864; 71248; 71360; 71472; 71904; 72016; 72784; 73040; 73120; 92768;
   92864; 93008; 120782; 120792; 120802; 120812; 120822; 123200; 123632;
   125264; 130032]%N.

(** Decimal value of a digit character, [None] for other characters. *)
Definition decimal_value (c : char) : option Z :=
  match List.find (fun s => (s <=? c) && (c <? s + 10))%N decimal_runs with
  | Some s => Some (Z.of_N (c - s))
  | None => None
  end.

Definition isdecimal (c : char) : bool :=
  match decimal_value c with Some _ => true | None => false end.

(** [int(s)] on a string of decimal digits, most significant first.  The
    script only calls it on what [\d+] has matched. *)
Definition int_of_digits (s : str) : Z :=
  foldl (fun acc c => 10 * acc + default 0 (decimal_value c))%Z 0%Z s.

(** [s.lstrip()], [s.rstrip()] and [s.strip()] with no argument. *)
Fixpoint lstrip (s : str) : str :=
  match s with
  | c :: s' => if isspace c then lstrip s' else s
  | [] => []
  end.

Definition rstrip (s : str) : str := rev (lstrip (rev s)).

Definition strip (s : str) : str := rstrip (lstrip s).

(** [s.startswith(p)]. *)
Fixpoint startswith (p s : str) : bool :=
  match p, s with
  | [], _ => true
  | x :: p', y :: s' => (x =? y)%N && startswith p' s'
  | _ :: _, [] => false
  end.

(** [sub in s] for strings. *)
Fixpoint contains (sub s : str) : bool :=
  startswith sub s ||
  match s with
  | [] => false
  | _ :: s' => contains sub s'
  end.

(** [s.replace(old, new)] for a non-empty [old]: one pass from the left,
    occurrences do not overlap and the replaced text is not rescanned.
    [skip] counts the characters of a matched occurrence still to drop. *)
Fixpoint replace_from (old new : str) (skip : nat) (s : str) : str :=
  match s with
  | [] => []
  | c :: s' =>
      match skip with
      | S k => replace_from old new k s'
      | O =>
          if startswith old s
          then new ++ replace_from old new (length old - 1) s'
          else c :: replace_from old new 0 s'
      end
  end.

Definition replace (old new s : str) : str := replace_from old new 0 s.

(** [s.split(sep)[0]]: the text before the first occurrence of [sep]. *)
Fixpoint split_head (sep s : str) : str :=
  match s with
  | [] => []
  | c :: s' => if startswith sep s then [] else c :: split_head sep s'
  end.

(** Insertion-ordered dictionaries. *)
Abbreviation dict V := (list (list N * V)) (only parsing).

Fixpoint dict_get {V} (d : dict V) (k : str) : option V :=
  match d with
  | [] => None
  | (k', v) :: d' => if str_eqb k k' then Some v else dict_get d' k
  end.

(** [d[k] = v]: an existing key keeps its position. *)
Fixpoint dict_set {V} (d : dict V) (k : str) (v : V) : dict V :=
  match d with
  | [] => [(k, v)]
  | (k', v') :: d' =>
      if str_eqb k k' then (k', v) :: d' else (k', v') :: dict_set d' k v
  end.

Definition dict_mem {V} (d : dict V) (k : str) : bool :=
  match dict_get d k with Some _ => true | None => false end.

Definition dict_keys {V} (d : dict V) : list str := map fst d.

(** A Unicode scalar value: a code point that is not a surrogate. *)
Definition scalar (c : char) : bool :=
  ((c <? 55296) || (57343 <? c) && (c <? 1114112))%N.

Definition scalar_text (s : str) : Prop := Forall (fun c => scalar c = true) s.

End Py.

(** ** utilities.py *)

Module Utilities.
Import Py.

(** Body of the inner [for j] loop: one cell of the current row. *)
Definition lcs_cell (ai : char) (b : str) (prev : list nat)
    (acc : list nat * nat) (j : nat) : list nat * nat :=
  let '(cur, best) := acc in
  if bool_decide (Some ai = b !! (j - 1)) then
    let v := default 0 (prev !! (j - 1)) + 1 in
    (<[j := v]> cur, if best <? v then v else best)
  else (cur, best).

(** Body of the outer [for i] loop: a fresh row, filled from [prev]. *)
Definition lcs_row (a b : str) (acc : list nat * nat) (i : nat)
    : list nat * nat :=
  let '(prev, best) := acc in
  let cur := replicate (length b + 1) 0 in
  match a !! (i - 1) with
  | Some ai => foldl (lcs_cell ai b prev) (cur, best) (seq 1 (length b))
  | None => (cur, best)
  end.

Definition longest_common_substring_len (a b : str) : nat :=
  match a, b with
  | [], _ | _, [] => 0
  | _, _ =>
      let '(a, b) := if length a <? length b then (b, a) else (a, b) in
      let prev := replicate (length b + 1) 0 in
      snd (foldl (lcs_row a b) (prev, 0) (seq 1 (length a)))
  end.

End Utilities.

(** ** The fragment of Python's [re] the script uses

    Every pattern of the script is a sequence of single-character items
    (a literal, a class, a set), each taken once or under a greedy [*] or
    [+], with capture groups that are neither nested nor repeated, and the
    anchors [^] and [$].  The matcher below is the backtracking matcher of
    [re] on that fragment: a greedy item first takes as many characters as
    it can and gives them back one at a time. *)

Module Re.
Import Py.

Inductive cls :=
  | Any                      (* .   : any character but a newline *)
  | Chr (c : char)           (* a literal character *)
  | Space                    (* \s *)
  | NonSpace                 (* \S *)
  | Digit                    (* \d *)
  | Range (lo hi : char)     (* a-f inside a set *)
  | Or (k1 k2 : cls).        (* two members of a set [...] *)

Inductive item :=
  | One (c : cls)            (* c   *)
  | Star (c : cls)           (* c*  *)
  | GOpen                    (* (   *)
  | GClose                   (* )   *)
  | Bol                      (* ^   *)
  | Eol.                     (* $   *)

Definition regex := list item.

(** [c+] is [c] followed by [c*]. *)
Definition plus (c : cls) : regex := [One c; Star c].

(** A literal string inside a pattern. *)
Definition chars (s : string) : regex := map (fun c => One (Chr c)) (lit s).

Definition chr (s : string) : cls := Chr (hd 0%N (lit s)).

Definition range (lo hi : string) : cls :=
  Range (hd 0%N (lit lo)) (hd 0%N (lit hi)).

Fixpoint cls_ok (k : cls) (c : char) : bool :=
  match k with
  | Any => negb (c =? 10)%N
  | Chr x => (c =? x)%N
  | Space => isspace c
  | NonSpace => negb (isspace c)
  | Digit => isdecimal c
  | Range lo hi => ((lo <=? c) && (c <=? hi))%N
  | Or k1 k2 => cls_ok k1 c || cls_ok k2 c
  end.

(** Groups closed so far (latest first) and the text of the open group
    (latest character first). *)
Record caps := { closed : list str; opened : option str }.

Definition caps0 : caps := {| closed := []; opened := None |}.

Definition push (c : char) (g : caps) : caps :=
  match opened g with
  | Some w => {| closed := closed g; opened := Some (c :: w) |}
  | None => g
  end.

Definition gopen (g : caps) : caps :=
  {| closed := closed g; opened := Some [] |}.

Definition gclose (g : caps) : caps :=
  match opened g with
  | Some w => {| closed := rev w :: closed g; opened := None |}
  | None => g
  end.

(** [match_here r s bos g]: match [r] at the head of [s]; [bos] tells
    whether [s] starts at the beginning of the subject.  On success the
    groups in pattern order and the text left after the match. *)
Fixpoint match_here (r : regex) (s : str) (bos : bool) (g : caps)
    : option (list str * str) :=
  match r with
  | [] => Some (rev (closed g), s)
  | Bol :: r' => if bos then match_here r' s bos g else None
  | Eol :: r' =>
      match s with
      | [] => match_here r' s bos g
      | [c] => if (c =? 10)%N then match_here r' s bos g else None
      | _ => None
      end
  | GOpen :: r' => match_here r' s bos (gopen g)
  | GClose :: r' => match_here r' s bos (gclose g)
  | One k :: r' =>
      match s with
      | c :: s' => if cls_ok k c then match_here r' s' false (push c g) else None
      | [] => None
      end
  | Star k :: r' =>
      (fix star (s : str) (bos : bool) (g : caps) {struct s} :=
         match s with
         | c :: s' =>
             if cls_ok k c then
               match star s' false (push c g) with
               | Some res => Some res
               | None => match_here r' s bos g
               end
             else match_here r' s bos g
         | [] => match_here r' s bos g
         end) s bos g
  end.

(** [pattern.search(s)]: the leftmost match, as its groups. *)
Fixpoint search_from (r : regex) (s : str) (bos : bool) : option (list str) :=
  match match_here r s bos caps0 with
  | Some (gs, _) => Some gs
  | None =>
      match s with
      | [] => None
      | _ :: s' => search_from r s' false
      end
  end.

Definition search (r : regex) (s : str) : option (list str) :=
  search_from r s true.

(** [pattern.findall(s)]: the groups of every match, left to right, the
    scan resuming where the previous match ended ([skip] characters on).
    No pattern of the script matches the empty string. *)
Fixpoint findall_from (r : regex) (s : str) (bos : bool) (skip : nat)
    : list (list str) :=
  match skip with
  | S k =>
      match s with
      | [] => []
      | _ :: s' => findall_from r s' false k
      end
  | O =>
      match match_here r s bos caps0 with
      | Some (gs, rest) =>
          gs :: match s with
                | [] => []
                | _ :: s' =>
                    findall_from r s' false (length s - length rest - 1)
                end
      | None =>
          match s with
          | [] => []
          | _ :: s' => findall_from r s' false 0
          end
      end
  end.

Definition findall (r : regex) (s : str) : list (list str) :=
  findall_from r s true 0.

End Re.

(** ** [hashlib.sha256] and [str.encode] to UTF-8

    SHA-256 of FIPS 180-4 on a list of bytes; a word is a [Z] below 2^32
    and every addition wraps around. *)

Module Sha256.
Import Py.
Local Open Scope Z_scope.

Abbreviation word := Z (only parsing).

Definition wrap (x : Z) : word := x mod 2 ^ 32.
Definition add (x y : word) : word := wrap (x + y).
Definition rotr (n : Z) (x : word) : word :=
  Z.lor (Z.shiftr x n) (wrap (Z.shiftl x (32 - n))).
Definition shr (n : Z) (x : word) : word := Z.shiftr x n.
Definition wnot (x : word) : word := 2 ^ 32 - 1 - x.

Definition ch (x y z : word) : word :=
  Z.lxor (Z.land x y) (Z.land (wnot x) z).
Definition maj (x y z : word) : word :=
  Z.lxor (Z.lxor (Z.land x y) (Z.land x z)) (Z.land y z).
Definition bsig0 (x : word) : word :=
  Z.lxor (Z.lxor (rotr 2 x) (rotr 13 x)) (rotr 22 x).
Definition bsig1 (x : word) : word :=
  Z.lxor (Z.lxor (rotr 6 x) (rotr 11 x)) (rotr 25 x).
Definition ssig0 (x : word) : word :=
  Z.lxor (Z.lxor (rotr 7 x) (rotr 18 x)) (shr 3 x).
Definition ssig1 (x : word) : word :=
  Z.lxor (Z.lxor (rotr 17 x) (rotr 19 x)) (shr 10 x).

(** The first 64 primes. *)
Definition primes : list Z :=
  [2; 3; 5; 7; 11; 13; 17; 19; 23; 29; 31; 37; 41; 43; 47; 53; 59; 61; 67;
   71; 73; 79; 83; 89; 97; 101; 103; 107; 109; 113; 127; 131; 137; 139; 149;
   151; 157; 163; 167; 173; 179; 181; 191; 193; 197; 199; 211; 223; 227;
   229; 233; 239; 241; 251; 257; 263; 269; 271; 277; 281; 283; 293; 307;
   311].

(** Integer cube root of a number below 2^108, one bit at a time. *)
Definition cbrt (n : Z) : Z :=
  foldl (fun r i => let r' := r + 2 ^ Z.of_nat i in
                    if r' * r' * r' <=? n then r' else r)
        0 (rev (seq 0 36)).

(** Round constants: the first 32 bits of the fractional part of the cube
    root of each prime. *)
Definition K : list word :=
  Eval vm_compute in map (fun p => wrap (cbrt (p * 2 ^ 96))) primes.

(** The eight working variables. *)
Record regs := Regs {
  ra : word; rb : word; rc : word; rd : word;
  re : word; rf : word; rg : word; rh : word }.

(** Initial hash value: the first 32 bits of the fractional part of the
    square root of each of the first eight primes. *)
Definition iv (p : Z) : word := wrap (Z.sqrt (p * 2 ^ 64)).

Definition H0 : regs :=
  Eval vm_compute in
    Regs (iv 2) (iv 3) (iv 5) (iv 7) (iv 11) (iv 13) (iv 17) (iv 19).

(** Big-endian words of a block of 64 bytes. *)
Fixpoint words_of (bs : list Z) : list word :=
  match bs with
  | b0 :: b1 :: b2 :: b3 :: bs' =>
      (Z.shiftl b0 24 + Z.shiftl b1 16 + Z.shiftl b2 8 + b3) :: words_of bs'
  | _ => []
  end.

(** Message schedule: [n] more words after the ones in [w]. *)
Fixpoint schedule (n : nat) (w : list word) : list word :=
  match n with
  | O => w
  | S n' =>
      let t := length w in
      let at_ (k : nat) := nth (t - k) w 0 in
      schedule n'
        (w ++ [add (add (ssig1 (at_ 2%nat)) (at_ 7%nat))
                   (add (ssig0 (at_ 15%nat)) (at_ 16%nat))])
  end.

Definition round (r : regs) (kw : word * word) : regs :=
  let '(k, w) := kw in
  let t1 := add (add (add (add (rh r) (bsig1 (re r))) (ch (re r) (rf r) (rg r))) k) w in
  let t2 := add (bsig0 (ra r)) (maj (ra r) (rb r) (rc r)) in
  Regs (add t1 t2) (ra r) (rb r) (rc r) (add (rd r) t1) (re r) (rf r) (rg r).

Definition compress (h : regs) (block : list Z) : regs :=
  let w := schedule 48 (words_of block) in
  let r := foldl round h (zip K w) in
  Regs (add (ra h) (ra r)) (add (rb h) (rb r)) (add (rc h) (rc r))
       (add (rd h) (rd r)) (add (re h) (re r)) (add (rf h) (rf r))
       (add (rg h) (rg r)) (add (rh h) (rh r)).

(** Padding: a one bit, zeros up to 56 modulo 64, the bit length on eight
    bytes. *)
Definition be_bytes (n : nat) (x : Z) : list Z :=
  map (fun i => Z.land (Z.shiftr x (8 * Z.of_nat (n - 1 - i))) 255) (seq 0 n).

Definition pad (msg : list Z) : list Z :=
  let l := Z.of_nat (length msg) in
  let zeros := Z.to_nat ((55 - l) mod 64) in
  msg ++ [128] ++ replicate zeros 0 ++ be_bytes 8 (8 * l).

Fixpoint blocks (n : nat) (bs : list Z) (h : regs) : regs :=
  match n with
  | O => h
  | S n' => blocks n' (drop 64 bs) (compress h (take 64 bs))
  end.

Definition sha256 (msg : list Z) : regs :=
  let p := pad msg in blocks (length p / 64) p H0.

(** Lowercase hexadecimal digits. *)
Definition hexdigit (n : Z) : char :=
  nth (Z.to_nat (Z.land n 15)) (lit "0123456789abcdef") 48%N.

Definition hex8 (w : word) : str :=
  [hexdigit (Z.shiftr w 28); hexdigit (Z.shiftr w 24);
   hexdigit (Z.shiftr w 20); hexdigit (Z.shiftr w 16);
   hexdigit (Z.shiftr w 12); hexdigit (Z.shiftr w 8);
   hexdigit (Z.shiftr w 4); hexdigit w].

(** [hashlib.sha256(data).hexdigest()]. *)
Definition hexdigest (msg : list Z) : str :=
  let r := sha256 msg in
  hex8 (ra r) ++ hex8 (rb r) ++ hex8 (rc r) ++ hex8 (rd r) ++
  hex8 (re r) ++ hex8 (rf r) ++ hex8 (rg r) ++ hex8 (rh r).

(** UTF-8 bytes of one code point; a surrogate cannot be encoded. *)
Definition utf8_char (c : char) : option (list Z) :=
  let z := Z.of_N c in
  if z <? 0x80 then Some [z]
  else if z <? 0x800 then
    Some [Z.lor 0xC0 (Z.shiftr z 6); Z.lor 0x80 (Z.land z 0x3F)]
  else if z <? 0x10000 then
    if (0xD800 <=? z) && (z <=? 0xDFFF) then None
    else Some [Z.lor 0xE0 (Z.shiftr z 12);
               Z.lor 0x80 (Z.land (Z.shiftr z 6) 0x3F);
               Z.lor 0x80 (Z.land z 0x3F)]
  else if z <? 0x110000 then
    Some [Z.lor 0xF0 (Z.shiftr z 18);
          Z.lor 0x80 (Z.land (Z.shiftr z 12) 0x3F);
          Z.lor 0x80 (Z.land (Z.shiftr z 6) 0x3F);
          Z.lor 0x80 (Z.land z 0x3F)]
  else None.

(** [s.encode] to UTF-8: [None] stands for [UnicodeEncodeError]. *)
Fixpoint encode_utf8 (s : str) : option (list Z) :=
  match s with
  | [] => Some []
  | c :: s' =>
      match utf8_char c, encode_utf8 s' with
      | Some bs, Some rest => Some (bs ++ rest)
      | _, _ => None
      end
  end.

End Sha256.

(** ** extract-kindle-clippings.py *)

Module Clippings.
Import Py Re Utilities.

Inductive exn := IndexError | KeyError | UnicodeEncodeError.

(** Result of a computation that may raise. *)
Inductive result (A : Type) :=
  | Ok (a : A)
  | Raise (e : exn).
Arguments Ok {A} a.
Arguments Raise {A} e.

Definition bind {A B} (m : result A) (f : A -> result B) : result B :=
  match m with
  | Ok a => f a
  | Raise e => Raise e
  end.

Notation "'let*' x ':=' m 'in' k" := (bind m (fun x => k))
  (at level 10, x name, m at level 100, k at level 200).

(** [d[k]] as an expression: [KeyError] on a missing key. *)
Definition getitem {V} (d : dict V) (k : str) : result V :=
  match dict_get d k with
  | Some v => Ok v
  | None => Raise KeyError
  end.

Fixpoint mapM {A B} (f : A -> result B) (l : list A) : result (list B) :=
  match l with
  | [] => Ok []
  | x :: l' => let* y := f x in let* ys := mapM f l' in Ok (y :: ys)
  end.

Definition note_sep : str := lit "==========".
Definition commentstr : str := lit ".. ".
Definition nl : str := [10%N].

(** Pattern, token by token:  ^  ( .* )  \(  ( .* )  \)  $ *)
Definition regex_title : regex :=
  [Bol; GOpen; Star Any; GClose; One (chr "("); GOpen; Star Any; GClose;
   One (chr ")"); Eol].

(** Pattern, token by token:
    ^  - Your   ( \S+ )  space  ( .* )  [\s|]+  Added on  \s+  ( .+ )  $ *)
Definition regex_info : regex :=
  [Bol] ++ chars "- Your " ++ [GOpen] ++ plus NonSpace ++ [GClose]
  ++ chars " " ++ [GOpen; Star Any; GClose] ++ plus (Or Space (chr "|"))
  ++ chars "Added on" ++ plus Space ++ [GOpen] ++ plus Any ++ [GClose; Eol].

(** Pattern:  location  space  ( [\d\-]+ ) *)
Definition regex_loc : regex :=
  chars "location " ++ [GOpen] ++ plus (Or Digit (chr "-")) ++ [GClose].

(** Pattern:  page  space  ( [\d\-]+ ) *)
Definition regex_page : regex :=
  chars "page " ++ [GOpen] ++ plus (Or Digit (chr "-")) ++ [GClose].

(** Pattern:  ( \d+ ) *)
Definition regex_num : regex := [GOpen] ++ plus Digit ++ [GClose].

(** Pattern:  ( \d+ )  \-  ( \d+ ) *)
Definition regex_numrange : regex :=
  [GOpen] ++ plus Digit ++ [GClose] ++ chars "-"
  ++ [GOpen] ++ plus Digit ++ [GClose].

(** Pattern:  ^  \.  \.  \s*  ( [a-fA-F0-9]+ )  \s* *)
Definition regex_hashline : regex :=
  [Bol; One (chr "."); One (chr "."); Star Space; GOpen]
  ++ plus (Or (range "a" "f") (Or (range "A" "F") (range "0" "9")))
  ++ [GClose; Star Space].

(** Group [i] (from 0) of a match. *)
Definition group (m : list str) (i : nat) : str := nth i m [].

(** The global dictionaries of the script, and what it printed (one entry
    per [print] call of the parser and of the reconciler). *)
Record state := State {
  pub_title : dict str;
  pub_author : dict str;
  pub_notes : dict (list str);
  pub_hashes : dict (list str);
  notes : dict str;
  locations : dict str;
  types : dict str;
  dates : dict str;
  stdout : list str }.

Definition state0 : state := State [] [] [] [] [] [] [] [] [].

Definition print (line : str) (st : state) : state :=
  State (pub_title st) (pub_author st) (pub_notes st) (pub_hashes st)
        (notes st) (locations st) (types st) (dates st) (stdout st ++ [line]).

Definition set_pub_hashes (st : state) (k : str) (hs : list str) : state :=
  State (pub_title st) (pub_author st) (pub_notes st)
        (dict_set (pub_hashes st) k hs)
        (notes st) (locations st) (types st) (dates st) (stdout st).

(** *** The clippings file as a file object

    The text layer of Python has decoded the bytes and turned every line
    ending into a newline.  [readlines] is what successive [readline]
    calls return; [readline] past the end returns the empty string. *)
Fixpoint lines_from (cur : str) (s : str) : list str :=
  match s with
  | [] => match cur with [] => [] | _ => [rev cur] end
  | c :: s' =>
      if (c =? 10)%N then rev (c :: cur) :: lines_from [] s'
      else lines_from (c :: cur) s'
  end.

Definition readlines (s : str) : list str := lines_from [] s.

Definition readline (ls : list str) : str * list str :=
  match ls with
  | [] => ([], [])
  | l :: ls' => (l, ls')
  end.

(** [note_hash = hashlib.sha256(note_text.encode(utf8)).hexdigest()[:8]] *)
Definition note_hash_of (note_text : str) : result str :=
  match Sha256.encode_utf8 note_text with
  | Some bytes => Ok (take 8 (Sha256.hexdigest bytes))
  | None => Raise UnicodeEncodeError
  end.

(** [note_text.strip().replace(two spaces, one space)] *)
Definition postprocess (note_text : str) : str :=
  replace (lit "  ") (lit " ") (strip note_text).

(** The location string shown with a note. *)
Definition locstr_of (note_loc note_page : str) : str :=
  let locstr := match note_loc with [] => [] | _ => lit "loc. " ++ note_loc end in
  match note_page with
  | [] => locstr
  | _ =>
      (match note_loc with [] => locstr | _ => locstr ++ lit ", " end)
      ++ lit "p." ++ note_page
  end.

(** The [while line != note_sep] loop: the text gathered and the lines
    left after the separator.  At the end of the file [readline] returns
    the empty string for ever, which never equals the separator: [None]
    says that the loop does not end. *)
Fixpoint read_note_text (ls : list str) (note_text : str)
    : option (str * list str) :=
  match ls with
  | [] => None
  | l :: ls' =>
      let line := strip l in
      if str_eqb line note_sep then Some (note_text, ls')
      else read_note_text ls' (note_text ++ line ++ nl)
  end.

(** Outcome of one turn of the [while line] loop. *)
Inductive step :=
  | Next (line : str) (ls : list str) (st : state)
  | Abort (e : exn) (out : list str)     (* uncaught exception; what was printed *)
  | Hang (out : list str).               (* the inner loop never ends *)

(** Outcome of the whole parse. *)
Inductive parsed :=
  | Parsed (st : state)
  | ParseAbort (e : exn) (out : list str)
  | ParseHang (out : list str)
  | OutOfFuel.

Section Pipeline.

(** [str(dateutil.parser.parse(date))], [None] when [parse] raises. *)
Variable dateutil_str : str -> option str.

(** [unicodedata.normalize] to the form NFKD. *)
Variable nfkd : str -> str.

(** [datetime.now().strftime] with the pattern year-month-day. *)
Variable today : str.

(** The [try: datestr = str(parse(date))  except: datestr = date]. *)
Definition datestr_of (date : str) : str :=
  match dateutil_str date with
  | Some s => s
  | None => date
  end.

(** Stores one parsed note in the dictionaries (lines 213 to 238). *)
Definition store_note (st : state) (key title author note_text note_hash
    locstr note_type datestr : str) : result state :=
  let fresh := negb (dict_mem (pub_notes st) key) in
  let pn := if fresh then dict_set (pub_notes st) key [] else pub_notes st in
  let ph := if fresh then dict_set (pub_hashes st) key [] else pub_hashes st in
  let* texts := getitem pn key in
  let* hashes := getitem ph key in
  Ok (State (dict_set (pub_title st) key (strip title))
            (dict_set (pub_author st) key (strip author))
            (dict_set pn key (texts ++ [note_text]))
            (dict_set ph key (hashes ++ [note_hash]))
            (dict_set (notes st) note_hash note_text)
            (dict_set (locations st) note_hash locstr)
            (dict_set (types st) note_hash note_type)
            (dict_set (dates st) note_hash datestr)
            (stdout st)).

(** Title and author of a header line (lines 176 and 184 to 188). *)
Definition title_author (key : str) : str * str :=
  match findall regex_title key with
  | t :: _ => (group t 0, group t 1)
  | [] => (key, lit "Unknown")
  end.

(** First match of a one-group pattern, the empty string without a match
    (lines 182 to 198). *)
Definition first_group (r : regex) (s : str) : str :=
  match findall r s with
  | m :: _ => group m 0
  | [] => []
  end.

(** One turn of the [while line] loop, entered with a non-empty [line]. *)
Definition parse_record (line : str) (ls : list str) (st : state) : step :=
  let key := strip line in
  let '(title, author) := title_author key in
  let '(l1, ls1) := readline ls in
  let line := strip l1 in
  let st := print line st in
  match findall regex_info line with
  | [] => Abort IndexError (stdout st)
  | m :: _ =>
      let note_type := group m 0 in
      let location := group m 1 in
      let date := group m 2 in
      let note_loc := first_group regex_loc location in
      let note_page := first_group regex_page location in
      let '(_, ls2) := readline ls1 in
      match read_note_text ls2 [] with
      | None => Hang (stdout st)
      | Some (note_text, ls3) =>
          let note_text := postprocess note_text in
          match
            (let* note_hash := note_hash_of note_text in
             store_note st key title author note_text note_hash
               (locstr_of note_loc note_page) note_type (datestr_of date))
          with
          | Raise e => Abort e (stdout st)
          | Ok st' =>
              let '(l4, ls4) := readline ls3 in
              Next (strip l4) ls4 st'
          end
      end
  end.

(** The [while line] loop; every turn reads at least one line, so the
    number of lines left bounds the number of turns. *)
Fixpoint parse_loop (fuel : nat) (line : str) (ls : list str) (st : state)
    : parsed :=
  match line with
  | [] => Parsed st
  | _ =>
      match fuel with
      | O => OutOfFuel
      | S fuel' =>
          match parse_record line ls st with
          | Next line' ls' st' => parse_loop fuel' line' ls' st'
          | Abort e out => ParseAbort e out
          | Hang out => ParseHang out
          end
      end
  end.

(** Lines 167 to 240: skip one character, read the records. *)
Definition parse (clippings : str) : parsed :=
  let ls := readlines (drop 1 clippings) in
  let '(l0, ls0) := readline ls in
  let line := replace [65279%N] [] (strip l0) in
  parse_loop (length ls) line ls0 state0.

(** *** Chronology reconciler (lines 243 to 298) *)

(** [l[i]]: [IndexError] out of range. *)
Definition index {A} (l : list A) (i : nat) : result A :=
  match l !! i with
  | Some x => Ok x
  | None => Raise IndexError
  end.

Fixpoint foldM {A B} (f : A -> B -> result A) (a : A) (l : list B)
    : result A :=
  match l with
  | [] => Ok a
  | x :: l' => let* a' := f a x in foldM f a' l'
  end.

(** Python's [sorted] on decorated items: a stable sort, equal keys keep
    the order they arrive in. *)
Fixpoint insert_by_key {A} (x : Z * A) (l : list (Z * A)) : list (Z * A) :=
  match l with
  | [] => [x]
  | y :: l' =>
      if (x.1 <=? y.1)%Z then x :: l else y :: insert_by_key x l'
  end.

Definition sort_by_key {A} (l : list (Z * A)) : list (Z * A) :=
  foldr insert_by_key [] l.

(** [sorted(xs, key=f)]: the key of every item is computed once, from the
    left, then the items are sorted on it. *)
Definition sorted (key : str -> result Z) (xs : list str)
    : result (list str) :=
  let* ks := mapM key xs in
  Ok (map snd (sort_by_key (zip ks xs))).

(** Start of the first digits-digits range of a location string, -1
    without one. *)
Definition range_start (loc : str) : Z :=
  match search regex_numrange loc with
  | Some m => int_of_digits (group m 0)
  | None => (-1)%Z
  end.

(** First number of a location string, -1 without one. *)
Definition first_number (loc : str) : Z :=
  match search regex_num loc with
  | Some m => int_of_digits (group m 0)
  | None => (-1)%Z
  end.

(** The two [key=lambda item: ...] of the script. *)
Definition loc_key (st : state) (item : str) : result Z :=
  let* loc := getitem (locations st) item in Ok (range_start loc).

Definition page_key (st : state) (item : str) : result Z :=
  let* loc := getitem (locations st) item in Ok (first_number loc).

(** [[int(s.group(1)), int(s.group(2))]], [None] when [s] is [None] and
    [s.group] raises the [AttributeError] the script catches. *)
Definition range_of (loc : str) : option (Z * Z) :=
  match search regex_numrange loc with
  | Some m => Some (int_of_digits (group m 0), int_of_digits (group m 1))
  | None => None
  end.

(** [x in [lo, hi]]. *)
Definition in_range (x : Z) (r : Z * Z) : bool :=
  ((x =? r.1) || (x =? r.2))%Z.

(** [len_lcs > 0.4 * m].  The product of the double nearest to 0.4 and
    an integer below 2^50 is the integer [2m/5] when 5 divides [m], and
    lies strictly between the same two integers as [2m/5] otherwise, so
    the comparison with an integer is the exact one. *)
Definition above_threshold (len_lcs m : nat) : bool :=
  2 * m <? 5 * len_lcs.

(** What the branch of an overlapping pair prints. *)
Definition overlap_report (loc1 loc2 str1 : str) : list str :=
  [lit "Overlapping strings detected at loc. " ++ loc1 ++ lit " / " ++ loc2;
   str1; []].

(** Body of [for i in range(len(pub_hashes[k]) - 1)]: what it prints. *)
Definition overlap_check (st : state) (hs : list str) (i : nat)
    : result (list str) :=
  let* hash1 := index hs i in
  let* hash2 := index hs (i + 1) in
  let* str1 := getitem (notes st) hash1 in
  let* str2 := getitem (notes st) hash2 in
  let* type1 := getitem (types st) hash1 in
  let* skip :=
    if str_eqb type1 (lit "Bookmark") then Ok true
    else
      let* type2 := getitem (types st) hash2 in
      Ok (str_eqb type2 (lit "Bookmark")
          || (length str1 `max` length str2 <? 52)) in
  if skip : bool then Ok []
  else
    let* loc1 := getitem (locations st) hash1 in
    let* loc2 := getitem (locations st) hash2 in
    match range_of loc1, range_of loc2 with
    | Some range1, Some range2 =>
        if in_range range1.1 range2 || in_range range1.2 range2 then
          let len_lcs := longest_common_substring_len str1 str2 in
          if above_threshold len_lcs (length str1 `max` length str2)
          then Ok (overlap_report loc1 loc2 str1)
          else Ok []
        else Ok []
    | _, _ => Ok []
    end.

Definition prints (out : list str) (st : state) : state :=
  State (pub_title st) (pub_author st) (pub_notes st) (pub_hashes st)
        (notes st) (locations st) (types st) (dates st) (stdout st ++ out).

Definition overlap_step (k : str) (st : state) (i : nat) : result state :=
  let* hs := getitem (pub_hashes st) k in
  let* out := overlap_check st hs i in
  Ok (prints out st).

(** Body of [for k in pub_hashes.keys()]. *)
Definition reconcile_book (st : state) (k : str) : result state :=
  let st := print k st in
  let* hs := getitem (pub_hashes st) k in
  let* first := index hs 0 in
  let* loc0 := getitem (locations st) first in
  if contains (lit "loc. ") loc0 then
    let* hs' := sorted (loc_key st) hs in
    let st := set_pub_hashes st k hs' in
    foldM (overlap_step k) st (seq 0 (length hs' - 1))
  else if contains (lit "p.") loc0 then
    let* hs' := sorted (page_key st) hs in
    Ok (set_pub_hashes st k hs')
  else Ok st.

Definition reconcile (st : state) : result state :=
  foldM reconcile_book st (dict_keys (pub_hashes st)).

(** *** Scan of the output directory (lines 141 to 160)

    The directory is a dictionary from file name to text.  A file counts
    when [os.path.splitext] gives an extension that is [.md] once in lower
    case: the name ends in a dot, m or M, d or D, and some character before
    that dot is not a dot. *)
Definition is_markdown (fname : str) : bool :=
  let n := length fname in
  (3 <=? n)
  && existsb (fun c => negb (c =? 46)%N) (take (n - 3) fname)
  && match drop (n - 3) fname with
     | [d; m; e] =>
         ((d =? 46) && ((m =? 109) || (m =? 77)) && ((e =? 100) || (e =? 68)))%N
     | _ => false
     end.

Definition scan_line (fname : str) (existing_hashes : dict str) (line : str)
    : dict str :=
  match findall regex_hashline line with
  | m :: _ => dict_set existing_hashes (group m 0) fname
  | [] => existing_hashes
  end.

Definition scan_file (existing_hashes : dict str) (f : str * str) : dict str :=
  if is_markdown f.1
  then foldl (scan_line f.1) existing_hashes (readlines f.2)
  else existing_hashes.

Definition scan (outdir : dict str) : dict str := foldl scan_file [] outdir.

(** *** Writer (lines 306 to 408) *)

(** [getvalidfilename] of utilities.py. *)
Definition getvalidfilename (filename : str) : str :=
  List.filter (fun c => negb (existsb (N.eqb c) (lit "()'?!:")))
    (nfkd filename).

Definition short_title_of (title : str) : str :=
  let short_title := split_head (lit "|") title in
  let short_title := split_head (lit " - ") short_title in
  let short_title := split_head (lit ". ") short_title in
  if 128 <? length short_title then take 127 short_title else short_title.

(** File name and [short] flag (lines 311 to 324). *)
Definition routing (nr_notes : nat) (author title : str) : str * bool :=
  if 2 <? nr_notes
  then (author ++ lit " - " ++ strip (short_title_of title) ++ lit ".md", false)
  else (lit "short_notes.md", true).

Definition is_new (existing_hashes : dict str) (note_hash : str) : bool :=
  negb (dict_mem existing_hashes note_hash).

Definition count_new (existing_hashes : dict str) (hs : list str) : nat :=
  length (List.filter (is_new existing_hashes) hs).

(** What is written when the file is opened (lines 342 to 363). *)
Definition header (short newfile : bool) (author title : str) : list str :=
  if short then
    let titlestr :=
      if str_eqb author (lit "Unknown") then title
      else author ++ lit " - " ++ title in
    [titlestr ++ nl; replicate (length titlestr) 45%N ++ nl ++ nl]
  else if negb newfile then
    [lit "---" ++ nl;
     lit "created_date: " ++ today ++ nl;
     lit "title: " ++ title ++ nl]
    ++ (if str_eqb author (lit "Unknown") then []
        else [lit "authors: [" ++ author ++ lit "]" ++ nl])
    ++ [lit "tags:" ++ nl ++ lit "  - books" ++ nl;
        lit "---" ++ nl;
        lit "## Summary" ++ nl;
        nl;
        lit "## Highlights" ++ nl]
  else [].

(** The metadata line written before a note (lines 386 to 398). *)
Definition comment_of (short : bool) (author title note_loc note_date : str)
    : str :=
  let comment := note_loc ++ lit " ; " ++ note_date in
  if short then comment ++ lit " ; " ++ author ++ lit " ; " ++ title
  else comment.

(** The two [out.write] calls of a note that is written. *)
Definition note_block (short : bool) (author title note_loc note_date note : str)
    : list str :=
  [comment_of short author title note_loc note_date ++ nl;
   lit ">" ++ note ++ nl ++ lit "---" ++ nl ++ nl].

(** Body of the [for note_hash in pub_hashes[key]] loop of the writer:
    the [out.write] calls it makes. *)
Definition write_note (st : state) (existing_hashes : dict str)
    (short : bool) (author title note_hash : str) : result (list str) :=
  let* note := getitem (notes st) note_hash in
  let* note_type := getitem (types st) note_hash in
  let* note_date := getitem (dates st) note_hash in
  let* note_loc := getitem (locations st) note_hash in
  if dict_mem existing_hashes note_hash then Ok []
  else
    match note with
    | [] => Ok []
    | _ => Ok (note_block short author title note_loc note_date note)
    end.

(** Body of [for key in pub_title.keys()]: [None] when the book is left
    out, else the file appended to and the writes in order. *)
Definition write_book (st : state) (existing_hashes : dict str)
    (selected_titles : list str) (outdir : dict str) (key : str)
    : result (option (str * list str)) :=
  let* title := getitem (pub_title st) key in
  if negb (existsb (str_eqb title) selected_titles) then Ok None
  else
    let* texts := getitem (pub_notes st) key in
    let nr_notes := length texts in
    let* author := getitem (pub_author st) key in
    let '(fname, short) := routing nr_notes author title in
    let* hs := getitem (pub_hashes st) key in
    if count_new existing_hashes hs =? 0 then Ok None
    else
      let outfile := getvalidfilename fname in
      let newfile := dict_mem outdir outfile in
      let* blocks := mapM (write_note st existing_hashes short author title) hs in
      Ok (Some (outfile, header short newfile author title ++ concat blocks)).

(** [open(outfile, a)] followed by the writes. *)
Definition append_file (outdir : dict str) (outfile : str) (ws : list str)
    : dict str :=
  dict_set outdir outfile (default [] (dict_get outdir outfile) ++ concat ws).

Definition write_step (st : state) (existing_hashes : dict str)
    (selected_titles : list str) (outdir : dict str) (key : str)
    : result (dict str) :=
  let* w := write_book st existing_hashes selected_titles outdir key in
  match w with
  | Some (outfile, ws) => Ok (append_file outdir outfile ws)
  | None => Ok outdir
  end.

Definition write_all (st : state) (existing_hashes : dict str)
    (selected_titles : list str) (outdir : dict str) : result (dict str) :=
  foldM (write_step st existing_hashes selected_titles) outdir
    (dict_keys (pub_title st)).

(** *** The whole run *)

Inductive outcome :=
  | Finished (outdir : dict str) (st : state)
  | Aborted (e : exn) (out : list str)
  | Hangs (out : list str)
  | NoFuel.

(** One run of the script on an output directory and a clippings file,
    the user selecting [selected_titles] at the prompt. *)
Definition run (outdir : dict str) (clippings : str)
    (selected_titles : list str) : outcome :=
  let existing_hashes := scan outdir in
  match parse clippings with
  | Parsed st =>
      match reconcile st with
      | Ok st' =>
          match write_all st' existing_hashes selected_titles outdir with
          | Ok outdir' => Finished outdir' st'
          | Raise e => Aborted e (stdout st')
          end
      | Raise e => Aborted e (stdout st)
      end
  | ParseAbort e out => Aborted e out
  | ParseHang out => Hangs out
  | OutOfFuel => NoFuel
  end.

End Pipeline.

End Clippings.


(** ** The choice of books: [get_user_book_selection] (lines 58 to 93)

    The lines the user types are a list of strings, one for each call of
    [input], without their line ends; when the list is used up [input]
    raises [EOFError], which the function does not catch.  The output holds
    one entry for each call of [print] and one for each prompt. *)

Module Selection.
Import Py.

(** [a < b] on strings: code point by code point, a proper prefix
    first. *)
Fixpoint str_ltb (a b : str) : bool :=
  match a, b with
  | _, [] => false
  | [], _ :: _ => true
  | x :: a', y :: b' => (x <? y)%N || (x =? y)%N && str_ltb a' b'
  end.

(** [sorted(list(set(titles.values())))].  A set has no order of its own;
    [sorted] puts its elements, all different, in the one ascending order
    there is.  Here each value is put in its place in the sorted list of
    the values after it, unless it is there. *)
Fixpoint insert_title (t : str) (l : list str) : list str :=
  match l with
  | [] => [t]
  | u :: l' =>
      if str_ltb t u then t :: l
      else if str_eqb t u then l
      else u :: insert_title t l'
  end.

Definition sorted_set (values : list str) : list str :=
  foldr insert_title [] values.

(** [s.split()]: the runs of characters that are not whitespace.  [cur]
    holds the run being read, latest character first. *)
Fixpoint split_from (cur s : str) : list str :=
  match s with
  | [] => match cur with [] => [] | _ => [rev cur] end
  | c :: s' =>
      if isspace c then
        match cur with
        | [] => split_from [] s'
        | _ => rev cur :: split_from [] s'
        end
      else split_from (c :: cur) s'
  end.

Definition split (s : str) : list str := split_from [] s.

(** Most digits [int] takes from a string (CPython 3.11). *)
Definition max_str_digits : N := 4300.

(** The digits of [int(s)] after a first digit: digits, each one after
    at most one underscore.  The value and the number of digits read. *)
Fixpoint int_digits (acc : Z) (count : N) (s : str) : option (Z * N) :=
  match s with
  | [] => Some (acc, count)
  | c :: s' =>
      match decimal_value c with
      | Some d => int_digits (10 * acc + d) (count + 1) s'
      | None =>
          if (c =? 95)%N then
            match s' with
            | c' :: s'' =>
                match decimal_value c' with
                | Some d => int_digits (10 * acc + d) (count + 1) s''
                | None => None
                end
            | [] => None
            end
          else None
      end
  end.

(** [int(s)] on a string without whitespace: a sign if any, then decimal
    digits of any script, single underscores between them; [None] is the
    [ValueError], raised also on more than [max_str_digits] digits. *)
Definition int (s : str) : option Z :=
  let '(negative, body) :=
    match s with
    | c :: s' =>
        if (c =? 43)%N then (false, s')
        else if (c =? 45)%N then (true, s')
        else (false, s)
    | [] => (false, [])
    end in
  match body with
  | c :: s' =>
      match decimal_value c with
      | Some d =>
          match int_digits d 1 s' with
          | Some (v, count) =>
              if (max_str_digits <? count)%N then None
              else Some (if negative : bool then (- v)%Z else v)
          | None => None
          end
      | None => None
      end
  | [] => None
  end.

(** [str(n)] for a number that is not negative. *)
Fixpoint str_of_uint (u : Decimal.uint) : str :=
  match u with
  | Decimal.Nil => []
  | Decimal.D0 u' => 48%N :: str_of_uint u'
  | Decimal.D1 u' => 49%N :: str_of_uint u'
  | Decimal.D2 u' => 50%N :: str_of_uint u'
  | Decimal.D3 u' => 51%N :: str_of_uint u'
  | Decimal.D4 u' => 52%N :: str_of_uint u'
  | Decimal.D5 u' => 53%N :: str_of_uint u'
  | Decimal.D6 u' => 54%N :: str_of_uint u'
  | Decimal.D7 u' => 55%N :: str_of_uint u'
  | Decimal.D8 u' => 56%N :: str_of_uint u'
  | Decimal.D9 u' => 57%N :: str_of_uint u'
  end.

Definition str_of_nat (n : nat) : str := str_of_uint (Nat.to_uint n).

(** [l[i]]: a negative index counts from the end, [None] is the
    [IndexError]. *)
Definition getitem_list {A} (l : list A) (i : Z) : option A :=
  if (i <? 0)%Z then
    if (i + Z.of_nat (length l) <? 0)%Z then None
    else l !! Z.to_nat (i + Z.of_nat (length l))
  else l !! Z.to_nat i.

Inductive exn := EOFError | IndexError.

Inductive answer :=
  | Chosen (selected_titles : list str)
  | Raised (e : exn).

Definition prompt : str :=
  [10%N] ++ lit "Input one or more numbers, separated by a space: ".

(** What is printed before the first prompt. *)
Definition menu (unique_titles : list str) : list str :=
  [[10%N] ++ lit "Select a book (or books) to output:"; lit "[0]: All books"]
  ++ imap (fun i title => lit "[" ++ str_of_nat (i + 1) ++ lit "]: " ++ title)
       unique_titles.

(** [[int(num) for num in selection.split()]] on the line typed, [None]
    when an [int] raises [ValueError]. *)
Definition numbers_of (line : str) : option (list Z) :=
  mapM int (split (strip line)).

(** [[unique_titles[num - 1] for num in numbers]]. *)
Definition titles_at (unique_titles : list str) (numbers : list Z)
    : option (list str) :=
  mapM (fun num => getitem_list unique_titles (num - 1)) numbers.

(** The [while True] loop: one turn for each line typed. *)
Fixpoint ask (unique_titles : list str) (inputs : list str) (out : list str)
    : answer * list str :=
  match inputs with
  | [] => (Raised EOFError, out ++ [prompt])
  | line :: inputs' =>
      let out := out ++ [prompt] in
      match numbers_of line with
      | None =>
          ask unique_titles inputs'
            (out ++ [lit "Please enter valid numbers separated by spaces"])
      | Some [] =>
          ask unique_titles inputs'
            (out ++ [lit "Please enter at least one number"])
      | Some numbers =>
          if existsb (Z.eqb 0) numbers then (Chosen unique_titles, out)
          else if existsb
                    (fun num =>
                       (num <? 0)%Z
                       || (Z.of_nat (length unique_titles) <? num)%Z)
                    numbers
          then
            ask unique_titles inputs'
              (out ++ [lit "Please enter numbers between 0 and "
                       ++ str_of_nat (length unique_titles)])
          else
            match titles_at unique_titles numbers with
            | Some selected => (Chosen selected, out)
            | None => (Raised IndexError, out)
            end
      end
  end.

Definition get_user_book_selection (titles : dict str) (inputs : list str)
    : answer * list str :=
  let unique_titles := sorted_set (map snd titles) in
  ask unique_titles inputs (menu unique_titles).

End Selection.
(** ** Specification-side definitions *)

Import Py Re Utilities Clippings.

(** *** Longest common contiguous substring *)

(** [w] occurs in [s] as a contiguous run. *)
Definition substring (w s : str) : Prop := exists p q, s = p ++ w ++ q.

(** Length of the longest common prefix of two strings. *)
Fixpoint common_prefix_len (x y : str) : nat :=
  match x, y with
  | c :: x', d :: y' =>
      if bool_decide (c = d) then S (common_prefix_len x' y') else 0
  | _, _ => 0
  end.

(** Length of the longest common suffix of the first [i] characters of [a]
    and the first [j] characters of [b]: cell [(i, j)] of the table the
    dynamic program walks through. *)
Definition suffix_len (a b : str) (i j : nat) : nat :=
  common_prefix_len (rev (take i a)) (rev (take j b)).

(** Largest cell of the table. *)
Definition table_max (a b : str) : nat :=
  max_list (concat (map (fun i => map (suffix_len a b i) (seq 1 (length b)))
                        (seq 1 (length a)))).

(** [n] is the length of a longest contiguous run of characters common to
    [a] and [b]. *)
Definition is_lcs_len (a b : str) (n : nat) : Prop :=
  (exists w, substring w a /\ substring w b /\ length w = n) /\
  (forall w, substring w a -> substring w b -> length w <= n).

(** *** Stable sorting *)

(** Order of decorated items: by key. *)
Definition key_le {A} : relation (Z * A) := fun x y => (x.1 <= y.1)%Z.

(** Every item carries its own key. *)
Definition decorated (key : str -> Z) (l : list (Z * str)) : Prop :=
  Forall (fun x => x.1 = key x.2) l.

(** A stable sort of [hs] on [key]. *)
Definition sort_on (key : str -> Z) (hs : list str) : list str :=
  map snd (sort_by_key (map (fun h => (key h, h)) hs)).

(** *** Reconciliation *)

(** Sort key of a hash: a function of its location string. *)
Definition rank (key_of_loc : str -> Z) (st : state) (h : str) : Z :=
  key_of_loc (default [] (dict_get (locations st) h)).

(** The key the reconciler sorts a book on, told by the location string of
    the book's first note; [None] when the book is left as it is. *)
Definition branch_key (loc0 : str) : option (str -> Z) :=
  if contains (lit "loc. ") loc0 then Some range_start
  else if contains (lit "p.") loc0 then Some first_number
  else None.

(** The hash [h] has its text, type, location and date in the side
    tables. *)
Definition note_known (st : state) (h : str) : bool :=
  dict_mem (notes st) h && dict_mem (types st) h
  && dict_mem (locations st) h && dict_mem (dates st) h.

(** Every hash of the list is in the side tables, as the parser leaves
    them. *)
Definition book_ok (st : state) (hs : list str) : bool :=
  forallb (note_known st) hs.

(** The hash list of a book, empty for an unknown book. *)
Definition hashes_of (st : state) (k : str) : list str :=
  default [] (dict_get (pub_hashes st) k).

(** The location strings of a book's notes, in the order of its hash
    list. *)
Definition locations_of (st : state) (k : str) : list str :=
  map (fun h => default [] (dict_get (locations st) h)) (hashes_of st k).

(** What the overlap detector prints for the pair at [i] and [i + 1]. *)
Definition flag_report (st : state) (hs : list str) (i : nat) : list str :=
  match overlap_check st hs i with
  | Ok out => out
  | Raise _ => []
  end.


(** The two states agree on everything but the hash list of book [k] and
    what was printed. *)
Definition same_but_book (k : str) (st st' : state) : Prop :=
  pub_title st' = pub_title st /\ pub_author st' = pub_author st /\
  pub_notes st' = pub_notes st /\
  notes st' = notes st /\ locations st' = locations st /\
  types st' = types st /\ dates st' = dates st /\
  dict_keys (pub_hashes st') = dict_keys (pub_hashes st) /\
  forall k', k' <> k ->
    dict_get (pub_hashes st') k' = dict_get (pub_hashes st) k'.

(** *** Location ranges *)

(** The characters of [s] pushed on the open group, first to last. *)
Definition push_all (s : str) (g : caps) : caps :=
  foldl (fun g c => push c g) g s.

(** [s] is made of decimal digits. *)
Definition digits (s : str) : Prop := Forall (fun c => isdecimal c = true) s.

(** [s] does not start with a decimal digit. *)
Definition no_digit_ahead (s : str) : Prop :=
  match s with
  | c :: _ => isdecimal c = false
  | [] => True
  end.

(** *** Text normalisation *)

(** The pass that turns two spaces into one, written directly. *)
Fixpoint collapse (s : str) : str :=
  match s with
  | c :: s' =>
      match s' with
      | d :: s'' =>
          if ((c =? 32) && (d =? 32))%N then 32%N :: collapse s''
          else c :: collapse s'
      | [] => [c]
      end
  | [] => []
  end.

(** *** Content hash *)

(** A lowercase hexadecimal digit. *)
Definition lower_hex (c : char) : bool :=
  ((48 <=? c) && (c <=? 57) || (97 <=? c) && (c <=? 102))%N.

(** *** The parse loop *)

(** The header line the loop starts with and the lines after it. *)
Definition first_header (clippings : str) : str * list str :=
  let ls := readlines (drop 1 clippings) in
  (replace [65279%N] [] (strip (hd [] ls)), tail ls).

(** [n] turns of the loop from a header line, each ending well: the header
    line, the lines left and the dictionaries after them. *)
Fixpoint turns (dateutil_str : str -> option str) (n : nat) (line : str)
    (ls : list str) (st : state) : option (str * list str * state) :=
  match n with
  | O => Some (line, ls, st)
  | S n' =>
      match line with
      | [] => None
      | _ =>
          match parse_record dateutil_str line ls st with
          | Next line' ls' st' => turns dateutil_str n' line' ls' st'
          | _ => None
          end
      end
  end.



(** The four dictionaries keyed by book have the same keys, and every
    book has a non-empty hash list whose hashes are all in the side
    tables. *)
Definition well_formed (st : state) : Prop :=
  (forall k,
     dict_mem (pub_title st) k = dict_mem (pub_hashes st) k /\
     dict_mem (pub_author st) k = dict_mem (pub_hashes st) k /\
     dict_mem (pub_notes st) k = dict_mem (pub_hashes st) k) /\
  forall k hs,
    dict_get (pub_hashes st) k = Some hs -> hs <> [] /\ book_ok st hs = true.

(** *** Writer *)

(** The note under hash [h] is written: its hash is not in the index and
    its text is not empty. *)
Definition written (st : state) (existing_hashes : dict str) (h : str) : bool :=
  is_new existing_hashes h
  && negb (str_eqb (default [] (dict_get (notes st) h)) []).

(** The two writes of the note under hash [h]. *)
Definition block_of (st : state) (short : bool) (author title h : str)
    : list str :=
  note_block short author title
    (default [] (dict_get (locations st) h))
    (default [] (dict_get (dates st) h))
    (default [] (dict_get (notes st) h)).

(** Routing as the specification words it: a book that produces output
    goes to the shared file exactly when at most two of its notes are
    new. *)
Definition routed_by_new_notes (nfkd : str -> str) (today : str) (st : state)
    (existing_hashes : dict str) (selected_titles : list str)
    (outdir : dict str) (key : str) : Prop :=
  forall outfile ws,
    write_book nfkd today st existing_hashes selected_titles outdir key
      = Ok (Some (outfile, ws)) ->
    (outfile = getvalidfilename nfkd (lit "short_notes.md") <->
     count_new existing_hashes (hashes_of st key) <= 2).

(** The output directory a run leaves, empty when the run did not end. *)
Definition outdir_of (o : outcome) : dict str :=
  match o with
  | Finished outdir _ => outdir
  | _ => []
  end.

(** *** Example inputs *)

(** A record of a clippings file: header, information line, blank line,
    one line of text, separator. *)
Definition record (hdr info text : string) : str :=
  lit hdr ++ nl ++ lit info ++ nl ++ nl ++ lit text ++ nl ++ note_sep ++ nl.

(** The byte-order mark a clippings file starts with. *)
Definition bom : str := [65279%N].

(** What dateutil answers on the date strings of the examples, rendered
    by [str]; any other string is taken not to parse. *)
Definition dateutil_examples (date : str) : option str :=
  dict_get
    [(lit "Monday, 1 January 2024 00:00:00", lit "2024-01-01 00:00:00");
     (lit "Monday, 1 January 2024 10:00:00", lit "2024-01-01 10:00:00");
     (lit "Monday, 1 January 2024 11:00:00", lit "2024-01-01 11:00:00");
     (lit "Tuesday, 2 January 2024 09:00:00", lit "2024-01-02 09:00:00")]
    date.

(** Unicode normalisation on the examples: NFKD leaves ASCII text as it
    is, and the file names of the examples are ASCII. *)
Definition nfkd_ascii (s : str) : str := s.

Definition today_example : str := lit "2024-02-01".

(** The dictionaries after a parse, empty when the parse did not end. *)
Definition parsed_state (p : parsed) : state :=
  match p with
  | Parsed st => st
  | _ => state0
  end.

(** The record of the parse scenario. *)
Definition scenario : str :=
  bom
  ++ record "Book Title (Jane Doe)"
       "- Your Highlight on page 12 | Added on Monday, 1 January 2024 00:00:00"
       "Some  highlighted   text.".

Definition scenario_key : str := lit "Book Title (Jane Doe)".

Definition scenario_state : state :=
  parsed_state (parse dateutil_examples scenario).

(** What the parse scenario says of the single record: the fields of the
    note, with [text] as its normalised text. *)
Definition scenario_outcome (p : parsed) (text : str) : Prop :=
  exists st h,
    p = Parsed st /\
    dict_get (pub_title st) scenario_key = Some (lit "Book Title") /\
    dict_get (pub_author st) scenario_key = Some (lit "Jane Doe") /\
    dict_get (pub_hashes st) scenario_key = Some [h] /\
    dict_get (types st) h = Some (lit "Highlight") /\
    dict_get (locations st) h = Some (lit "p.12") /\
    dict_get (notes st) h = Some text /\
    length h = 8.

(** Three highlights of one book, at locations 10-12, 50-60 and 1-5 in
    the order they were made. *)
Definition three_notes : str :=
  bom
  ++ record "Walden (Henry David Thoreau)"
       "- Your Highlight at location 10-12 | Added on Monday, 1 January 2024 10:00:00"
       "I went to the woods because I wished to live deliberately."
  ++ record "Walden (Henry David Thoreau)"
       "- Your Highlight at location 50-60 | Added on Monday, 1 January 2024 11:00:00"
       "Our life is frittered away by detail."
  ++ record "Walden (Henry David Thoreau)"
       "- Your Highlight at location 1-5 | Added on Tuesday, 2 January 2024 09:00:00"
       "The mass of men lead lives of quiet desperation.".

Definition walden : str := lit "Walden (Henry David Thoreau)".

Definition three_notes_state : state :=
  parsed_state (parse dateutil_examples three_notes).

(** The three notes of Walden after reconciliation. *)
Definition walden_state : state :=
  match reconcile three_notes_state with
  | Ok st => st
  | Raise _ => three_notes_state
  end.

(** An output directory left by an earlier version of the script, whose
    comment lines start with the hash: two of the three notes of Walden
    are there. *)
Definition earlier_outdir : dict str :=
  [(lit "Henry David Thoreau - Walden.md",
    lit ".. 07f938c3 ; Highlight ; loc. 10-12 ; 2024-01-01 10:00:00" ++ nl
    ++ lit ">I went to the woods because I wished to live deliberately." ++ nl
    ++ lit "---" ++ nl ++ nl
    ++ lit ".. 7708a9c0 ; Highlight ; loc. 50-60 ; 2024-01-01 11:00:00" ++ nl
    ++ lit ">Our life is frittered away by detail." ++ nl
    ++ lit "---" ++ nl ++ nl)].

(** Two highlights whose ranges meet at location 150 and whose texts share
    a long run. *)
Definition overlapping_notes : str :=
  bom
  ++ record "Pride and Prejudice (Jane Austen)"
       "- Your Highlight at location 100-150 | Added on Monday, 1 January 2024 10:00:00"
       "It is a truth universally acknowledged, that a single man in possession of a good fortune"
  ++ record "Pride and Prejudice (Jane Austen)"
       "- Your Highlight at location 150-200 | Added on Monday, 1 January 2024 11:00:00"
       "that a single man in possession of a good fortune, must be in want of a wife.".

Definition pride : str := lit "Pride and Prejudice (Jane Austen)".

Definition overlapping_state : state :=
  parsed_state (parse dateutil_examples overlapping_notes).


(** A first run on the record of the scenario into an empty directory,
    and a second run on the same file into what the first one left. *)
Definition first_run : outcome :=
  run dateutil_examples nfkd_ascii today_example [] scenario [lit "Book Title"].

Definition second_run : outcome :=
  run dateutil_examples nfkd_ascii today_example (outdir_of first_run) scenario
    [lit "Book Title"].

(** What the first run writes. *)
Definition first_output : str :=
  lit "Jane Doe - Book Title" ++ nl
  ++ lit "---------------------" ++ nl ++ nl
  ++ lit "p.12 ; 2024-01-01 00:00:00 ; Jane Doe ; Book Title" ++ nl
  ++ lit ">Some highlighted  text." ++ nl
  ++ lit "---" ++ nl ++ nl.


(** ** Further specification-side definitions *)

(** *** Further example inputs *)

(** The record of the scenario cut short before its separator line. *)
Definition truncated_clippings : str :=
  bom ++ lit "Book Title (Jane Doe)" ++ nl
  ++ lit "- Your Highlight on page 12 | Added on Monday, 1 January 2024 00:00:00"
  ++ nl ++ nl ++ lit "Some  highlighted   text." ++ nl.

(** The record of the scenario, a blank line, and a record whose
    information line does not match. *)
Definition blank_line_clippings : str :=
  scenario ++ nl
  ++ record "Walden (Henry David Thoreau)"
       "- Highlight on page 3 | Added on Monday, 1 January 2024 10:00:00"
       "I went to the woods because I wished to live deliberately.".

(** *** Malformed records, as the specification words them *)



(** *** Invariants of the parser *)

(** Texts and hashes agree: each book's hash list holds the hashes of its
    text list, item by item, and every text of the notes table is filed
    under its own hash. *)
Definition hashes_agree (st : state) : Prop :=
  (forall k ts hs,
     dict_get (pub_notes st) k = Some ts ->
     dict_get (pub_hashes st) k = Some hs ->
     mapM note_hash_of ts = Ok hs) /\
  (forall h t, dict_get (notes st) h = Some t -> note_hash_of t = Ok h).

(** *** The reconciler as a whole *)

(** The state [st'] holds the notes of [st]: the same books and side
    tables, each book's hash list in some order. *)
Definition reordered (st st' : state) : Prop :=
  pub_title st' = pub_title st /\ pub_author st' = pub_author st /\
  pub_notes st' = pub_notes st /\
  notes st' = notes st /\ locations st' = locations st /\
  types st' = types st /\ dates st' = dates st /\
  dict_keys (pub_hashes st') = dict_keys (pub_hashes st) /\
  forall k, hashes_of st' k ≡ₚ hashes_of st k.

(** *** The writer as a whole *)

(** No book that is selected has a hash that the index lacks. *)
Definition nothing_new (st : state) (existing_hashes : dict str)
    (selected_titles : list str) : bool :=
  forallb
    (fun k =>
       negb (existsb (str_eqb (default [] (dict_get (pub_title st) k)))
               selected_titles)
       || forallb (dict_mem existing_hashes) (hashes_of st k))
    (dict_keys (pub_title st)).

(** The dictionaries of the scenario and of the three notes after
    reconciliation. *)
Definition scenario_reconciled : state :=
  match reconcile scenario_state with
  | Ok st => st
  | Raise _ => scenario_state
  end.

(** An output directory that holds the hashes of the three notes of
    Walden. *)
Definition complete_outdir : dict str :=
  [(lit "Henry David Thoreau - Walden.md",
    default [] (dict_get earlier_outdir (lit "Henry David Thoreau - Walden.md"))
    ++ lit ".. 0047e284 ; Highlight ; loc. 1-5 ; 2024-01-02 09:00:00" ++ nl
    ++ lit ">The mass of men lead lives of quiet desperation." ++ nl
    ++ lit "---" ++ nl ++ nl)].

(** *** A book with pages only *)

Definition page_notes : str :=
  bom
  ++ record "Emma (Jane Austen)"
       "- Your Highlight on page 30 | Added on Monday, 1 January 2024 10:00:00"
       "Seldom, very seldom, does complete truth belong to any human disclosure."
  ++ record "Emma (Jane Austen)"
       "- Your Highlight on page 4 | Added on Monday, 1 January 2024 11:00:00"
       "Silly things do cease to be silly if they are done by sensible people."
  ++ record "Emma (Jane Austen)"
       "- Your Highlight on page 12-13 | Added on Tuesday, 2 January 2024 09:00:00"
       "One half of the world cannot understand the pleasures of the other.".

Definition emma : str := lit "Emma (Jane Austen)".

Definition page_notes_state : state :=
  parsed_state (parse dateutil_examples page_notes).

(** *** Characters that patterns of the script name *)

Definition newline : char := 10%N.
Definition lparen : char := 40%N.
Definition rparen : char := 41%N.

(** A hexadecimal digit in either case, as the hash-line pattern takes
    it. *)
Definition hex_digit (c : char) : bool :=
  ((97 <=? c) && (c <=? 102)
   || ((65 <=? c) && (c <=? 70) || (48 <=? c) && (c <=? 57)))%N.

(** [s] does not start with a hexadecimal digit. *)
Definition no_hex_ahead (s : str) : Prop :=
  match s with
  | c :: _ => hex_digit c = false
  | [] => True
  end.

(** [s] does not start with whitespace. *)
Definition no_space_ahead (s : str) : Prop :=
  match s with
  | c :: _ => isspace c = false
  | [] => True
  end.

(** A decimal digit or a dash, as the patterns of a location and of a
    page take them. *)
Definition digit_or_dash (c : char) : bool := isdecimal c || (c =? 45)%N.

(** *** The choice of books *)

(** [a < b] on strings, as a relation. *)
Definition str_lt (a b : str) : Prop := Selection.str_ltb a b = true.

(** *** A bookmark *)

(** A record of a bookmark: no text before the separator. *)
Definition bookmark_clippings : str :=
  bom
  ++ record "Emma (Jane Austen)"
       "- Your Bookmark on page 5 | Added on Monday, 1 January 2024 10:00:00"
       "".

Definition bookmark_state : state :=
  parsed_state (parse dateutil_examples bookmark_clippings).
(** * Theorems *)

(** ** Similarity metric *)

Lemma max_list_app (l k : list nat) :
  max_list (l ++ k) = max_list l `max` max_list k.
Proof. induction l as [|x l IH]; simpl; [done|]. rewrite IH. lia. Qed.

Lemma elem_of_concat {A} (x : A) (ls : list (list A)) :
  x ∈ concat ls <-> exists l, x ∈ l /\ l ∈ ls.
Proof.
  induction ls as [|l ls IH]; simpl.
  - split; [by intros ?%not_elem_of_nil|]. by intros (l & _ & ?%not_elem_of_nil).
  - rewrite elem_of_app, IH. split.
    + intros [H | (l' & H1 & H2)]; [exists l | exists l']; split; auto; by constructor.
    + intros (l' & H1 & [-> | H2]%elem_of_cons); [by left | right; eauto].
Qed.

Section LcsProofs.
Variables a b : str.

Lemma suffix_len_0_r i : suffix_len a b i 0 = 0.
Proof. unfold suffix_len. rewrite take_0. simpl. by destruct (rev (take i a)). Qed.

Lemma suffix_len_0_l j : suffix_len a b 0 j = 0.
Proof. unfold suffix_len. by rewrite take_0. Qed.

Lemma suffix_len_S i j x y :
  a !! i = Some x -> b !! j = Some y ->
  suffix_len a b (S i) (S j) =
    if bool_decide (x = y) then S (suffix_len a b i j) else 0.
Proof.
  intros Ha Hb. unfold suffix_len.
  rewrite (take_S_r _ _ _ Ha), (take_S_r _ _ _ Hb), !rev_unit. reflexivity.
Qed.

(** The inner loop fills the cells 1..m of the row and keeps the maximum. *)
Lemma lcs_inner i ai prev best0 m :
  a !! i = Some ai ->
  (forall j, j <= length b -> prev !! j = Some (suffix_len a b i j)) ->
  m <= length b ->
  exists cur,
    foldl (lcs_cell ai b prev) (replicate (length b + 1) 0, best0) (seq 1 m)
      = (cur, best0 `max` max_list (map (suffix_len a b (S i)) (seq 1 m)))
    /\ length cur = length b + 1
    /\ (forall j, j <= m -> cur !! j = Some (suffix_len a b (S i) j))
    /\ (forall j, m < j -> j <= length b -> cur !! j = Some 0).
Proof.
  intros Ha Hprev. induction m as [|m IH]; intros Hm.
  - eexists; split; [simpl; f_equal; lia|].
    split; [by rewrite length_replicate|]. split.
    + intros j Hj. assert (j = 0) as -> by lia.
      rewrite suffix_len_0_r. apply lookup_replicate_2. lia.
    + intros j _ Hj. apply lookup_replicate_2. lia.
  - destruct IH as (cur & Hfold & Hlen & Hlow & Hhigh); [lia|].
    rewrite seq_S, foldl_snoc, Hfold, map_app, max_list_app. simpl.
    unfold lcs_cell. simpl. rewrite !Nat.sub_0_r.
    destruct (lookup_lt_is_Some_2 b m ltac:(lia)) as [bj Hbj].
    rewrite Hbj, (Hprev m ltac:(lia)). simpl.
    rewrite (suffix_len_S i m ai bj Ha Hbj).
    destruct (decide (ai = bj)) as [->|Hne].
    + rewrite !bool_decide_eq_true_2 by done.
      eexists; split; [f_equal|].
      { destruct (Nat.ltb_spec (best0 `max` max_list (map (suffix_len a b (S i)) (seq 1 m))) (suffix_len a b i m + 1)); lia. }
      split; [by rewrite length_insert|]. split.
      * intros j Hj. destruct (decide (j = S m)) as [->|Hjm].
        -- rewrite list_lookup_insert_eq by lia.
           rewrite (suffix_len_S i m bj bj Ha Hbj), bool_decide_eq_true_2 by done.
           f_equal; lia.
        -- rewrite list_lookup_insert_ne by lia. apply Hlow. lia.
      * intros j Hj1 Hj2. rewrite list_lookup_insert_ne by lia. apply Hhigh; lia.
    + rewrite bool_decide_eq_false_2 by congruence.
      rewrite bool_decide_eq_false_2 by done.
      eexists; split; [f_equal; lia|]. split; [done|]. split.
      * intros j Hj. destruct (decide (j = S m)) as [->|Hjm].
        -- rewrite (suffix_len_S i m ai bj Ha Hbj), bool_decide_eq_false_2 by done.
           apply Hhigh; lia.
        -- apply Hlow. lia.
      * intros j Hj1 Hj2. apply Hhigh; lia.
Qed.

(** The outer loop: after [n] rows, [prev] is row [n] of the table and
    [best] the maximum of the rows so far. *)
Lemma lcs_outer n :
  n <= length a ->
  exists prev,
    foldl (lcs_row a b) (replicate (length b + 1) 0, 0) (seq 1 n)
      = (prev, max_list (concat (map (fun i => map (suffix_len a b i)
                                                 (seq 1 (length b)))
                                     (seq 1 n))))
    /\ (forall j, j <= length b -> prev !! j = Some (suffix_len a b n j)).
Proof.
  induction n as [|n IH]; intros Hn.
  - eexists; split; [reflexivity|]. intros j Hj.
    rewrite suffix_len_0_l. apply lookup_replicate_2. lia.
  - destruct IH as (prev & Hfold & Hprev); [lia|].
    rewrite seq_S, foldl_snoc, Hfold, map_app, concat_app, max_list_app.
    simpl. rewrite Nat.sub_0_r, app_nil_r.
    destruct (lookup_lt_is_Some_2 a n ltac:(lia)) as [ai Hai]. rewrite Hai.
    destruct (lcs_inner n ai prev
                (max_list (concat (map (fun i => map (suffix_len a b i)
                                                  (seq 1 (length b)))
                                       (seq 1 n))))
                (length b) Hai Hprev (le_n _))
      as (cur & Hcur & _ & Hlow & _).
    rewrite Hcur. eauto.
Qed.

Lemma lcs_table :
  snd (foldl (lcs_row a b) (replicate (length b + 1) 0, 0) (seq 1 (length a)))
  = table_max a b.
Proof.
  destruct (lcs_outer (length a) (le_n _)) as (prev & Hfold & _).
  by rewrite Hfold.
Qed.

End LcsProofs.

Lemma common_prefix_len_app (w x y : str) :
  length w <= common_prefix_len (w ++ x) (w ++ y).
Proof.
  induction w as [|c w IH]; simpl; [lia|].
  rewrite bool_decide_eq_true_2 by done. lia.
Qed.

Lemma common_prefix_len_take (x y : str) :
  take (common_prefix_len x y) x = take (common_prefix_len x y) y.
Proof.
  revert y. induction x as [|c x IH]; intros [|d y]; simpl; try done.
  case_bool_decide; simpl; [|done]. subst. by rewrite IH.
Qed.

Lemma common_prefix_len_le (x y : str) :
  common_prefix_len x y <= length x /\ common_prefix_len x y <= length y.
Proof.
  revert y. induction x as [|c x IH]; intros [|d y]; simpl; try lia.
  case_bool_decide; simpl; [|lia]. specialize (IH y). lia.
Qed.

(** A common suffix of two prefixes is a common substring. *)
Lemma suffix_len_substring (a b : str) i j :
  exists w, substring w a /\ substring w b /\ length w = suffix_len a b i j.
Proof.
  unfold suffix_len.
  set (x := rev (take i a)). set (y := rev (take j b)).
  set (n := common_prefix_len x y).
  exists (rev (take n x)). split; [|split].
  - exists (rev (drop n x)), (drop i a).
    rewrite app_assoc, <- rev_app_distr, take_drop. unfold x.
    by rewrite rev_involutive, take_drop.
  - unfold n at 1. rewrite common_prefix_len_take. fold n.
    exists (rev (drop n y)), (drop j b).
    rewrite app_assoc, <- rev_app_distr, take_drop. unfold y.
    by rewrite rev_involutive, take_drop.
  - rewrite length_rev, length_take.
    destruct (common_prefix_len_le x y). fold n in H, H0. lia.
Qed.

(** Every common substring ends at some cell of the table. *)
Lemma substring_suffix_len (a b w : str) :
  substring w a -> substring w b -> w <> [] ->
  exists i j, 1 <= i <= length a /\ 1 <= j <= length b
              /\ length w <= suffix_len a b i j.
Proof.
  intros (p & q & ->) (p' & q' & ->) Hw.
  assert (0 < length w) by (destruct w; simpl; [done|lia]).
  exists (length (p ++ w)), (length (p' ++ w)).
  rewrite !length_app. split; [lia|]. split; [lia|].
  unfold suffix_len. rewrite !app_assoc, <- !length_app, !take_app_length.
  rewrite !rev_app_distr. rewrite <- (length_rev w) at 1.
  apply common_prefix_len_app.
Qed.

Lemma table_max_spec (a b : str) : is_lcs_len a b (table_max a b).
Proof.
  split.
  - unfold table_max.
    set (cells := concat _).
    destruct (decide (cells = [])) as [->|Hne].
    + exists []. split; [by exists [], a|]. split; [by exists [], b|done].
    + apply max_list_elem_of in Hne. fold cells in Hne.
      apply elem_of_concat in Hne as (row & Hin & Hrow).
      apply list_elem_of_fmap in Hrow as (i & -> & _).
      apply list_elem_of_fmap in Hin as (j & -> & _).
      apply suffix_len_substring.
  - intros w Ha Hb. destruct (decide (w = [])) as [->|Hw]; [simpl; lia|].
    destruct (substring_suffix_len a b w Ha Hb Hw) as (i & j & Hi & Hj & Hle).
    etrans; [exact Hle|]. apply max_list_elem_of_le.
    apply elem_of_concat. exists (map (suffix_len a b i) (seq 1 (length b))).
    split.
    + apply list_elem_of_fmap. exists j. split; [done|]. apply elem_of_seq. lia.
    + apply list_elem_of_fmap. exists i. split; [done|]. apply elem_of_seq. lia.
Qed.

Lemma is_lcs_len_sym (a b : str) n : is_lcs_len a b n -> is_lcs_len b a n.
Proof.
  intros [(w & ? & ? & ?) Hmax]. split; [by exists w|]. intros; by apply Hmax.
Qed.

Lemma is_lcs_len_unique (a b : str) n m :
  is_lcs_len a b n -> is_lcs_len a b m -> n = m.
Proof.
  intros [(w & ? & ? & ?) Hn] [(w' & ? & ? & ?) Hm].
  specialize (Hn w'). specialize (Hm w). subst. apply Nat.le_antisymm; auto.
Qed.

Lemma substring_nil (w : str) : substring w [] -> w = [].
Proof.
  intros (p & q & H). symmetry in H.
  apply app_eq_nil in H as [_ H]. by apply app_eq_nil in H as [H _].
Qed.

Lemma substring_length (w s : str) : substring w s -> length w <= length s.
Proof. intros (p & q & ->). rewrite !length_app. lia. Qed.

Lemma is_lcs_len_nil_l (b : str) : is_lcs_len [] b 0.
Proof.
  split.
  - exists []. split; [by exists [], []|]. split; [by exists [], b|done].
  - intros w Hw _. by rewrite (substring_nil w Hw).
Qed.

(** The dynamic program computes the length of a longest common
    contiguous substring. *)
Lemma longest_common_substring_len_spec (a b : str) :
  is_lcs_len a b (longest_common_substring_len a b).
Proof.
  unfold longest_common_substring_len.
  destruct a as [|x a']; [apply is_lcs_len_nil_l|].
  destruct b as [|y b']; [apply is_lcs_len_sym, is_lcs_len_nil_l|].
  destruct (length (x :: a') <? length (y :: b')).
  - rewrite lcs_table. apply is_lcs_len_sym, table_max_spec.
  - rewrite lcs_table. apply table_max_spec.
Qed.

(** C8. The similarity metric is symmetric, returns the length of the
    string when both arguments are the same string, and returns 0 when
    either argument is empty. *)
Theorem lcs_algebra :
  (forall a b : str,
     longest_common_substring_len a b = longest_common_substring_len b a) /\
  (forall a : str, longest_common_substring_len a a = length a) /\
  (forall b : str, longest_common_substring_len [] b = 0) /\
  (forall a : str, longest_common_substring_len a [] = 0).
Proof.
  split; [|split; [|split]].
  - intros a b. apply (is_lcs_len_unique a b).
    + apply longest_common_substring_len_spec.
    + apply is_lcs_len_sym, longest_common_substring_len_spec.
  - intros a. destruct (longest_common_substring_len_spec a a)
      as [(w & Hw & _ & Hlen) Hmax].
    apply Nat.le_antisymm.
    + rewrite <- Hlen. by apply substring_length.
    + apply Hmax; exists [], []; by rewrite app_nil_r.
  - done.
  - by intros [|x a].
Qed.

(** ** Patterns

    The matcher on subjects where backtracking, the anchors and the scan
    of [findall] all come into play; the right-hand sides are what
    Python's [re] returns. *)

Example regex_title_last_parentheses :
  findall regex_title (lit "A (B) (C)") = [[lit "A (B) "; lit "C"]].
Proof. reflexivity. Qed.

Example regex_title_no_author : findall regex_title (lit "No author") = [].
Proof. reflexivity. Qed.

Example regex_info_backtracks :
  findall regex_info
    (lit "- Your Highlight on page 12 | location 100-150 | Added on Monday, Added on 1 January 2024")
  = [[lit "Highlight";
      lit "on page 12 | location 100-150 | Added on Monday,";
      lit "1 January 2024"]].
Proof. vm_compute. reflexivity. Qed.

Example regex_loc_and_page :
  findall regex_loc (lit "on page 12 | location 100-150 |") = [[lit "100-150"]] /\
  findall regex_page (lit "on page 12 | location 100-150 |") = [[lit "12"]].
Proof. split; reflexivity. Qed.

Example regex_numrange_in_page :
  search regex_numrange (lit "loc. 5, p.10-12") = Some [lit "10"; lit "12"] /\
  search regex_numrange (lit "loc. 7-") = None /\
  search regex_num (lit "p.12-14") = Some [lit "12"].
Proof. repeat split; reflexivity. Qed.

Example regex_numrange_findall :
  findall regex_numrange (lit "1-2-3 4-5")
  = [[lit "1"; lit "2"]; [lit "4"; lit "5"]].
Proof. reflexivity. Qed.

Example regex_hashline_lines :
  findall regex_hashline (lit "..  DeadBeef99 ; x" ++ nl) = [[lit "DeadBeef99"]] /\
  findall regex_hashline (lit " .. abc") = [] /\
  findall regex_hashline (lit "..xyz") = [].
Proof. repeat split; reflexivity. Qed.

(** [str.replace] takes occurrences from the left without overlap, and
    [split] cuts at the first separator. *)
Example replace_three_spaces :
  replace (lit "  ") (lit " ") (lit "a   b    c") = lit "a  b  c".
Proof. reflexivity. Qed.

Example short_title_cuts :
  short_title_of (lit "Walden. Or - Life | in the Woods") = lit "Walden".
Proof. reflexivity. Qed.
(** ** Stable sorting *)

Section Sorting.
Context {A : Type}.
Implicit Types (x : Z * A) (l : list (Z * A)).

Lemma insert_by_key_perm x l : insert_by_key x l ≡ₚ x :: l.
Proof.
  induction l as [|y l IH]; simpl; [done|].
  destruct (x.1 <=? y.1)%Z; [done|]. rewrite IH. apply Permutation_swap.
Qed.

Lemma sort_by_key_perm l : sort_by_key l ≡ₚ l.
Proof.
  induction l as [|x l IH]; simpl; [done|].
  rewrite insert_by_key_perm. by rewrite IH.
Qed.

Lemma insert_by_key_sorted x l :
  StronglySorted key_le l -> StronglySorted key_le (insert_by_key x l).
Proof.
  induction l as [|y l IH]; simpl; intros Hs.
  - repeat constructor.
  - apply StronglySorted_inv in Hs as [Hl Hy].
    destruct (Z.leb_spec x.1 y.1).
    + constructor; [by constructor|]. constructor; [done|].
      eapply Forall_impl; [exact Hy|]. unfold key_le. intros; simpl in *; lia.
    + constructor; [by apply IH|].
      rewrite insert_by_key_perm. constructor; [unfold key_le; lia|done].
Qed.

Lemma sort_by_key_sorted l : StronglySorted key_le (sort_by_key l).
Proof.
  induction l as [|x l IH]; simpl; [constructor|by apply insert_by_key_sorted].
Qed.

(** Items with one key value come out in the order they went in. *)
Lemma insert_by_key_filter v x l :
  List.filter (fun y => (y.1 =? v)%Z) (insert_by_key x l)
  = List.filter (fun y => (y.1 =? v)%Z) (x :: l).
Proof.
  induction l as [|y l IH]; [done|]. cbn [insert_by_key].
  destruct (Z.leb_spec x.1 y.1); [done|].
  cbn [List.filter] in *. rewrite IH.
  destruct (Z.eqb_spec x.1 v), (Z.eqb_spec y.1 v); try done. lia.
Qed.

Lemma sort_by_key_stable v l :
  List.filter (fun y => (y.1 =? v)%Z) (sort_by_key l)
  = List.filter (fun y => (y.1 =? v)%Z) l.
Proof.
  induction l as [|x l IH]; [done|]. cbn [sort_by_key foldr].
  rewrite insert_by_key_filter. cbn [List.filter].
  fold (sort_by_key l). by rewrite IH.
Qed.

End Sorting.

Section SortOn.
Variable key : str -> Z.

Lemma decorate_decorated hs : decorated key (map (fun h => (key h, h)) hs).
Proof. induction hs; constructor; auto. Qed.

Lemma map_snd_decorate hs : map snd (map (fun h => (key h, h)) hs) = hs.
Proof. induction hs; simpl; congruence. Qed.

Lemma sort_on_perm hs : sort_on key hs ≡ₚ hs.
Proof.
  unfold sort_on. rewrite sort_by_key_perm. by rewrite map_snd_decorate.
Qed.

Lemma sort_on_length hs : length (sort_on key hs) = length hs.
Proof. by rewrite sort_on_perm. Qed.

Lemma decorated_sorted l :
  decorated key l -> StronglySorted key_le l ->
  StronglySorted (fun a b => (key a <= key b)%Z) (map snd l).
Proof.
  induction l as [|x l IH]; intros Hd Hs; simpl; [constructor|].
  apply Forall_cons in Hd as [Hx Hd].
  apply StronglySorted_inv in Hs as [Hl Hxl].
  constructor; [by apply IH|].
  apply Forall_fmap. apply Forall_forall. intros y Hy. simpl.
  rewrite Forall_forall in Hxl, Hd. specialize (Hxl y Hy). specialize (Hd y Hy).
  unfold key_le in Hxl. lia.
Qed.

Lemma sort_on_sorted hs :
  StronglySorted (fun a b => (key a <= key b)%Z) (sort_on key hs).
Proof.
  apply decorated_sorted; [|apply sort_by_key_sorted].
  unfold decorated. rewrite sort_by_key_perm. apply decorate_decorated.
Qed.

Lemma decorated_filter v l :
  decorated key l ->
  List.filter (fun h => (key h =? v)%Z) (map snd l)
  = map snd (List.filter (fun y => (y.1 =? v)%Z) l).
Proof.
  induction l as [|x l IH]; intros Hd; [done|].
  apply Forall_cons in Hd as [Hx Hd]. simpl. rewrite <- Hx, IH by done.
  by destruct (x.1 =? v)%Z.
Qed.

Lemma sort_on_stable v hs :
  List.filter (fun h => (key h =? v)%Z) (sort_on key hs)
  = List.filter (fun h => (key h =? v)%Z) hs.
Proof.
  unfold sort_on. rewrite decorated_filter.
  - rewrite sort_by_key_stable, <- decorated_filter by apply decorate_decorated.
    by rewrite map_snd_decorate.
  - unfold decorated. rewrite sort_by_key_perm. apply decorate_decorated.
Qed.

End SortOn.

(** ** Dictionaries *)

Lemma str_eqb_refl (a : str) : str_eqb a a = true.
Proof. unfold str_eqb. by apply bool_decide_eq_true_2. Qed.

Lemma str_eqb_ne (a b : str) : a <> b -> str_eqb a b = false.
Proof. unfold str_eqb. by apply bool_decide_eq_false_2. Qed.

Lemma str_eqb_eq (a b : str) : str_eqb a b = true -> a = b.
Proof. unfold str_eqb. by intros ?%bool_decide_eq_true_1. Qed.

Section Dict.
Context {V : Type}.
Implicit Types (d : dict V) (k : str) (v : V).

Lemma dict_get_set_eq d k v : dict_get (dict_set d k v) k = Some v.
Proof.
  induction d as [|[k' v'] d IH]; simpl.
  - by rewrite str_eqb_refl.
  - destruct (decide (k = k')) as [->|Hne].
    + rewrite str_eqb_refl. simpl. by rewrite str_eqb_refl.
    + rewrite str_eqb_ne by done. simpl. by rewrite str_eqb_ne.
Qed.

Lemma dict_get_set_ne d k k' v :
  k' <> k -> dict_get (dict_set d k v) k' = dict_get d k'.
Proof.
  intros Hne. induction d as [|[k0 v0] d IH]; simpl.
  - by rewrite str_eqb_ne.
  - destruct (decide (k = k0)) as [->|Hk].
    + rewrite str_eqb_refl. simpl. by rewrite !str_eqb_ne.
    + rewrite (str_eqb_ne k k0) by done. simpl. by rewrite IH.
Qed.

Lemma dict_keys_set_mem d k v v0 :
  dict_get d k = Some v0 -> dict_keys (dict_set d k v) = dict_keys d.
Proof.
  unfold dict_keys. induction d as [|[k' v'] d IH]; simpl; [done|].
  destruct (decide (k = k')) as [->|Hk].
  - by rewrite str_eqb_refl.
  - rewrite str_eqb_ne by done. simpl. intros H. by rewrite IH.
Qed.

Lemma dict_mem_get d k : dict_mem d k = true -> exists v, dict_get d k = Some v.
Proof. unfold dict_mem. destruct (dict_get d k); eauto. done. Qed.

End Dict.

(** ** The result monad *)

Lemma mapM_ok {A B} (f : A -> result B) (g : A -> B) (l : list A) :
  Forall (fun x => f x = Ok (g x)) l -> mapM f l = Ok (map g l).
Proof.
  induction 1 as [|x l Hx _ IH]; simpl; [done|]. by rewrite Hx, IH.
Qed.

Lemma zip_decorate {A B} (f : A -> B) (l : list A) :
  zip (map f l) l = map (fun x => (f x, x)) l.
Proof. induction l; simpl; congruence. Qed.

(** ** Reconciliation *)

Lemma note_known_spec st h :
  note_known st h = true ->
  exists text type loc date,
    dict_get (notes st) h = Some text /\ dict_get (types st) h = Some type /\
    dict_get (locations st) h = Some loc /\ dict_get (dates st) h = Some date.
Proof.
  unfold note_known. rewrite !andb_true_iff. intros [[[H1 H2] H3] H4].
  apply dict_mem_get in H1 as [? ?], H2 as [? ?], H3 as [? ?], H4 as [? ?].
  eauto 10.
Qed.

Lemma book_ok_elem st hs h : book_ok st hs = true -> h ∈ hs -> note_known st h = true.
Proof.
  unfold book_ok. rewrite forallb_forall. intros H Hin. apply H.
  by apply list_elem_of_In.
Qed.

Lemma book_ok_perm st hs hs' : hs' ≡ₚ hs -> book_ok st hs = true -> book_ok st hs' = true.
Proof.
  unfold book_ok. rewrite !forallb_forall. intros Hp H x Hx. apply H.
  apply list_elem_of_In. rewrite <- Hp. by apply list_elem_of_In.
Qed.

Lemma sorted_known (key_of_loc : str -> Z) st hs :
  book_ok st hs = true ->
  sorted (fun item => bind (getitem (locations st) item)
                        (fun loc => Ok (key_of_loc loc))) hs
  = Ok (sort_on (rank key_of_loc st) hs).
Proof.
  intros Hok. unfold sorted.
  rewrite (mapM_ok _ (rank key_of_loc st)).
  - simpl. by rewrite zip_decorate.
  - apply Forall_forall. intros h Hh.
    destruct (note_known_spec st h (book_ok_elem _ _ _ Hok Hh))
      as (? & ? & loc & ? & _ & _ & Hloc & _).
    unfold getitem, rank. by rewrite Hloc.
Qed.

(** The overlap detector reads the side tables only. *)
Lemma overlap_check_frame st st' hs i :
  notes st' = notes st -> types st' = types st -> locations st' = locations st ->
  overlap_check st' hs i = overlap_check st hs i.
Proof. unfold overlap_check. by intros -> -> ->. Qed.

Lemma overlap_check_ok st hs i :
  book_ok st hs = true -> i + 1 < length hs ->
  exists out, overlap_check st hs i = Ok out.
Proof.
  intros Hok Hi.
  destruct (lookup_lt_is_Some_2 hs i ltac:(lia)) as [h1 H1].
  destruct (lookup_lt_is_Some_2 hs (i + 1) ltac:(lia)) as [h2 H2].
  destruct (note_known_spec st h1) as (s1 & t1 & l1 & ? & Hs1 & Ht1 & Hl1 & _).
  { eapply book_ok_elem; [done|]. by eapply list_elem_of_lookup_2. }
  destruct (note_known_spec st h2) as (s2 & t2 & l2 & ? & Hs2 & Ht2 & Hl2 & _).
  { eapply book_ok_elem; [done|]. by eapply list_elem_of_lookup_2. }
  unfold overlap_check, index, getitem, bind.
  rewrite H1, H2, Hs1, Hs2, Ht1.
  destruct (str_eqb t1 _); [eauto|]. rewrite Ht2.
  destruct (_ || _); [eauto|]. rewrite Hl1, Hl2.
  destruct (range_of l1), (range_of l2); eauto.
  destruct (_ || _); eauto. destruct (above_threshold _ _); eauto.
Qed.

(** The loop over adjacent pairs only prints. *)
Lemma overlap_loop k st hs is_ :
  dict_get (pub_hashes st) k = Some hs ->
  book_ok st hs = true ->
  Forall (fun i => i + 1 < length hs) is_ ->
  foldM (overlap_step k) st is_
  = Ok (prints (concat (map (flag_report st hs) is_)) st).
Proof.
  intros Hk Hok His. revert st Hk Hok.
  induction His as [|i is_ Hi _ IH]; intros st Hk Hok; simpl.
  - unfold prints. rewrite app_nil_r. by destruct st.
  - unfold overlap_step at 1, getitem. rewrite Hk. cbn [bind].
    destruct (overlap_check_ok st hs i Hok Hi) as [out Hout].
    unfold flag_report at 1. rewrite Hout. cbn [bind].
    rewrite IH by done.
    assert (map (flag_report (prints out st) hs) is_
            = map (flag_report st hs) is_) as ->.
    { apply map_ext. intros j. unfold flag_report.
      by rewrite (overlap_check_frame st (prints out st)). }
    unfold prints; simpl. by rewrite app_assoc.
Qed.

Lemma print_prints k st out :
  prints out (print k st) = prints ([k] ++ out) st.
Proof. unfold prints, print; simpl. by rewrite <- app_assoc. Qed.

(** The location branch: the book's list is sorted on the start of the
    range, then adjacent pairs are examined. *)
Lemma reconcile_book_loc st k hs first loc0 :
  dict_get (pub_hashes st) k = Some hs ->
  hs !! 0 = Some first ->
  dict_get (locations st) first = Some loc0 ->
  contains (lit "loc. ") loc0 = true ->
  book_ok st hs = true ->
  let hs' := sort_on (rank range_start st) hs in
  reconcile_book st k
  = Ok (prints (k :: concat (map (flag_report st hs') (seq 0 (length hs' - 1))))
          (set_pub_hashes st k hs')).
Proof.
  intros Hk Hfirst Hloc0 Hbranch Hok hs'.
  unfold reconcile_book, getitem, index. simpl.
  rewrite Hk. cbn [bind]. rewrite Hfirst. cbn [bind]. rewrite Hloc0. cbn [bind].
  rewrite Hbranch.
  unfold loc_key. change (locations (print k st)) with (locations st).
  rewrite (sorted_known range_start st hs Hok). cbn [bind]. fold hs'.
  rewrite (overlap_loop k _ hs').
  - f_equal. unfold prints, set_pub_hashes, print; simpl.
    rewrite <- app_assoc. do 2 f_equal.
  - simpl. apply dict_get_set_eq.
  - apply (book_ok_perm st hs); [apply sort_on_perm|done].
  - apply Forall_forall. intros i Hi%elem_of_seq. lia.
Qed.

(** The page branch: the list is sorted on the first number. *)
Lemma reconcile_book_page st k hs first loc0 :
  dict_get (pub_hashes st) k = Some hs ->
  hs !! 0 = Some first ->
  dict_get (locations st) first = Some loc0 ->
  contains (lit "loc. ") loc0 = false ->
  contains (lit "p.") loc0 = true ->
  book_ok st hs = true ->
  reconcile_book st k
  = Ok (prints [k] (set_pub_hashes st k (sort_on (rank first_number st) hs))).
Proof.
  intros Hk Hfirst Hloc0 Hb1 Hb2 Hok.
  unfold reconcile_book, getitem, index. simpl.
  rewrite Hk. cbn [bind]. rewrite Hfirst. cbn [bind]. rewrite Hloc0. cbn [bind].
  rewrite Hb1, Hb2.
  unfold page_key. change (locations (print k st)) with (locations st).
  by rewrite (sorted_known first_number st hs Hok).
Qed.

(** No location and no page: the order is left alone. *)
Lemma reconcile_book_other st k hs first loc0 :
  dict_get (pub_hashes st) k = Some hs ->
  hs !! 0 = Some first ->
  dict_get (locations st) first = Some loc0 ->
  contains (lit "loc. ") loc0 = false ->
  contains (lit "p.") loc0 = false ->
  reconcile_book st k = Ok (print k st).
Proof.
  intros Hk Hfirst Hloc0 Hb1 Hb2.
  unfold reconcile_book, getitem, index. simpl.
  rewrite Hk. cbn [bind]. rewrite Hfirst. cbn [bind]. rewrite Hloc0. cbn [bind].
  by rewrite Hb1, Hb2.
Qed.


(** ** Location ranges *)

(** The matcher, one item at a time. *)
Lemma match_here_gopen r s bos g :
  match_here (GOpen :: r) s bos g = match_here r s bos (gopen g).
Proof. reflexivity. Qed.

Lemma match_here_gclose r s bos g :
  match_here (GClose :: r) s bos g = match_here r s bos (gclose g).
Proof. reflexivity. Qed.

Lemma match_here_one k r c s bos g :
  match_here (One k :: r) (c :: s) bos g
  = if cls_ok k c then match_here r s false (push c g) else None.
Proof. reflexivity. Qed.

Lemma match_here_star k r c s bos g :
  match_here (Star k :: r) (c :: s) bos g
  = if cls_ok k c then
      match match_here (Star k :: r) s false (push c g) with
      | Some res => Some res
      | None => match_here r (c :: s) bos g
      end
    else match_here r (c :: s) bos g.
Proof. reflexivity. Qed.

Lemma match_here_star_nil k r bos g :
  match_here (Star k :: r) [] bos g = match_here r [] bos g.
Proof. reflexivity. Qed.

(** A greedy run of digits followed by a continuation that accepts what
    comes after the digits. *)
Lemma match_star_digits r ds : forall s bos g res,
  digits ds -> no_digit_ahead s ->
  match_here r s (bos && bool_decide (ds = [])) (push_all ds g) = Some res ->
  match_here (Star Digit :: r) (ds ++ s) bos g = Some res.
Proof.
  induction ds as [|c ds IH]; intros s bos g res Hds Hs Hres.
  - simpl in Hres. rewrite andb_true_r in Hres. cbn [app].
    destruct s as [|c s]; [by rewrite match_here_star_nil|].
    simpl in Hs. rewrite match_here_star. cbn [cls_ok]. by rewrite Hs.
  - apply Forall_cons in Hds as [Hc Hds]. cbn [app].
    rewrite match_here_star. cbn [cls_ok]. rewrite Hc.
    rewrite (IH s false (push c g) res); [done..|].
    rewrite andb_false_r in Hres. by rewrite andb_false_l.
Qed.

Lemma push_all_opened ds cl w :
  push_all ds {| closed := cl; opened := Some w |}
  = {| closed := cl; opened := Some (rev ds ++ w) |}.
Proof.
  revert w. induction ds as [|c ds IH]; intros w; [done|].
  unfold push_all in *. cbn [foldl]. unfold push at 2. cbn [opened closed].
  rewrite IH. simpl. by rewrite <- app_assoc.
Qed.

(** The pattern of a range at the head of the subject: a run of digits, a
    dash, a run of digits. *)
Lemma match_numrange a0 a b0 b rest bos :
  digits (a0 :: a) -> digits (b0 :: b) -> no_digit_ahead rest ->
  match_here regex_numrange ((a0 :: a) ++ lit "-" ++ (b0 :: b) ++ rest) bos caps0
  = Some ([a0 :: a; b0 :: b], rest).
Proof.
  intros [Ha0 Ha]%Forall_cons [Hb0 Hb]%Forall_cons Hrest.
  change regex_numrange with
    [GOpen; One Digit; Star Digit; GClose; One (Chr 45); GOpen; One Digit;
     Star Digit; GClose].
  change (lit "-") with [45%N].
  cbn [app]. rewrite match_here_gopen, match_here_one. cbn [cls_ok].
  rewrite Ha0. apply match_star_digits; [done|done|].
  rewrite andb_false_l. cbn [push gopen opened closed caps0].
  rewrite push_all_opened.
  rewrite match_here_gclose, match_here_one. cbn [cls_ok].
  rewrite N.eqb_refl, match_here_gopen, match_here_one. cbn [cls_ok].
  rewrite Hb0. apply match_star_digits; [done|done|].
  rewrite andb_false_l. cbn [push gopen gclose opened closed].
  rewrite push_all_opened.
  rewrite match_here_gclose. cbn [match_here gclose opened closed].
  rewrite !rev_app_distr, !rev_involutive. reflexivity.
Qed.

(** The search skips what holds no digit. *)
Lemma search_numrange_skip pre s bos :
  Forall (fun c => isdecimal c = false) pre ->
  search_from regex_numrange (pre ++ s) bos
  = search_from regex_numrange s (bos && bool_decide (pre = [])).
Proof.
  intros Hpre. revert bos.
  induction Hpre as [|c pre Hc _ IH]; intros bos.
  - simpl. by rewrite andb_true_r.
  - change regex_numrange with
      [GOpen; One Digit; Star Digit; GClose; One (Chr 45); GOpen; One Digit;
       Star Digit; GClose] in *.
    cbn [app search_from]. rewrite match_here_gopen, match_here_one.
    cbn [cls_ok]. rewrite Hc.
    rewrite IH. by rewrite andb_false_l, andb_false_r.
Qed.

(** A location string that holds no digit before its first range: the
    range is read off with its two ends. *)
Lemma range_of_spec pre a b rest :
  Forall (fun c => isdecimal c = false) pre ->
  digits a -> a <> [] -> digits b -> b <> [] -> no_digit_ahead rest ->
  range_of (pre ++ a ++ lit "-" ++ b ++ rest)
    = Some (int_of_digits a, int_of_digits b) /\
  range_start (pre ++ a ++ lit "-" ++ b ++ rest) = int_of_digits a.
Proof.
  intros Hpre Ha Hane Hb Hbne Hrest.
  destruct a as [|a0 a]; [done|]. destruct b as [|b0 b]; [done|].
  unfold range_of, range_start, search.
  rewrite search_numrange_skip by done.
  assert (forall bos,
            search_from regex_numrange
              ((a0 :: a) ++ lit "-" ++ (b0 :: b) ++ rest) bos
            = Some [a0 :: a; b0 :: b]) as ->; [|done].
  intros bos.
  pose proof (match_numrange a0 a b0 b rest bos Ha Hb Hrest) as Hm.
  destruct ((a0 :: a) ++ lit "-" ++ (b0 :: b) ++ rest) eqn:Hs; [done|].
  cbn [search_from]. by rewrite Hm.
Qed.

(** The location string of a note highlighted at locations [a] to [b]. *)
Lemma range_start_loc a b :
  digits a -> a <> [] -> digits b -> b <> [] ->
  range_start (lit "loc. " ++ a ++ lit "-" ++ b) = int_of_digits a.
Proof.
  intros Ha Hane Hb Hbne.
  rewrite <- (app_nil_r b).
  apply (range_of_spec (lit "loc. ") a b []); try done.
  repeat constructor.
Qed.

(** A number read by [int] is not negative, so that -1 ranks below every
    start of a range. *)
Lemma int_of_digits_nonneg s : (0 <= int_of_digits s)%Z.
Proof.
  unfold int_of_digits.
  assert (forall acc, (0 <= acc)%Z ->
            (0 <= foldl (fun acc c => 10 * acc + default 0 (decimal_value c))
                        acc s)%Z) as H; [|by apply H].
  induction s as [|c s IH]; intros acc Hacc; simpl; [done|].
  apply IH. unfold decimal_value.
  destruct (List.find _ decimal_runs); simpl; lia.
Qed.

Lemma range_start_lower_bound loc : (-1 <= range_start loc)%Z.
Proof.
  unfold range_start. destruct (search regex_numrange loc); [|done].
  pose proof (int_of_digits_nonneg (group l 0)). lia.
Qed.
Lemma set_pub_hashes_same_but_book st k hs hs' out :
  dict_get (pub_hashes st) k = Some hs ->
  same_but_book k st (prints out (set_pub_hashes st k hs')).
Proof.
  intros Hk. unfold same_but_book; simpl. repeat split; try done.
  - by eapply dict_keys_set_mem.
  - intros k' Hne. by apply dict_get_set_ne.
Qed.

Lemma print_same_but_book st k : same_but_book k st (print k st).
Proof. unfold same_but_book; simpl. by repeat split. Qed.

(** C5. In the location branch the book's hash list comes out sorted in
    ascending order of the start of the first digits-digits range of each
    note's location string, a note without such a range ranking -1, below
    every start of a range; where no digit comes before the first range,
    the rank is the number before its dash; the three notes at loc. 10-12,
    loc. 50-60 and loc. 1-5 come out as loc. 1-5, loc. 10-12, loc. 50-60. *)
Theorem location_branch_order :
  (forall st k hs first loc0,
     dict_get (pub_hashes st) k = Some hs ->
     hs !! 0 = Some first ->
     dict_get (locations st) first = Some loc0 ->
     contains (lit "loc. ") loc0 = true ->
     book_ok st hs = true ->
     exists st' hs',
       reconcile_book st k = Ok st' /\
       dict_get (pub_hashes st') k = Some hs' /\
       hs' ≡ₚ hs /\
       StronglySorted
         (fun h1 h2 => (rank range_start st h1 <= rank range_start st h2)%Z) hs' /\
       forall h loc, h ∈ hs -> dict_get (locations st) h = Some loc ->
         match search regex_numrange loc with
         | Some m => rank range_start st h = int_of_digits (group m 0)
         | None => rank range_start st h = (-1)%Z
         end) /\
  (forall loc, (-1 <= range_start loc)%Z) /\
  (forall pre a b rest,
     Forall (fun c => isdecimal c = false) pre ->
     digits a -> a <> [] -> digits b -> b <> [] -> no_digit_ahead rest ->
     range_start (pre ++ a ++ lit "-" ++ b ++ rest) = int_of_digits a) /\
  (forall dateutil_str,
     exists st st',
       parse dateutil_str three_notes = Parsed st /\
       locations_of st walden
         = [lit "loc. 10-12"; lit "loc. 50-60"; lit "loc. 1-5"] /\
       reconcile_book st walden = Ok st' /\
       locations_of st' walden
         = [lit "loc. 1-5"; lit "loc. 10-12"; lit "loc. 50-60"]).
Proof.
  split; [|split; [|split]].
  - intros st k hs first loc0 Hk Hfirst Hloc0 Hbranch Hok.
    eexists _, _. split; [by eapply reconcile_book_loc|].
    split; [simpl; apply dict_get_set_eq|].
    split; [apply sort_on_perm|]. split; [apply sort_on_sorted|].
    intros h loc _ Hloc. unfold rank, range_start. rewrite Hloc. simpl.
    by destruct (search regex_numrange loc).
  - apply range_start_lower_bound.
  - intros pre a b rest Hpre Ha Hane Hb Hbne Hrest.
    by apply range_of_spec.
  - intros dp. eexists _, _. split; [vm_compute; reflexivity|].
    split; [vm_compute; reflexivity|]. split; vm_compute; reflexivity.
Qed.


Lemma overlap_report_nonempty loc1 loc2 str1 : overlap_report loc1 loc2 str1 <> [].
Proof. done. Qed.



Lemma location_branch_order_witness :
  exists st' hs',
    reconcile_book three_notes_state walden = Ok st' /\
    dict_get (pub_hashes st') walden = Some hs' /\
    hs' ≡ₚ default [] (dict_get (pub_hashes three_notes_state) walden) /\
    StronglySorted
      (fun h1 h2 => (rank range_start three_notes_state h1
                     <= rank range_start three_notes_state h2)%Z) hs' /\
    forall h loc,
      h ∈ default [] (dict_get (pub_hashes three_notes_state) walden) ->
      dict_get (locations three_notes_state) h = Some loc ->
      match search regex_numrange loc with
      | Some m => rank range_start three_notes_state h = int_of_digits (group m 0)
      | None => rank range_start three_notes_state h = (-1)%Z
      end.
Proof.
  apply (proj1 location_branch_order three_notes_state walden _
           (lit "07f938c3") (lit "loc. 10-12")); vm_compute; reflexivity.
Defined.



(** The two highlights of the example are reported, and nothing else
    happens to the dictionaries. *)
Example overlapping_notes_reported :
  exists st',
    reconcile_book overlapping_state pride = Ok st' /\
    stdout st'
      = stdout overlapping_state
        ++ [pride;
            lit "Overlapping strings detected at loc. loc. 100-150 / loc. 150-200";
            lit "It is a truth universally acknowledged, that a single man in possession of a good fortune";
            []].
Proof. eexists. split; vm_compute; reflexivity. Qed.

(** C10. Reconciling a book permutes its hash list and leaves every side
    table and every other book's list as they were; in both sorting
    branches the notes with one rank keep the order they had. *)
Theorem reconcile_is_reordering st k hs first loc0 :
  dict_get (pub_hashes st) k = Some hs ->
  hs !! 0 = Some first ->
  dict_get (locations st) first = Some loc0 ->
  book_ok st hs = true ->
  exists st' hs',
    reconcile_book st k = Ok st' /\
    dict_get (pub_hashes st') k = Some hs' /\
    hs' ≡ₚ hs /\
    same_but_book k st st' /\
    match branch_key loc0 with
    | Some key =>
        forall v,
          List.filter (fun h => (rank key st h =? v)%Z) hs'
          = List.filter (fun h => (rank key st h =? v)%Z) hs
    | None => hs' = hs
    end.
Proof.
  intros Hk Hfirst Hloc0 Hok. unfold branch_key.
  destruct (contains (lit "loc. ") loc0) eqn:Hb1;
    [|destruct (contains (lit "p.") loc0) eqn:Hb2].
  - eexists _, _. split; [by eapply reconcile_book_loc|].
    split; [simpl; apply dict_get_set_eq|]. split; [apply sort_on_perm|].
    split; [by eapply set_pub_hashes_same_but_book|].
    intros v. apply sort_on_stable.
  - eexists _, _. split; [by eapply reconcile_book_page|].
    split; [simpl; apply dict_get_set_eq|]. split; [apply sort_on_perm|].
    split; [by eapply set_pub_hashes_same_but_book|].
    intros v. apply sort_on_stable.
  - exists (print k st), hs. split; [by eapply reconcile_book_other|].
    split; [done|]. split; [done|]. split; [apply print_same_but_book|done].
Qed.

Lemma reconcile_is_reordering_witness :
  exists st' hs',
    reconcile_book three_notes_state walden = Ok st' /\
    dict_get (pub_hashes st') walden = Some hs' /\
    hs' ≡ₚ [lit "07f938c3"; lit "7708a9c0"; lit "0047e284"] /\
    same_but_book walden three_notes_state st' /\
    match branch_key (lit "loc. 10-12") with
    | Some key =>
        forall v,
          List.filter (fun h => (rank key three_notes_state h =? v)%Z) hs'
          = List.filter (fun h => (rank key three_notes_state h =? v)%Z)
              [lit "07f938c3"; lit "7708a9c0"; lit "0047e284"]
    | None => hs' = [lit "07f938c3"; lit "7708a9c0"; lit "0047e284"]
    end.
Proof.
  apply (reconcile_is_reordering three_notes_state walden
           [lit "07f938c3"; lit "7708a9c0"; lit "0047e284"]
           (lit "07f938c3") (lit "loc. 10-12")); vm_compute; reflexivity.
Defined.

(** ** Text normalisation *)

Lemma collapse_ind_2 (P : str -> Prop) :
  P [] -> (forall c, P [c]) ->
  (forall c d s, P s -> P (d :: s) -> P (c :: d :: s)) ->
  forall s, P s.
Proof.
  intros H0 H1 H2 s. assert (P s /\ forall c, P (c :: s)) as [? _]; [|done].
  induction s as [|d s [IH1 IH2]]; [by split|]. split; [apply IH2|].
  intros c. by apply H2.
Qed.

Lemma replace_from_two c d s :
  replace_from [32; 32]%N [32%N] 0 (c :: d :: s)
  = if ((c =? 32) && (d =? 32))%N
    then 32%N :: replace_from [32; 32]%N [32%N] 0 s
    else c :: replace_from [32; 32]%N [32%N] 0 (d :: s).
Proof.
  cbn [replace_from startswith length Nat.sub].
  rewrite (N.eqb_sym 32 c), (N.eqb_sym 32 d), andb_true_r.
  by destruct ((c =? 32) && (d =? 32))%N.
Qed.

Lemma collapse_two c d s :
  collapse (c :: d :: s)
  = if ((c =? 32) && (d =? 32))%N then 32%N :: collapse s
    else c :: collapse (d :: s).
Proof. reflexivity. Qed.

Lemma replace_collapse s : replace (lit "  ") (lit " ") s = collapse s.
Proof.
  unfold replace. change (lit "  ") with [32; 32]%N. change (lit " ") with [32%N].
  induction s as [|c|c d s IH1 IH2] using collapse_ind_2.
  - done.
  - cbn. by rewrite andb_false_r.
  - rewrite replace_from_two, collapse_two. by rewrite IH1, IH2.
Qed.

(** A character that is not a space cuts the pass in two. *)
Lemma collapse_app x c y :
  c <> 32%N -> collapse (x ++ c :: y) = collapse x ++ c :: collapse y.
Proof.
  intros Hc. induction x as [|a|a b x IH1 IH2] using collapse_ind_2.
  - destruct y as [|d y]; [done|]. simpl app. rewrite collapse_two.
    by rewrite (proj2 (N.eqb_neq c 32)).
  - change ([a] ++ c :: y) with (a :: c :: y). rewrite collapse_two.
    rewrite (proj2 (N.eqb_neq c 32)) by done. rewrite andb_false_r.
    change (c :: y) with ([] ++ c :: y).
    destruct y as [|d y]; [done|]. simpl app. rewrite collapse_two.
    by rewrite (proj2 (N.eqb_neq c 32)).
  - change ((a :: b :: x) ++ c :: y) with (a :: b :: (x ++ c :: y)).
    rewrite !collapse_two. change (b :: (x ++ c :: y)) with ((b :: x) ++ c :: y).
    rewrite IH1, IH2. by destruct ((a =? 32) && (b =? 32))%N.
Qed.

Lemma isspace_32 : isspace 32 = true.
Proof. reflexivity. Qed.

Lemma collapse_spaces s :
  Forall (fun c => isspace c = true) s ->
  Forall (fun c => isspace c = true) (collapse s).
Proof.
  induction s as [|c|c d s IH1 IH2] using collapse_ind_2; intros H.
  - done.
  - done.
  - rewrite collapse_two. apply Forall_cons in H as [Hc H].
    destruct ((c =? 32) && (d =? 32))%N.
    + constructor; [done|]. apply IH1. by apply Forall_cons in H as [_ H].
    + constructor; [done|]. by apply IH2.
Qed.

Lemma lstrip_spaces ws s :
  Forall (fun c => isspace c = true) ws -> lstrip (ws ++ s) = lstrip s.
Proof. induction 1 as [|c ws Hc _ IH]; simpl; [done|]. by rewrite Hc. Qed.

Lemma lstrip_nonspace c s : isspace c = false -> lstrip (c :: s) = c :: s.
Proof. simpl. by intros ->. Qed.

(** Leading whitespace, then the rest. *)
Lemma lstrip_split s :
  exists ws, Forall (fun c => isspace c = true) ws /\ s = ws ++ lstrip s /\
             (lstrip s = [] \/ exists c r, lstrip s = c :: r /\ isspace c = false).
Proof.
  induction s as [|c s (ws & Hws & Hs & Hr)].
  - exists []. by repeat split; [|left].
  - simpl. destruct (isspace c) eqn:Hc.
    + exists (c :: ws). split; [by constructor|]. split; [simpl; congruence|done].
    + exists []. split; [done|]. split; [done|]. right. eauto.
Qed.

Lemma isspace_not_32 c : isspace c = false -> c <> 32%N.
Proof. by intros H ->. Qed.

Lemma collapse_lstrip s : collapse (lstrip s) = lstrip (collapse s).
Proof.
  destruct (lstrip_split s) as (ws & Hws & Hs & Hr).
  set (t := lstrip s) in *. clearbody t. subst s.
  destruct Hr as [-> | (c & r & -> & Hc)].
  - rewrite app_nil_r. simpl.
    apply collapse_spaces in Hws.
    rewrite <- (app_nil_r (collapse ws)). by rewrite (lstrip_spaces _ [] Hws).
  - rewrite (collapse_app ws c r (isspace_not_32 c Hc)).
    rewrite (lstrip_spaces _ _ (collapse_spaces ws Hws)).
    rewrite (lstrip_nonspace _ _ Hc).
    apply (collapse_app [] c r (isspace_not_32 c Hc)).
Qed.

(** Trailing whitespace, after the rest. *)
Lemma rstrip_split s :
  exists ws, Forall (fun c => isspace c = true) ws /\ s = rstrip s ++ ws /\
             (rstrip s = [] \/ exists r c, rstrip s = r ++ [c] /\ isspace c = false).
Proof.
  unfold rstrip. destruct (lstrip_split (rev s)) as (ws & Hws & Hs & Hr).
  exists (rev ws). split; [|split].
  - apply Forall_forall. intros c Hc. rewrite Forall_forall in Hws. apply Hws.
    apply list_elem_of_In. apply in_rev. by apply list_elem_of_In.
  - rewrite <- rev_app_distr, <- Hs. by rewrite rev_involutive.
  - destruct Hr as [-> | (c & r & -> & Hc)]; [by left|]. right.
    exists (rev r), c. by simpl.
Qed.

Lemma rstrip_app r c ws :
  isspace c = false -> Forall (fun c => isspace c = true) ws ->
  rstrip ((r ++ [c]) ++ ws) = r ++ [c].
Proof.
  intros Hc Hws. unfold rstrip. rewrite !rev_app_distr. simpl.
  rewrite lstrip_spaces.
  - simpl. rewrite Hc. simpl. by rewrite rev_involutive.
  - apply Forall_forall. intros x Hx. rewrite Forall_forall in Hws. apply Hws.
    apply list_elem_of_In. apply in_rev. by apply list_elem_of_In.
Qed.

Lemma rstrip_spaces ws : Forall (fun c => isspace c = true) ws -> rstrip ws = [].
Proof.
  intros Hws. unfold rstrip. rewrite <- (app_nil_r (rev ws)), lstrip_spaces; [done|].
  apply Forall_forall. intros x Hx. rewrite Forall_forall in Hws. apply Hws.
  apply list_elem_of_In. apply in_rev. by apply list_elem_of_In.
Qed.

Lemma collapse_rstrip s : collapse (rstrip s) = rstrip (collapse s).
Proof.
  destruct (rstrip_split s) as (ws & Hws & Hs & Hr).
  set (t := rstrip s) in *. clearbody t. subst s.
  destruct Hr as [-> | (r & c & -> & Hc)].
  - simpl. by rewrite (rstrip_spaces _ (collapse_spaces ws Hws)).
  - rewrite <- app_assoc. simpl.
    rewrite !(collapse_app r c _ (isspace_not_32 c Hc)).
    change (collapse []) with (@nil N).
    rewrite (cons_middle c (collapse r) (collapse ws)), app_assoc.
    rewrite rstrip_app; [done..|]. by apply collapse_spaces.
Qed.

(** Trimming first and collapsing second, as the script does, gives what
    collapsing first and trimming second gives. *)
Lemma postprocess_order text :
  postprocess text = strip (replace (lit "  ") (lit " ") text).
Proof.
  unfold postprocess, strip. rewrite !replace_collapse.
  by rewrite collapse_rstrip, collapse_lstrip.
Qed.

(** ** Content hash *)

(** The digests of the three test messages of FIPS 180: the empty message,
    one block, two blocks. *)
Example sha256_empty :
  Sha256.hexdigest []
  = lit "e3b0c44298fc1c149afbf4c8996fb92427ae41e4649b934ca495991b7852b855".
Proof. vm_compute. reflexivity. Qed.

Example sha256_abc :
  option_map Sha256.hexdigest (Sha256.encode_utf8 (lit "abc"))
  = Some (lit "ba7816bf8f01cfea414140de5dae2223b00361a396177a9cb410ff61f20015ad").
Proof. vm_compute. reflexivity. Qed.

Example sha256_two_blocks :
  option_map Sha256.hexdigest
    (Sha256.encode_utf8
       (lit "abcdbcdecdefdefgefghfghighijhijkijkljklmklmnlmnomnopnopq"))
  = Some (lit "248d6a61d20638b8e5c026930c3e6039a33ce45964ff2167f6ecedd419db06c1").
Proof. vm_compute. reflexivity. Qed.

(** The UTF-8 bytes of a character of each length. *)
Example utf8_lengths :
  Sha256.encode_utf8 [65; 233; 8364; 128512]%N
  = Some [65; 195; 169; 226; 130; 172; 240; 159; 152; 128]%Z.
Proof. reflexivity. Qed.

Lemma hexdigit_lower_hex n : lower_hex (Sha256.hexdigit n) = true.
Proof.
  unfold Sha256.hexdigit.
  assert (0 <= Z.land n 15 < 16)%Z as Hr.
  { change 15%Z with (Z.ones 4). rewrite Z.land_ones by lia.
    apply Z.mod_pos_bound. lia. }
  assert (Z.to_nat (Z.land n 15) < 16) as Hk by lia.
  generalize dependent (Z.to_nat (Z.land n 15)). intros k Hk.
  do 16 (destruct k as [|k]; [reflexivity|]). lia.
Qed.

Lemma hex8_lower_hex w : Forall (fun c => lower_hex c = true) (Sha256.hex8 w).
Proof. unfold Sha256.hex8. repeat constructor; apply hexdigit_lower_hex. Qed.

Lemma take_8_hexdigest bytes :
  take 8 (Sha256.hexdigest bytes) = Sha256.hex8 (Sha256.ra (Sha256.sha256 bytes)).
Proof. reflexivity. Qed.

Lemma utf8_char_scalar c :
  scalar c = true -> exists bs, Sha256.utf8_char c = Some bs.
Proof.
  unfold scalar, Sha256.utf8_char. intros H.
  destruct (Z.ltb_spec (Z.of_N c) 128); [eauto|].
  destruct (Z.ltb_spec (Z.of_N c) 2048); [eauto|].
  destruct (Z.ltb_spec (Z.of_N c) 65536).
  - destruct (Z.leb_spec 55296 (Z.of_N c)), (Z.leb_spec (Z.of_N c) 57343);
      simpl; eauto.
    apply orb_true_iff in H as [H|H].
    + apply N.ltb_lt in H. lia.
    + apply andb_true_iff in H as [H _]. apply N.ltb_lt in H. lia.
  - destruct (Z.ltb_spec (Z.of_N c) 1114112); [eauto|].
    apply orb_true_iff in H as [H|H].
    + apply N.ltb_lt in H. lia.
    + apply andb_true_iff in H as [_ H]. apply N.ltb_lt in H. lia.
Qed.

Lemma encode_utf8_scalar s :
  scalar_text s -> exists bytes, Sha256.encode_utf8 s = Some bytes.
Proof.
  induction 1 as [|c s Hc _ [bytes IH]]; simpl; [eauto|].
  destruct (utf8_char_scalar c Hc) as [bs ->]. rewrite IH. eauto.
Qed.

(** The hash of a text is the first eight hexadecimal digits of the
    SHA-256 digest of its UTF-8 bytes. *)
Lemma note_hash_of_spec text h :
  note_hash_of text = Ok h ->
  exists bytes,
    Sha256.encode_utf8 text = Some bytes /\
    h = take 8 (Sha256.hexdigest bytes) /\
    length h = 8 /\ Forall (fun c => lower_hex c = true) h.
Proof.
  unfold note_hash_of. destruct (Sha256.encode_utf8 text) as [bytes|]; [|done].
  intros [= <-]. exists bytes. split; [done|]. split; [done|].
  split; [done|]. apply (hex8_lower_hex (Sha256.ra (Sha256.sha256 bytes))).
Qed.

Lemma note_hash_of_total text :
  scalar_text text -> exists h, note_hash_of text = Ok h.
Proof.
  intros [bytes H]%encode_utf8_scalar. unfold note_hash_of. rewrite H. eauto.
Qed.


Lemma getitem_ok {V} (d : dict V) k v : getitem d k = Ok v -> dict_get d k = Some v.
Proof. unfold getitem. destruct (dict_get d k); by intros [= ->]. Qed.

(** What storing a note does to the dictionaries. *)
Lemma store_note_spec st key title author text h locstr type datestr st' :
  store_note st key title author text h locstr type datestr = Ok st' ->
  exists old,
    (if dict_mem (pub_notes st) key
     then dict_get (pub_hashes st) key = Some old else old = []) /\
    dict_get (pub_hashes st') key = Some (old ++ [h]) /\
    dict_get (pub_title st') key = Some (strip title) /\
    dict_get (pub_author st') key = Some (strip author) /\
    dict_get (notes st') h = Some text /\
    dict_get (locations st') h = Some locstr /\
    dict_get (types st') h = Some type /\
    dict_get (dates st') h = Some datestr /\
    stdout st' = stdout st.
Proof.
  unfold store_note, bind.
  destruct (dict_mem (pub_notes st) key) eqn:Hmem; cbn [negb].
  - destruct (getitem (pub_notes st) key) as [texts|]; [|done].
    destruct (getitem (pub_hashes st) key) as [old|] eqn:Hold; [|done].
    intros [= Hst]. subst st'. simpl. exists old.
    apply getitem_ok in Hold. by rewrite !dict_get_set_eq.
  - unfold getitem. rewrite !dict_get_set_eq.
    intros [= Hst]. subst st'. simpl. exists [].
    by rewrite !dict_get_set_eq.
Qed.

(** Anatomy of a turn of the loop that ends well. *)
Lemma parse_record_next dp line ls st line' ls' st' :
  parse_record dp line ls st = Next line' ls' st' ->
  exists m ms raw rest h,
    findall regex_info (strip (hd [] ls)) = m :: ms /\
    read_note_text (drop 2 ls) [] = Some (raw, rest) /\
    note_hash_of (postprocess raw) = Ok h /\
    store_note (print (strip (hd [] ls)) st) (strip line)
      (title_author (strip line)).1 (title_author (strip line)).2
      (postprocess raw) h
      (locstr_of (first_group regex_loc (group m 1))
                 (first_group regex_page (group m 1)))
      (group m 0) (datestr_of dp (group m 2)) = Ok st' /\
    line' = strip (hd [] rest) /\ ls' = tl rest.
Proof.
  unfold parse_record.
  destruct (title_author (strip line)) as [title author].
  assert (readline ls = (hd [] ls, tl ls)) as -> by (by destruct ls).
  destruct (findall regex_info _) as [|m ms] eqn:Hm; [done|].
  assert (readline (tl ls) = (hd [] (tl ls), drop 2 ls)) as ->
    by (by destruct ls as [|? [|? ?]]).
  destruct (read_note_text _ _) as [[raw rest]|] eqn:Hraw; [|done].
  unfold bind.
  destruct (note_hash_of _) as [h|] eqn:Hh; [|done].
  destruct (store_note _ _ _ _ _ _ _ _ _) as [st1|] eqn:Hst; [|done].
  assert (readline rest = (hd [] rest, tl rest)) as -> by (by destruct rest).
  intros [= <- <- <-]. exists m, ms, raw, rest, h. done.
Qed.


(** C4. The hash stored with a note is the first eight characters of the
    lowercase hexadecimal SHA-256 digest of the UTF-8 bytes of its
    normalised text: eight lowercase hexadecimal digits that depend on the
    text alone, so that any other record with the same normalised text,
    whatever its book, location, type and date, gets the same hash. *)
Theorem content_hash dateutil_str line ls st line' ls' st' :
  parse_record dateutil_str line ls st = Next line' ls' st' ->
  exists raw rest text bytes h,
    read_note_text (drop 2 ls) [] = Some (raw, rest) /\
    text = postprocess raw /\
    Sha256.encode_utf8 text = Some bytes /\
    h = take 8 (Sha256.hexdigest bytes) /\
    last (hashes_of st' (strip line)) = Some h /\
    dict_get (notes st') h = Some text /\
    length h = 8 /\
    Forall (fun c => lower_hex c = true) h /\
    forall dateutil_str2 line2 ls2 st2 line2' ls2' st2' raw2 rest2,
      parse_record dateutil_str2 line2 ls2 st2 = Next line2' ls2' st2' ->
      read_note_text (drop 2 ls2) [] = Some (raw2, rest2) ->
      postprocess raw2 = text ->
      last (hashes_of st2' (strip line2)) = Some h.
Proof.
  intros (m & ms & raw & rest & h & _ & Hraw & Hh & Hst & _)%parse_record_next.
  destruct (note_hash_of_spec _ _ Hh) as (bytes & Hbytes & -> & Hlen & Hhex).
  destruct (store_note_spec _ _ _ _ _ _ _ _ _ _ Hst)
    as (old & _ & Hhs & _ & _ & Hnote & _).
  exists raw, rest, (postprocess raw), bytes, (take 8 (Sha256.hexdigest bytes)).
  split; [done|]. split; [done|]. split; [done|]. split; [done|].
  split; [unfold hashes_of; rewrite Hhs; simpl; apply last_snoc|].
  split; [done|]. split; [done|]. split; [done|].
  intros dp2 line2 ls2 st2 line2' ls2' st2' raw2 rest2
    (m2 & ms2 & raw2' & rest2' & h2 & _ & Hraw2 & Hh2 & Hst2 & _)%parse_record_next
    Hraw2' Heq.
  rewrite Hraw2 in Hraw2'. injection Hraw2' as -> ->.
  rewrite Heq in Hh2. unfold note_hash_of in Hh2. rewrite Hbytes in Hh2.
  injection Hh2 as <-.
  destruct (store_note_spec _ _ _ _ _ _ _ _ _ _ Hst2) as (old2 & _ & Hhs2 & _).
  unfold hashes_of. rewrite Hhs2. simpl. apply last_snoc.
Qed.

Lemma content_hash_witness :
  exists raw rest text bytes h,
    read_note_text (drop 2 (tail (readlines (drop 1 scenario)))) []
      = Some (raw, rest) /\
    text = postprocess raw /\
    Sha256.encode_utf8 text = Some bytes /\
    h = take 8 (Sha256.hexdigest bytes) /\
    last (hashes_of scenario_state (strip scenario_key)) = Some h /\
    dict_get (notes scenario_state) h = Some text /\
    length h = 8 /\
    Forall (fun c => lower_hex c = true) h /\
    forall dateutil_str2 line2 ls2 st2 line2' ls2' st2' raw2 rest2,
      parse_record dateutil_str2 line2 ls2 st2 = Next line2' ls2' st2' ->
      read_note_text (drop 2 ls2) [] = Some (raw2, rest2) ->
      postprocess raw2 = text ->
      last (hashes_of st2' (strip line2)) = Some h.
Proof.
  apply (content_hash dateutil_examples scenario_key
           (tail (readlines (drop 1 scenario))) state0 [] []).
  vm_compute. reflexivity.
Defined.

(** ** The parse scenario *)

(** C3, as stated, fails: the run of three spaces keeps two of them, so
    the text is not the fully collapsed one. *)
Lemma scenario_text_not_collapsed :
  ~ scenario_outcome (parse dateutil_examples scenario)
      (lit "Some highlighted text.").
Proof.
  intros (st & h & Hp & _ & _ & Hh & _ & _ & Hn & _).
  vm_compute in Hp. injection Hp as <-.
  vm_compute in Hh. injection Hh as <-.
  vm_compute in Hn. discriminate Hn.
Qed.

(** C3, amended. The record of the scenario parses to the title, author,
    type and location string expected of it and to the text with two spaces
    left before its last word, under the hash 1283d823; normalisation is
    one pass from the left that turns each two spaces into one, together
    with trimming, in either order, and a run of three spaces keeps two. *)
Theorem scenario_parse :
  (forall dateutil_str,
     scenario_outcome (parse dateutil_str scenario)
       (lit "Some highlighted  text.")) /\
  (forall dateutil_str,
     hashes_of (parsed_state (parse dateutil_str scenario)) scenario_key
     = [lit "1283d823"]) /\
  (forall text,
     postprocess text = strip (replace (lit "  ") (lit " ") text)) /\
  replace (lit "  ") (lit " ") (lit "a   b") = lit "a  b".
Proof.
  split; [|split; [|split]].
  - intros dp. exists (parsed_state (parse dp scenario)), (lit "1283d823").
    repeat split; vm_compute; reflexivity.
  - intros dp. vm_compute. reflexivity.
  - apply postprocess_order.
  - reflexivity.
Qed.

(** ** The parse loop *)

Lemma readline_hd_tl (ls : list str) : readline ls = (hd [] ls, tail ls).
Proof. by destruct ls. Qed.

Lemma parse_unfold dp clippings :
  parse dp clippings
  = parse_loop dp (length (readlines (drop 1 clippings)))
      (first_header clippings).1 (first_header clippings).2 state0.
Proof. unfold parse, first_header. by rewrite readline_hd_tl. Qed.

Lemma read_note_text_shorter ls acc text rest :
  read_note_text ls acc = Some (text, rest) -> length rest < length ls.
Proof.
  revert acc. induction ls as [|l ls IH]; intros acc; simpl; [done|].
  destruct (str_eqb _ _).
  - intros [= _ <-]. lia.
  - intros H%IH. lia.
Qed.

Lemma parse_record_shorter dp line ls st line' ls' st' :
  parse_record dp line ls st = Next line' ls' st' -> length ls' < length ls.
Proof.
  intros (m & ms & raw & rest & h & Hm & Hraw & _ & _ & _ & ->)%parse_record_next.
  apply read_note_text_shorter in Hraw.
  destruct ls as [|l1 ls]; [by vm_compute in Hm|].
  rewrite length_drop in Hraw. destruct rest; simpl in *; lia.
Qed.


(** Turns that end well use up lines and leave the loop where they say. *)
Lemma turns_loop dp n : forall line0 ls0 st0 line ls st fuel,
  turns dp n line0 ls0 st0 = Some (line, ls, st) ->
  length ls0 < fuel ->
  length ls < fuel - n /\
  parse_loop dp fuel line0 ls0 st0 = parse_loop dp (fuel - n) line ls st.
Proof.
  induction n as [|n IH]; intros line0 ls0 st0 line ls st fuel Hturns Hfuel.
  - injection Hturns as <- <- <-. rewrite Nat.sub_0_r. done.
  - simpl in Hturns. destruct line0 as [|c line0]; [done|].
    destruct (parse_record dp (c :: line0) ls0 st0) as [l1 ls1 st1| |] eqn:Hrec;
      [|done..].
    pose proof (parse_record_shorter _ _ _ _ _ _ _ Hrec) as Hshort.
    destruct fuel as [|fuel]; [lia|].
    destruct (IH _ _ _ _ _ _ fuel Hturns ltac:(lia)) as [Hlen Hloop].
    split; [simpl; lia|]. simpl. by rewrite Hrec.
Qed.

(** The fuel given to the loop is never used up. *)
Lemma parse_loop_fuel dp fuel : forall line ls st,
  length ls < fuel -> parse_loop dp fuel line ls st <> OutOfFuel.
Proof.
  induction fuel as [|fuel IH]; intros line ls st Hfuel; [lia|].
  simpl. destruct line as [|c line]; [done|].
  destruct (parse_record dp (c :: line) ls st) as [l1 ls1 st1| |] eqn:Hrec;
    [|done..].
  apply IH. apply parse_record_shorter in Hrec. lia.
Qed.

Lemma first_header_fuel clippings :
  (first_header clippings).1 = [] \/
  length (first_header clippings).2 < length (readlines (drop 1 clippings)).
Proof.
  unfold first_header. destruct (readlines _) as [|l ls]; [by left|].
  right. simpl. lia.
Qed.

Lemma parse_total dp clippings : parse dp clippings <> OutOfFuel.
Proof.
  rewrite parse_unfold.
  destruct (first_header_fuel clippings) as [-> | Hlen].
  - by destruct (length _).
  - by apply parse_loop_fuel.
Qed.








(** ** Writer *)

Lemma write_note_known st existing short author title h :
  note_known st h = true ->
  write_note st existing short author title h
  = Ok (if written st existing h then block_of st short author title h else []).
Proof.
  intros (text & type & loc & date & Hn & Ht & Hl & Hd)%note_known_spec.
  unfold write_note, getitem, bind, written, block_of, is_new.
  rewrite Hn, Ht, Hd, Hl. simpl.
  destruct (dict_mem existing h); [done|]. simpl.
  destruct text; [done|]. by rewrite str_eqb_ne.
Qed.

Lemma concat_written {A} (p : A -> bool) (f : A -> list str) (l : list A) :
  concat (map (fun x => if p x then f x else []) l)
  = concat (map f (List.filter p l)).
Proof.
  induction l as [|x l IH]; simpl; [done|].
  destruct (p x); simpl; by rewrite IH.
Qed.

Lemma count_new_zero existing hs :
  (count_new existing hs =? 0) = forallb (dict_mem existing) hs.
Proof.
  unfold count_new, is_new. induction hs as [|h hs IH]; simpl; [done|].
  destruct (dict_mem existing h); simpl; [done|]. done.
Qed.

(** What the writer does with a selected book. *)
Lemma write_book_spec nfkd today st existing selected outdir key
    title texts author hs :
  dict_get (pub_title st) key = Some title ->
  existsb (str_eqb title) selected = true ->
  dict_get (pub_notes st) key = Some texts ->
  dict_get (pub_author st) key = Some author ->
  dict_get (pub_hashes st) key = Some hs ->
  book_ok st hs = true ->
  let fname := (routing (length texts) author title).1 in
  let short := (routing (length texts) author title).2 in
  let outfile := getvalidfilename nfkd fname in
  write_book nfkd today st existing selected outdir key
  = Ok (if forallb (dict_mem existing) hs then None
        else Some (outfile,
                   header today short (dict_mem outdir outfile) author title
                   ++ concat (map (block_of st short author title)
                                  (List.filter (written st existing) hs)))).
Proof.
  intros Ht Hsel Hn Ha Hh Hok fname short outfile.
  unfold write_book, getitem, bind. rewrite Ht, Hsel. cbn [negb].
  rewrite Hn, Ha. fold fname short.
  destruct (routing (length texts) author title) as [fname' short'] eqn:Hr.
  simpl in fname, short. subst fname short. rewrite Hh.
  rewrite count_new_zero.
  destruct (forallb (dict_mem existing) hs); [done|].
  rewrite (mapM_ok _ (fun h => if written st existing h
                               then block_of st short' author title h else [])).
  - by rewrite concat_written.
  - apply Forall_forall. intros h Hin. apply write_note_known.
    by eapply book_ok_elem.
Qed.


(** Reconciling a book whose notes are all in the side tables orders
    every one of them. *)
Lemma reconcile_book_perm st k hs :
  dict_get (pub_hashes st) k = Some hs -> hs <> [] -> book_ok st hs = true ->
  exists st' hs',
    reconcile_book st k = Ok st' /\
    dict_get (pub_hashes st') k = Some hs' /\ hs' ≡ₚ hs.
Proof.
  intros Hk Hne Hok. destruct hs as [|first hs0] eqn:Hhs; [done|].
  rewrite <- Hhs in *.
  assert (hs !! 0 = Some first) as Hfirst by (by rewrite Hhs).
  destruct (note_known_spec st first) as (? & ? & loc0 & ? & _ & _ & Hloc0 & _).
  { eapply book_ok_elem; [done|]. rewrite Hhs. by left. }
  destruct (contains (lit "loc. ") loc0) eqn:Hb1;
    [|destruct (contains (lit "p.") loc0) eqn:Hb2].
  - eexists _, _. split; [by eapply reconcile_book_loc|].
    split; [simpl; apply dict_get_set_eq|apply sort_on_perm].
  - eexists _, _. split; [by eapply reconcile_book_page|].
    split; [simpl; apply dict_get_set_eq|apply sort_on_perm].
  - exists (print k st), hs. split; [by eapply reconcile_book_other|]. done.
Qed.

(** C7. A selected book whose hashes are all in the index writes nothing;
    otherwise the notes written are, in order, those whose hash is not in
    the index and whose text is not empty, each as its comment line and
    its text, after the header of the file.  A note of the book is written
    exactly when its hash is not in the index and its text is not empty:
    then its two writes are the line of its location and date, with the
    author and the title in the shared file, and its text after a [>] and
    before a rule; a note in the index or with an empty text gets no write.
    Such notes are parsed and ordered all the same: the parser files every
    record it reads in its book, and the reconciler orders the whole list
    of the book, neither looking at the index or at the text. *)
Theorem dedup_gate nfkd today st existing_hashes selected_titles outdir key
    title texts author hs :
  dict_get (pub_title st) key = Some title ->
  existsb (str_eqb title) selected_titles = true ->
  dict_get (pub_notes st) key = Some texts ->
  dict_get (pub_author st) key = Some author ->
  dict_get (pub_hashes st) key = Some hs ->
  book_ok st hs = true ->
  (forallb (dict_mem existing_hashes) hs = true ->
   write_book nfkd today st existing_hashes selected_titles outdir key = Ok None) /\
  (forallb (dict_mem existing_hashes) hs = false ->
   exists outfile short,
     write_book nfkd today st existing_hashes selected_titles outdir key
     = Ok (Some (outfile,
                 header today short (dict_mem outdir outfile) author title
                 ++ concat (map (block_of st short author title)
                                (List.filter (written st existing_hashes) hs))))) /\
  (forall h,
     written st existing_hashes h = true <->
     dict_get existing_hashes h = None /\
     default [] (dict_get (notes st) h) <> []) /\
  (forall short h,
     h ∈ hs ->
     write_note st existing_hashes short author title h
     = Ok (if written st existing_hashes h
           then block_of st short author title h else [])) /\
  (forall short h,
     block_of st short author title h
     = [(if short : bool
         then (default [] (dict_get (locations st) h) ++ lit " ; "
               ++ default [] (dict_get (dates st) h))
              ++ lit " ; " ++ author ++ lit " ; " ++ title
         else default [] (dict_get (locations st) h) ++ lit " ; "
              ++ default [] (dict_get (dates st) h)) ++ nl;
        lit ">" ++ default [] (dict_get (notes st) h) ++ nl ++ lit "---" ++ nl
        ++ nl]) /\
  (forall dateutil_str line ls st1 line' ls' st2,
     parse_record dateutil_str line ls st1 = Next line' ls' st2 ->
     exists h,
       last (hashes_of st2 (strip line)) = Some h /\
       is_Some (dict_get (notes st2) h)) /\
  (hs <> [] ->
   exists st' hs',
     reconcile_book st key = Ok st' /\
     dict_get (pub_hashes st') key = Some hs' /\ hs' ≡ₚ hs).
Proof.
  intros Ht Hsel Hn Ha Hh Hok.
  pose proof (write_book_spec nfkd today st existing_hashes selected_titles
                outdir key title texts author hs Ht Hsel Hn Ha Hh Hok) as Hw.
  cbv zeta in Hw. split; [|split; [|split; [|split; [|split; [|split]]]]].
  - intros Hall. by rewrite Hall in Hw.
  - intros Hsome. rewrite Hsome in Hw. eauto.
  - intros h. unfold written, is_new, dict_mem.
    rewrite andb_true_iff, !negb_true_iff. split.
    + intros [Hnew Hne]. split; [by destruct (dict_get existing_hashes h)|].
      intros Hnil. by rewrite Hnil, str_eqb_refl in Hne.
    + intros [-> Hne]. split; [done|]. by apply str_eqb_ne.
  - intros short h Hin. apply write_note_known. by eapply book_ok_elem.
  - intros short h. unfold block_of, note_block, comment_of. by destruct short.
  - intros dp line ls st1 line' ls' st2 Hrec.
    apply parse_record_next in Hrec
      as (m & ms & raw & rest & h & _ & _ & _ & Hst & _).
    apply store_note_spec in Hst as (old & _ & Hhs & _ & _ & Hnote & _).
    exists h. unfold hashes_of. rewrite Hhs, Hnote. simpl.
    split; [apply last_snoc|done].
  - intros Hne. by apply reconcile_book_perm.
Qed.

Lemma dedup_gate_witness :
  (forallb (dict_mem (scan earlier_outdir))
     [lit "0047e284"; lit "07f938c3"; lit "7708a9c0"] = true ->
   write_book nfkd_ascii today_example walden_state (scan earlier_outdir)
     [lit "Walden"] earlier_outdir walden = Ok None) /\
  (forallb (dict_mem (scan earlier_outdir))
     [lit "0047e284"; lit "07f938c3"; lit "7708a9c0"] = false ->
   exists outfile short,
     write_book nfkd_ascii today_example walden_state (scan earlier_outdir)
       [lit "Walden"] earlier_outdir walden
     = Ok (Some (outfile,
                 header today_example short (dict_mem earlier_outdir outfile)
                   (lit "Henry David Thoreau") (lit "Walden")
                 ++ concat (map (block_of walden_state short
                                   (lit "Henry David Thoreau") (lit "Walden"))
                                (List.filter
                                   (written walden_state (scan earlier_outdir))
                                   [lit "0047e284"; lit "07f938c3";
                                    lit "7708a9c0"]))))) /\
  (forall h,
     written walden_state (scan earlier_outdir) h = true <->
     dict_get (scan earlier_outdir) h = None /\
     default [] (dict_get (notes walden_state) h) <> []) /\
  (forall short h,
     h ∈ [lit "0047e284"; lit "07f938c3"; lit "7708a9c0"] ->
     write_note walden_state (scan earlier_outdir) short
       (lit "Henry David Thoreau") (lit "Walden") h
     = Ok (if written walden_state (scan earlier_outdir) h
           then block_of walden_state short (lit "Henry David Thoreau")
                  (lit "Walden") h
           else [])) /\
  (forall short h,
     block_of walden_state short (lit "Henry David Thoreau") (lit "Walden") h
     = [(if short : bool
         then (default [] (dict_get (locations walden_state) h) ++ lit " ; "
               ++ default [] (dict_get (dates walden_state) h))
              ++ lit " ; " ++ lit "Henry David Thoreau" ++ lit " ; "
              ++ lit "Walden"
         else default [] (dict_get (locations walden_state) h) ++ lit " ; "
              ++ default [] (dict_get (dates walden_state) h)) ++ nl;
        lit ">" ++ default [] (dict_get (notes walden_state) h) ++ nl
        ++ lit "---" ++ nl ++ nl]) /\
  (forall dateutil_str line ls st1 line' ls' st2,
     parse_record dateutil_str line ls st1 = Next line' ls' st2 ->
     exists h,
       last (hashes_of st2 (strip line)) = Some h /\
       is_Some (dict_get (notes st2) h)) /\
  ([lit "0047e284"; lit "07f938c3"; lit "7708a9c0"] <> [] ->
   exists st' hs',
     reconcile_book walden_state walden = Ok st' /\
     dict_get (pub_hashes st') walden = Some hs' /\
     hs' ≡ₚ [lit "0047e284"; lit "07f938c3"; lit "7708a9c0"]).
Proof.
  apply (dedup_gate nfkd_ascii today_example walden_state (scan earlier_outdir)
           [lit "Walden"] earlier_outdir walden (lit "Walden")
           [lit "I went to the woods because I wished to live deliberately.";
            lit "Our life is frittered away by detail.";
            lit "The mass of men lead lives of quiet desperation."]
           (lit "Henry David Thoreau"));
    vm_compute; reflexivity.
Defined.

(** Only the third note of Walden is written into the file of the
    example, which exists already and gets no header. *)
Example walden_third_note_written :
  write_book nfkd_ascii today_example walden_state (scan earlier_outdir)
    [lit "Walden"] earlier_outdir walden
  = Ok (Some (lit "Henry David Thoreau - Walden.md",
              [lit "loc. 1-5 ; 2024-01-02 09:00:00" ++ nl;
               lit ">The mass of men lead lives of quiet desperation." ++ nl
               ++ lit "---" ++ nl ++ nl])).
Proof. vm_compute. reflexivity. Qed.

(** C2, as stated, fails: Walden has three notes of which one is new, and
    that one goes to the book's own file. *)
Lemma routing_not_by_new_notes :
  ~ routed_by_new_notes nfkd_ascii today_example walden_state
      (scan earlier_outdir) [lit "Walden"] earlier_outdir walden.
Proof.
  intros H. edestruct H as [_ Hshort]; [vm_compute; reflexivity|].
  assert (count_new (scan earlier_outdir) (hashes_of walden_state walden) <= 2)
    as Hnew by (vm_compute; lia).
  specialize (Hshort Hnew). vm_compute in Hshort. discriminate Hshort.
Qed.

(** C2, amended. A selected book that produces output goes to the shared
    file of short notes exactly when it has at most two notes in all,
    whether new or not, and to its own file otherwise. *)
Theorem short_routing nfkd today st existing_hashes selected_titles outdir key
    title texts author hs :
  dict_get (pub_title st) key = Some title ->
  existsb (str_eqb title) selected_titles = true ->
  dict_get (pub_notes st) key = Some texts ->
  dict_get (pub_author st) key = Some author ->
  dict_get (pub_hashes st) key = Some hs ->
  book_ok st hs = true ->
  forallb (dict_mem existing_hashes) hs = false ->
  exists ws,
    write_book nfkd today st existing_hashes selected_titles outdir key
    = Ok (Some (getvalidfilename nfkd
                  (if length texts <=? 2 then lit "short_notes.md"
                   else author ++ lit " - " ++ strip (short_title_of title)
                        ++ lit ".md"),
                ws))
    /\ exists newfile body,
         ws = header today (length texts <=? 2) newfile author title ++ body.
Proof.
  intros Ht Hsel Hn Ha Hh Hok Hnew.
  pose proof (write_book_spec nfkd today st existing_hashes selected_titles
                outdir key title texts author hs Ht Hsel Hn Ha Hh Hok) as Hw.
  cbv zeta in Hw. rewrite Hnew in Hw. unfold routing in Hw.
  destruct (Nat.ltb_spec 2 (length texts)) as [Hlong|Hshort].
  - rewrite (proj2 (Nat.leb_gt _ _)) by lia. cbn [fst snd] in Hw.
    eexists. split; [exact Hw|]. eexists _, _. reflexivity.
  - rewrite (proj2 (Nat.leb_le _ _)) by lia. cbn [fst snd] in Hw.
    eexists. split; [exact Hw|]. eexists _, _. reflexivity.
Qed.

Lemma short_routing_witness :
  exists ws,
    write_book nfkd_ascii today_example walden_state (scan earlier_outdir)
      [lit "Walden"] earlier_outdir walden
    = Ok (Some (getvalidfilename nfkd_ascii
                  (if 3 <=? 2 then lit "short_notes.md"
                   else lit "Henry David Thoreau" ++ lit " - "
                        ++ strip (short_title_of (lit "Walden")) ++ lit ".md"),
                ws))
    /\ exists newfile body,
         ws = header today_example (3 <=? 2) newfile
                (lit "Henry David Thoreau") (lit "Walden") ++ body.
Proof.
  apply (short_routing nfkd_ascii today_example walden_state
           (scan earlier_outdir) [lit "Walden"] earlier_outdir walden
           (lit "Walden")
           [lit "I went to the woods because I wished to live deliberately.";
            lit "Our life is frittered away by detail.";
            lit "The mass of men lead lives of quiet desperation."]
           (lit "Henry David Thoreau")
           [lit "0047e284"; lit "07f938c3"; lit "7708a9c0"]);
    vm_compute; reflexivity.
Defined.

(** ** Two runs in a row *)

(** A pattern anchored at the start matches nowhere else. *)
Lemma findall_from_anchored r s skip :
  findall_from (Bol :: r) s false skip = [].
Proof.
  revert skip. induction s as [|c s IH]; intros [|skip]; simpl; auto.
Qed.

(** No comment line of the writer is taken for a hash line by the scan:
    the line starts with the location string, which is empty or starts
    with loc or p, never with two dots. *)
Lemma comment_line_has_no_hash short author title note_loc note_page note_date :
  findall regex_hashline
    (comment_of short author title (locstr_of note_loc note_page) note_date ++ nl)
  = [].
Proof.
  unfold findall, comment_of, locstr_of.
  assert (forall rest : str,
            findall_from regex_hashline (lit "loc. " ++ rest) true 0 = []) as Hloc.
  { intros rest. cbn. apply findall_from_anchored. }
  assert (forall rest : str,
            findall_from regex_hashline (lit "p." ++ rest) true 0 = []) as Hp.
  { intros rest. cbn. apply findall_from_anchored. }
  assert (forall rest : str,
            findall_from regex_hashline (lit " ; " ++ rest) true 0 = []) as Hs.
  { intros rest. cbn. apply findall_from_anchored. }
  destruct note_loc as [|c note_loc], note_page as [|d note_page], short;
    repeat rewrite <- app_assoc; cbn [app];
    first [apply Hloc | apply Hp | apply Hs].
Qed.

(** C1 fails on the script: the first run writes the note with a comment
    line that holds no hash, the scan of its output finds no hash, and the
    second run takes the note for a new one and writes it again. *)
Theorem second_run_writes_again :
  exists st1 st2,
    first_run = Finished [(lit "short_notes.md", first_output)] st1 /\
    scan (outdir_of first_run) = [] /\
    second_run
      = Finished [(lit "short_notes.md", first_output ++ first_output)] st2 /\
    count_new (scan (outdir_of first_run)) (hashes_of st2 scenario_key) = 1.
Proof.
  eexists _, _. split; [vm_compute; reflexivity|].
  split; [vm_compute; reflexivity|].
  split; vm_compute; reflexivity.
Qed.

(** ** States the parser builds *)

Lemma dict_mem_set {V} (d : dict V) k k' v :
  dict_mem (dict_set d k v) k' = str_eqb k' k || dict_mem d k'.
Proof.
  unfold dict_mem. destruct (decide (k' = k)) as [->|Hne].
  - by rewrite dict_get_set_eq, str_eqb_refl.
  - by rewrite dict_get_set_ne, str_eqb_ne.
Qed.

Lemma dict_mem_true {V} (d : dict V) k v : dict_get d k = Some v -> dict_mem d k = true.
Proof. unfold dict_mem. by intros ->. Qed.

Lemma state0_well_formed : well_formed state0.
Proof. split; [done|]. intros k hs. done. Qed.

Lemma print_well_formed line st : well_formed st -> well_formed (print line st).
Proof. done. Qed.

Lemma book_ok_app st hs hs' :
  book_ok st (hs ++ hs') = book_ok st hs && book_ok st hs'.
Proof. unfold book_ok. apply forallb_app. Qed.

(** Storing a note never fails on a well-formed state and leaves one. *)
Lemma store_note_well_formed st key title author text h locstr type datestr :
  well_formed st ->
  exists st',
    store_note st key title author text h locstr type datestr = Ok st' /\
    well_formed st'.
Proof.
  intros [Hkeys Hbooks].
  assert (exists texts old,
            getitem (if negb (dict_mem (pub_notes st) key)
                     then dict_set (pub_notes st) key [] else pub_notes st) key
              = Ok texts /\
            getitem (if negb (dict_mem (pub_notes st) key)
                     then dict_set (pub_hashes st) key [] else pub_hashes st) key
              = Ok old /\
            (if dict_mem (pub_notes st) key
             then dict_get (pub_hashes st) key = Some old else old = []))
    as (texts & old & Htexts & Hold & Hold').
  { destruct (Hkeys key) as (_ & _ & Hn). unfold getitem.
    destruct (dict_mem (pub_notes st) key) eqn:Hmem; cbn [negb].
    - symmetry in Hn.
      apply dict_mem_get in Hmem as [texts ->], Hn as [old Hold].
      rewrite Hold. eauto.
    - rewrite !dict_get_set_eq. eauto. }
  unfold store_note, bind. rewrite Htexts, Hold.
  eexists. split; [reflexivity|]. split; simpl.
  - intros k. rewrite !dict_mem_set. destruct (Hkeys k) as (-> & -> & Hn).
    destruct (dict_mem (pub_notes st) key) eqn:Hmem; cbn [negb];
      rewrite ?dict_mem_set, ?Hn; repeat split; by destruct (str_eqb k key).
  - intros k hs Hk.
    assert (forall hs0, book_ok st hs0 = true ->
              book_ok {| pub_title := dict_set (pub_title st) key (strip title);
                         pub_author := dict_set (pub_author st) key (strip author);
                         pub_notes := dict_set
                           (if negb (dict_mem (pub_notes st) key)
                            then dict_set (pub_notes st) key [] else pub_notes st)
                           key (texts ++ [text]);
                         pub_hashes := dict_set
                           (if negb (dict_mem (pub_notes st) key)
                            then dict_set (pub_hashes st) key [] else pub_hashes st)
                           key (old ++ [h]);
                         notes := dict_set (notes st) h text;
                         locations := dict_set (locations st) h locstr;
                         types := dict_set (types st) h type;
                         dates := dict_set (dates st) h datestr;
                         stdout := stdout st |} hs0 = true) as Hmono.
    { intros hs0. unfold book_ok. rewrite !forallb_forall. intros H x Hx.
      specialize (H x Hx). unfold note_known in *. simpl.
      rewrite !dict_mem_set. rewrite !andb_true_iff in H.
      destruct H as [[[-> ->] ->] ->]. by rewrite !orb_true_r. }
    assert (forall st1, note_known
              {| pub_title := pub_title st1; pub_author := pub_author st1;
                 pub_notes := pub_notes st1; pub_hashes := pub_hashes st1;
                 notes := dict_set (notes st) h text;
                 locations := dict_set (locations st) h locstr;
                 types := dict_set (types st) h type;
                 dates := dict_set (dates st) h datestr;
                 stdout := stdout st1 |} h = true) as Hnew.
    { intros st1. unfold note_known. simpl.
      by rewrite !dict_mem_set, str_eqb_refl. }
    destruct (decide (k = key)) as [->|Hne].
    + rewrite dict_get_set_eq in Hk. injection Hk as <-.
      split; [by destruct old|]. rewrite book_ok_app. apply andb_true_iff. split.
      * apply Hmono. destruct (dict_mem (pub_notes st) key).
        -- by destruct (Hbooks key old Hold').
        -- by subst old.
      * unfold book_ok. simpl. rewrite andb_true_r.
        apply (Hnew {| pub_title := _; pub_author := _; pub_notes := _;
                       pub_hashes := _; notes := []; locations := [];
                       types := []; dates := []; stdout := stdout st |}).
    + rewrite dict_get_set_ne in Hk by done.
      assert (dict_get (pub_hashes st) k = Some hs) as Hk'.
      { destruct (negb _); [by rewrite dict_get_set_ne in Hk|done]. }
      destruct (Hbooks k hs Hk') as [Hne' Hok]. split; [done|]. by apply Hmono.
Qed.

(** One turn of the loop on a well-formed state: a well-formed state, or
    a stop that is not a [KeyError]. *)
Lemma parse_record_well_formed dp line ls st :
  well_formed st ->
  match parse_record dp line ls st with
  | Next _ _ st' => well_formed st'
  | Abort e _ => e = IndexError \/ e = UnicodeEncodeError
  | Hang _ => True
  end.
Proof.
  intros Hwf. unfold parse_record.
  destruct (title_author (strip line)) as [title author].
  rewrite !readline_hd_tl.
  destruct (findall regex_info _) as [|m ms]; [by left|].
  destruct (read_note_text _ _) as [[raw rest]|]; [|done].
  unfold bind, note_hash_of.
  destruct (Sha256.encode_utf8 _) as [bytes|]; [|by right].
  destruct (store_note_well_formed (print (strip (hd [] ls)) st) (strip line)
              title author (postprocess raw) (take 8 (Sha256.hexdigest bytes))
              (locstr_of (first_group regex_loc (group m 1))
                         (first_group regex_page (group m 1)))
              (group m 0) (datestr_of dp (group m 2))
              (print_well_formed _ _ Hwf)) as (st' & -> & Hwf').
  by rewrite readline_hd_tl.
Qed.

Lemma parse_loop_well_formed dp fuel : forall line ls st,
  well_formed st ->
  match parse_loop dp fuel line ls st with
  | Parsed st' => well_formed st'
  | ParseAbort e _ => e = IndexError \/ e = UnicodeEncodeError
  | _ => True
  end.
Proof.
  induction fuel as [|fuel IH]; intros line ls st Hwf.
  - simpl. by destruct line.
  - simpl. destruct line as [|c line]; [done|].
    pose proof (parse_record_well_formed dp (c :: line) ls st Hwf) as Hstep.
    destruct (parse_record dp _ _ _); [by apply IH|done..].
Qed.

(** The parser leaves a well-formed state. *)
Lemma parse_well_formed dp clippings st :
  parse dp clippings = Parsed st -> well_formed st.
Proof.
  rewrite parse_unfold. intros H.
  pose proof (parse_loop_well_formed dp
                (length (readlines (drop 1 clippings)))
                (first_header clippings).1 (first_header clippings).2 state0
                state0_well_formed) as Hwf.
  by rewrite H in Hwf.
Qed.

(** Reconciling a book of a well-formed state works and leaves one. *)
Lemma reconcile_book_well_formed st k :
  well_formed st -> dict_mem (pub_hashes st) k = true ->
  exists st',
    reconcile_book st k = Ok st' /\ well_formed st' /\
    dict_keys (pub_hashes st') = dict_keys (pub_hashes st).
Proof.
  intros [Hkeys Hbooks] [hs Hk]%dict_mem_get.
  destruct (Hbooks k hs Hk) as [Hne Hok].
  destruct hs as [|first hs'] eqn:Hhs; [done|]. rewrite <- Hhs in *.
  assert (hs !! 0 = Some first) as Hfirst by (by rewrite Hhs).
  destruct (note_known_spec st first) as (? & ? & loc0 & ? & _ & _ & Hloc0 & _).
  { eapply book_ok_elem; [done|]. rewrite Hhs. by left. }
  assert (forall hs1 out,
            hs1 ≡ₚ hs ->
            well_formed (prints out (set_pub_hashes st k hs1)) /\
            dict_keys (pub_hashes (prints out (set_pub_hashes st k hs1)))
            = dict_keys (pub_hashes st)) as Hset.
  { intros hs1 out Hperm. split; [split|].
    - intros k'. simpl. rewrite dict_mem_set. destruct (Hkeys k') as (-> & -> & ->).
      destruct (decide (k' = k)) as [->|Hne'].
      + by rewrite str_eqb_refl, (dict_mem_true _ _ _ Hk).
      + by rewrite str_eqb_ne.
    - intros k' hs2. simpl. destruct (decide (k' = k)) as [->|Hne'].
      + rewrite dict_get_set_eq. intros [= <-]. split.
        * intros ->. apply Permutation_nil_l in Hperm. by subst hs.
        * by apply (book_ok_perm st hs).
      + rewrite dict_get_set_ne by done. apply Hbooks.
    - simpl. by eapply dict_keys_set_mem. }
  destruct (contains (lit "loc. ") loc0) eqn:Hb1;
    [|destruct (contains (lit "p.") loc0) eqn:Hb2].
  - eexists. split; [by eapply reconcile_book_loc|]. apply Hset, sort_on_perm.
  - eexists. split; [by eapply reconcile_book_page|]. apply Hset, sort_on_perm.
  - eexists. split; [by eapply reconcile_book_other|]. done.
Qed.

Lemma dict_mem_keys {V} (d : dict V) k :
  dict_mem d k = existsb (str_eqb k) (dict_keys d).
Proof.
  unfold dict_mem, dict_keys. induction d as [|[k' v] d IH]; simpl; [done|].
  by destruct (str_eqb k k').
Qed.

Lemma dict_keys_mem {V} (d : dict V) :
  Forall (fun k => dict_mem d k = true) (dict_keys d).
Proof.
  apply Forall_forall. intros k Hk. rewrite dict_mem_keys.
  apply existsb_exists. exists k. split; [by apply list_elem_of_In|].
  apply str_eqb_refl.
Qed.

Lemma foldM_reconcile ks : forall st,
  well_formed st ->
  Forall (fun k => dict_mem (pub_hashes st) k = true) ks ->
  exists st', foldM reconcile_book st ks = Ok st' /\ well_formed st'.
Proof.
  induction ks as [|k ks IH]; intros st Hwf Hks; simpl; [eauto|].
  apply Forall_cons in Hks as [Hk Hks].
  destruct (reconcile_book_well_formed st k Hwf Hk) as (st1 & -> & Hwf1 & Hkeys).
  simpl. apply IH; [done|].
  eapply Forall_impl; [exact Hks|]. intros k'. simpl.
  by rewrite !dict_mem_keys, Hkeys.
Qed.

(** The reconciler never fails on what the parser leaves. *)
Lemma reconcile_well_formed st :
  well_formed st -> exists st', reconcile st = Ok st' /\ well_formed st'.
Proof. intros Hwf. apply foldM_reconcile; [done|apply dict_keys_mem]. Qed.

(** The writer never fails on a well-formed state. *)
Lemma write_step_well_formed nfkd today st existing selected outdir key :
  well_formed st -> dict_mem (pub_title st) key = true ->
  exists outdir',
    write_step nfkd today st existing selected outdir key = Ok outdir'.
Proof.
  intros [Hkeys Hbooks] Ht. destruct (Hkeys key) as (Ht' & Ha & Hn).
  rewrite Ht in Ht'. symmetry in Ht'. rewrite Ht' in Ha, Hn.
  apply dict_mem_get in Ht as [title Ht], Ha as [author Ha], Hn as [texts Hn],
    Ht' as [hs Hh].
  destruct (Hbooks key hs Hh) as [_ Hok].
  unfold write_step.
  destruct (existsb (str_eqb title) selected) eqn:Hsel.
  - rewrite (write_book_spec nfkd today st existing selected outdir key
               title texts author hs Ht Hsel Hn Ha Hh Hok).
    cbn [bind]. destruct (forallb _ hs); eauto.
  - unfold write_book, getitem, bind. rewrite Ht, Hsel. simpl. eauto.
Qed.

Lemma write_all_well_formed nfkd today st existing selected outdir :
  well_formed st ->
  exists outdir', write_all nfkd today st existing selected outdir = Ok outdir'.
Proof.
  intros Hwf. unfold write_all.
  pose proof (dict_keys_mem (pub_title st)) as Hks. revert outdir.
  induction Hks as [|k ks Hk _ IH]; intros outdir; simpl; [eauto|].
  destruct (write_step_well_formed nfkd today st existing selected outdir k
              Hwf Hk) as [outdir1 ->].
  simpl. apply IH.
Qed.

(** Of the exceptions of lookups, of list indices and of the encoding,
    which are the ones the embedding has, a run meets only those of the
    parser: the index of a record whose information line does not match
    and the encoding of a text.  It never stops on a missing key. *)
Lemma run_outcomes dp nfkd today outdir clippings selected :
  match run dp nfkd today outdir clippings selected with
  | Finished _ st => well_formed st
  | Aborted e _ => e = IndexError \/ e = UnicodeEncodeError
  | Hangs _ => True
  | NoFuel => False
  end.
Proof.
  unfold run. pose proof (parse_total dp clippings) as Htotal.
  pose proof (parse_well_formed dp clippings) as Hwf.
  pose proof (parse_loop_well_formed dp
                (length (readlines (drop 1 clippings)))
                (first_header clippings).1 (first_header clippings).2 state0
                state0_well_formed) as Habort.
  rewrite <- parse_unfold in Habort.
  destruct (parse dp clippings) as [st|e out|out|]; [|done..].
  destruct (reconcile_well_formed st (Hwf st eq_refl)) as (st' & -> & Hwf').
  by destruct (write_all_well_formed nfkd today st' (scan outdir) selected
                 outdir Hwf') as [outdir' ->].
Qed.

(** *** Text that comes from a UTF-8 file can be hashed *)

Section Scalar.
Let P (c : char) : Prop := scalar c = true.

Lemma Forall_lstrip s : Forall P s -> Forall P (lstrip s).
Proof.
  induction 1 as [|c s Hc Hs IH]; simpl; [done|].
  destruct (isspace c); [done|by constructor].
Qed.

Lemma Forall_rev_scalar s : Forall P s -> Forall P (rev s).
Proof.
  intros H. apply Forall_forall. intros c Hc. rewrite Forall_forall in H.
  apply H. apply list_elem_of_In, in_rev. by apply list_elem_of_In.
Qed.

Lemma Forall_strip s : Forall P s -> Forall P (strip s).
Proof.
  intros H. unfold strip, rstrip.
  by apply Forall_rev_scalar, Forall_lstrip, Forall_rev_scalar, Forall_lstrip.
Qed.

Lemma Forall_replace_from old new skip s :
  Forall P new -> Forall P s -> Forall P (replace_from old new skip s).
Proof.
  intros Hnew Hs. revert skip.
  induction Hs as [|c s Hc Hs IH]; intros skip; simpl; [done|].
  destruct skip; [|apply IH].
  destruct (startswith old (c :: s)).
  - apply Forall_app. split; [done|apply IH].
  - constructor; [done|apply IH].
Qed.

Lemma Forall_postprocess s : Forall P s -> Forall P (postprocess s).
Proof.
  intros H. apply Forall_replace_from; [by repeat constructor|].
  by apply Forall_strip.
Qed.

Lemma Forall_lines_from cur s :
  Forall P cur -> Forall P s -> Forall (Forall P) (lines_from cur s).
Proof.
  intros Hcur Hs. revert cur Hcur.
  induction Hs as [|c s Hc Hs IH]; intros cur Hcur; simpl.
  - destruct cur; [done|]. constructor; [|done]. by apply Forall_rev_scalar.
  - destruct (c =? 10)%N.
    + constructor; [|by apply IH].
      apply Forall_app. split; [by apply Forall_rev_scalar|by repeat constructor].
    + apply IH. by constructor.
Qed.

Lemma Forall_readlines s :
  scalar_text s -> Forall (Forall P) (readlines (drop 1 s)).
Proof.
  intros H. apply Forall_lines_from; [done|]. by apply Forall_drop.
Qed.

Lemma Forall_read_note_text ls acc text rest :
  Forall (Forall P) ls -> Forall P acc ->
  read_note_text ls acc = Some (text, rest) ->
  Forall P text /\ Forall (Forall P) rest.
Proof.
  intros Hls. revert acc.
  induction Hls as [|l ls Hl Hls IH]; intros acc Hacc; simpl; [done|].
  destruct (str_eqb _ _).
  - by intros [= <- <-].
  - apply IH. apply Forall_app. split; [done|].
    apply Forall_app. split; [by apply Forall_strip|by repeat constructor].
Qed.

(** One turn of the loop on lines of scalar values does not stop on the
    encoding of the text. *)
Lemma parse_record_scalar dp line ls st :
  Forall (Forall P) ls ->
  well_formed st ->
  match parse_record dp line ls st with
  | Next _ ls' _ => Forall (Forall P) ls'
  | Abort e _ => e = IndexError
  | Hang _ => True
  end.
Proof.
  intros Hls Hwf. unfold parse_record.
  destruct (title_author (strip line)) as [title author].
  rewrite !readline_hd_tl.
  destruct (findall regex_info _) as [|m ms]; [done|].
  assert (tail (tail ls) = drop 2 ls) as -> by (by destruct ls as [|? [|? ?]]).
  destruct (read_note_text _ _) as [[raw rest]|] eqn:Hraw; [|done].
  destruct (Forall_read_note_text _ _ _ _
              (Forall_drop _ 2 _ Hls) (Forall_nil_2 _) Hraw) as [Hraw' Hrest].
  destruct (note_hash_of_total (postprocess raw)
              (Forall_postprocess _ Hraw')) as [h Hh].
  unfold bind. rewrite Hh.
  destruct (store_note_well_formed (print (strip (hd [] ls)) st) (strip line)
              title author (postprocess raw) h
              (locstr_of (first_group regex_loc (group m 1))
                         (first_group regex_page (group m 1)))
              (group m 0) (datestr_of dp (group m 2))
              (print_well_formed _ _ Hwf)) as (st' & -> & _).
  rewrite readline_hd_tl. by destruct Hrest.
Qed.

Lemma parse_loop_scalar dp fuel : forall line ls st,
  Forall (Forall P) ls ->
  well_formed st ->
  match parse_loop dp fuel line ls st with
  | ParseAbort e _ => e = IndexError
  | _ => True
  end.
Proof.
  induction fuel as [|fuel IH]; intros line ls st Hls Hwf.
  - simpl. by destruct line.
  - simpl. destruct line as [|c line]; [done|].
    pose proof (parse_record_scalar dp (c :: line) ls st Hls Hwf) as Hstep.
    pose proof (parse_record_well_formed dp (c :: line) ls st Hwf) as Hwf'.
    destruct (parse_record dp _ _ _); [by apply IH|done..].
Qed.

End Scalar.

(** On a file of Unicode scalar values the only one of these exceptions
    that ends a run is the [IndexError] of a record whose information line
    does not match. *)
Lemma run_outcomes_scalar dp nfkd today outdir clippings selected :
  scalar_text clippings ->
  match run dp nfkd today outdir clippings selected with
  | Aborted e _ => e = IndexError
  | NoFuel => False
  | _ => True
  end.
Proof.
  intros Hs. pose proof (run_outcomes dp nfkd today outdir clippings selected) as H.
  unfold run in *.
  pose proof (parse_loop_scalar dp
                (length (readlines (drop 1 clippings)))
                (first_header clippings).1 (first_header clippings).2 state0)
    as Habort.
  rewrite <- parse_unfold in Habort.
  destruct (parse dp clippings) as [st|e out|out|] eqn:Hp; try done.
  - destruct (reconcile_well_formed st (parse_well_formed _ _ _ Hp))
      as (st' & -> & Hwf').
    by destruct (write_all_well_formed nfkd today st' (scan outdir) selected
                   outdir Hwf') as [outdir' ->].
  - apply Habort; [|apply state0_well_formed].
    unfold first_header. simpl.
    pose proof (Forall_readlines clippings Hs) as Hl.
    destruct (readlines (drop 1 clippings)); [done|].
    by apply Forall_cons in Hl as [_ Hl].
Qed.

(** * Further properties *)

(** ** utilities.py: the similarity metric *)

(** X1. [longest_common_substring_len] returns the length of a longest
    contiguous run of characters that occurs in both strings: some common
    run has that length and no common run is longer. *)
Theorem lcs_len_is_longest (a b : str) :
  (exists w, substring w a /\ substring w b /\
             length w = longest_common_substring_len a b) /\
  (forall w, substring w a -> substring w b ->
             length w <= longest_common_substring_len a b).
Proof. apply longest_common_substring_len_spec. Qed.

Lemma substring_singleton (c : N) (s : str) : c ∈ s -> substring [c] s.
Proof.
  intros (p & q & ->)%list_elem_of_split. by exists p, q.
Qed.

(** X2. The similarity metric never exceeds the length of the shorter
    string, and it is 0 exactly when the two strings share no character. *)
Theorem lcs_len_bounds (a b : str) :
  longest_common_substring_len a b <= length a `min` length b /\
  (longest_common_substring_len a b = 0 <-> forall c, c ∈ a -> c ∉ b).
Proof.
  destruct (longest_common_substring_len_spec a b) as [(w & Ha & Hb & Hlen) Hmax].
  split.
  - rewrite <- Hlen. apply substring_length in Ha, Hb. lia.
  - split.
    + intros Hz c Hca Hcb.
      pose proof (Hmax [c] (substring_singleton c a Hca)
                    (substring_singleton c b Hcb)) as Hle.
      simpl in Hle. lia.
    + intros Hdisj. destruct w as [|c w]; [by rewrite <- Hlen|].
      exfalso. apply (Hdisj c).
      * destruct Ha as (p & q & ->). rewrite !elem_of_app. right. left. by left.
      * destruct Hb as (p & q & ->). rewrite !elem_of_app. right. left. by left.
Qed.

(** ** File names *)

Lemma startswith_app sub p q :
  startswith sub p = true -> startswith sub (p ++ q) = true.
Proof.
  revert p. induction sub as [|x sub IH]; intros [|y p]; simpl; try done.
  intros [-> H]%andb_true_iff. by rewrite IH.
Qed.

(** A string that holds [sub] still holds it when it is extended. *)
Lemma contains_app sub p q :
  contains sub p = true -> contains sub (p ++ q) = true.
Proof.
  induction p as [|c p IH].
  - simpl. rewrite orb_false_r. intros H. destruct sub; [|done].
    by destruct q.
  - cbn [contains]. intros [H|H]%orb_true_iff.
    + change ((c :: p) ++ q) with (c :: (p ++ q)). cbn [contains].
      change (c :: (p ++ q)) with ((c :: p) ++ q).
      by rewrite (startswith_app _ _ q H).
    + change ((c :: p) ++ q) with (c :: (p ++ q)). cbn [contains].
      by rewrite (IH H), orb_true_r.
Qed.

Lemma contains_prefix sub p s :
  p `prefix_of` s -> contains sub s = false -> contains sub p = false.
Proof.
  intros [q ->] H. destruct (contains sub p) eqn:Hp; [|done].
  by rewrite (contains_app _ _ q Hp) in H.
Qed.

Lemma split_head_prefix sep s : split_head sep s `prefix_of` s.
Proof.
  induction s as [|c s IH]; simpl; [done|].
  destruct (startswith sep (c :: s)); [apply prefix_nil|].
  by apply prefix_cons.
Qed.

(** What is kept before the first separator holds no separator. *)
Lemma split_head_free sep s :
  sep <> [] -> contains sep (split_head sep s) = false.
Proof.
  intros Hsep. induction s as [|c s IH]; simpl.
  - by destruct sep.
  - destruct (startswith sep (c :: s)) eqn:Hst.
    + by destruct sep.
    + cbn [contains]. rewrite IH, orb_false_r.
      destruct (startswith sep (c :: split_head sep s)) eqn:Hst'; [|done].
      destruct (split_head_prefix sep s) as [q Hq].
      apply (startswith_app _ _ q) in Hst'. simpl in Hst'.
      rewrite <- Hq in Hst'. simpl in Hst. congruence.
Qed.

(** X3. The short title is a prefix of the title, has at most 128
    characters, and holds none of the three separators it is cut at. *)
Theorem short_title_of_spec (title : str) :
  short_title_of title `prefix_of` title /\
  length (short_title_of title) <= 128 /\
  contains (lit "|") (short_title_of title) = false /\
  contains (lit " - ") (short_title_of title) = false /\
  contains (lit ". ") (short_title_of title) = false.
Proof.
  unfold short_title_of.
  set (t1 := split_head (lit "|") title).
  set (t2 := split_head (lit " - ") t1).
  set (t3 := split_head (lit ". ") t2).
  assert (t1 `prefix_of` title) as H1 by apply split_head_prefix.
  assert (t2 `prefix_of` t1) as H2 by apply split_head_prefix.
  assert (t3 `prefix_of` t2) as H3 by apply split_head_prefix.
  assert (contains (lit "|") t3 = false) as Hb.
  { apply (contains_prefix _ _ t2 H3), (contains_prefix _ _ t1 H2).
    by apply split_head_free. }
  assert (contains (lit " - ") t3 = false) as Hd.
  { apply (contains_prefix _ _ t2 H3). by apply split_head_free. }
  assert (contains (lit ". ") t3 = false) as Hp by (by apply split_head_free).
  assert (t3 `prefix_of` title) as H by (by repeat (etrans; [eassumption|])).
  destruct (Nat.ltb_spec 128 (length t3)) as [Hlong|Hshort].
  - assert (take 127 t3 `prefix_of` t3) as Ht by apply prefix_take.
    split; [by etrans|]. split; [rewrite length_take; lia|].
    split; [by apply (contains_prefix _ _ t3 Ht)|].
    split; by apply (contains_prefix _ _ t3 Ht).
  - done.
Qed.

Lemma is_markdown_app (x : str) :
  existsb (fun c => negb (c =? 46)%N) x = true ->
  is_markdown (x ++ lit ".md") = true.
Proof.
  intros Hx. unfold is_markdown. rewrite length_app.
  change (length (lit ".md")) with 3.
  replace (length x + 3 - 3) with (length x) by lia.
  rewrite take_app_length, drop_app_length, Hx.
  by destruct (Nat.leb_spec 3 (length x + 3)); [|lia].
Qed.

Lemma filter_app_bool {A} (p : A -> bool) (l k : list A) :
  List.filter p (l ++ k) = List.filter p l ++ List.filter p k.
Proof. induction l as [|x l IH]; simpl; [done|]. destruct (p x); simpl; congruence. Qed.

Lemma existsb_app_r {A} (p : A -> bool) (l k : list A) :
  existsb p k = true -> existsb p (l ++ k) = true.
Proof. intros H. rewrite existsb_app, H. apply orb_true_r. Qed.

Lemma existsb_app_l {A} (p : A -> bool) (l k : list A) :
  existsb p l = true -> existsb p (l ++ k) = true.
Proof. intros H. by rewrite existsb_app, H. Qed.

(** X4. A file name the writer chooses, once made valid, holds none of
    the characters [getvalidfilename] removes and is one the scan of the
    next run reads as Markdown, provided normalisation leaves the name as
    it is (as it does for an ASCII name). *)
Theorem written_file_is_scanned nfkd nr_notes author title :
  nfkd (routing nr_notes author title).1 = (routing nr_notes author title).1 ->
  is_markdown (getvalidfilename nfkd (routing nr_notes author title).1) = true /\
  Forall (fun c => c ∉ lit "()'?!:")
    (getvalidfilename nfkd (routing nr_notes author title).1).
Proof.
  intros Hn. split.
  - unfold getvalidfilename. rewrite Hn. unfold routing.
    destruct (2 <? nr_notes); cbn [fst].
    + rewrite !app_assoc, filter_app_bool.
      change (List.filter _ (lit ".md")) with (lit ".md").
      apply is_markdown_app. rewrite !filter_app_bool.
      apply existsb_app_l, existsb_app_r. reflexivity.
    + reflexivity.
  - unfold getvalidfilename. apply Forall_forall. intros c Hc.
    apply list_elem_of_In, filter_In in Hc as [_ Hc].
    apply negb_true_iff in Hc. intros Hin.
    assert (existsb (N.eqb c) (lit "()'?!:") = true); [|congruence].
    apply existsb_exists. exists c. split; [by apply list_elem_of_In|].
    apply N.eqb_refl.
Qed.

Lemma written_file_is_scanned_witness :
  is_markdown
    (getvalidfilename nfkd_ascii
       (routing 3 (lit "Henry David Thoreau") (lit "Walden: Life (1854)")).1) = true /\
  Forall (fun c => c ∉ lit "()'?!:")
    (getvalidfilename nfkd_ascii
       (routing 3 (lit "Henry David Thoreau") (lit "Walden: Life (1854)")).1).
Proof.
  apply (written_file_is_scanned nfkd_ascii 3 (lit "Henry David Thoreau")
           (lit "Walden: Life (1854)")).
  reflexivity.
Defined.

(** ** The parse loop: ends of file and blank lines *)

Lemma read_note_text_none ls acc :
  read_note_text ls acc = None <->
  forallb (fun l => negb (str_eqb (strip l) note_sep)) ls = true.
Proof.
  revert acc. induction ls as [|l ls IH]; intros acc; simpl; [done|].
  destruct (str_eqb (strip l) note_sep); simpl; [done|apply IH].
Qed.

(** The lines up to the first separator line are gathered, each stripped
    and followed by a newline. *)
Lemma read_note_text_some body sepline rest acc :
  forallb (fun l => negb (str_eqb (strip l) note_sep)) body = true ->
  strip sepline = note_sep ->
  read_note_text (body ++ sepline :: rest) acc
  = Some (acc ++ concat (map (fun l => strip l ++ nl) body), rest).
Proof.
  revert acc. induction body as [|l body IH]; intros acc Hbody Hsep; simpl.
  - by rewrite Hsep, str_eqb_refl, app_nil_r.
  - simpl in Hbody. apply andb_true_iff in Hbody as [Hl Hbody].
    apply negb_true_iff in Hl. rewrite Hl, IH by done.
    by rewrite <- !app_assoc.
Qed.

Lemma parse_record_hang dp line ls st m ms :
  findall regex_info (strip (hd [] ls)) = m :: ms ->
  forallb (fun l => negb (str_eqb (strip l) note_sep)) (drop 2 ls) = true ->
  parse_record dp line ls st = Hang (stdout st ++ [strip (hd [] ls)]).
Proof.
  intros Hm Hnone. unfold parse_record.
  destruct (title_author (strip line)). rewrite readline_hd_tl, Hm.
  assert (readline (tail ls) = (hd [] (tail ls), drop 2 ls)) as ->
    by (by destruct ls as [|? [|? ?]]).
  by rewrite (proj2 (read_note_text_none _ _) Hnone).
Qed.

(** X5. When the loop reaches a record whose information line matches
    but no separator line follows, as in a file cut short, the inner loop
    never ends: the script spins on reads past the end of the file, having
    printed the information line, and writes nothing. *)
Theorem missing_separator_hangs dateutil_str nfkd today outdir selected_titles
    clippings n line ls st m ms :
  turns dateutil_str n (first_header clippings).1 (first_header clippings).2
    state0 = Some (line, ls, st) ->
  line <> [] ->
  findall regex_info (strip (hd [] ls)) = m :: ms ->
  forallb (fun l => negb (str_eqb (strip l) note_sep)) (drop 2 ls) = true ->
  parse dateutil_str clippings = ParseHang (stdout st ++ [strip (hd [] ls)]) /\
  run dateutil_str nfkd today outdir clippings selected_titles
    = Hangs (stdout st ++ [strip (hd [] ls)]).
Proof.
  intros Hturns Hline Hm Hnone.
  assert (parse dateutil_str clippings
          = ParseHang (stdout st ++ [strip (hd [] ls)])) as Hparse.
  { rewrite parse_unfold.
    destruct (first_header_fuel clippings) as [Hnil | Hlen].
    - rewrite Hnil in Hturns. destruct n; simpl in Hturns; [|done].
      by injection Hturns as <- _ _.
    - destruct (turns_loop _ _ _ _ _ _ _ _ _ Hturns Hlen) as [Hfuel ->].
      destruct (_ - n) as [|fuel]; [lia|]. simpl.
      destruct line as [|c line]; [done|].
      by rewrite (parse_record_hang _ _ _ _ m ms). }
  split; [done|]. unfold run. by rewrite Hparse.
Qed.

Lemma missing_separator_hangs_witness :
  parse dateutil_examples truncated_clippings
    = ParseHang
        [lit "- Your Highlight on page 12 | Added on Monday, 1 January 2024 00:00:00"] /\
  run dateutil_examples nfkd_ascii today_example [] truncated_clippings
      [lit "Book Title"]
    = Hangs
        [lit "- Your Highlight on page 12 | Added on Monday, 1 January 2024 00:00:00"].
Proof.
  apply (missing_separator_hangs dateutil_examples nfkd_ascii today_example []
           [lit "Book Title"] truncated_clippings 0
           scenario_key (tail (readlines (drop 1 truncated_clippings))) state0
           [lit "Highlight"; lit "on page 12 |";
            lit "Monday, 1 January 2024 00:00:00"] []).
  - reflexivity.
  - discriminate.
  - vm_compute. reflexivity.
  - vm_compute. reflexivity.
Defined.

(** X6. When the line read where a header is expected is blank, the loop
    ends there: the parse completes with the dictionaries built so far and
    the lines left are never read, whatever they hold. *)
Theorem blank_header_ends_parse dateutil_str clippings n ls st :
  turns dateutil_str n (first_header clippings).1 (first_header clippings).2
    state0 = Some ([], ls, st) ->
  parse dateutil_str clippings = Parsed st.
Proof.
  intros Hturns. rewrite parse_unfold.
  destruct (first_header_fuel clippings) as [Hnil | Hlen].
  - rewrite Hnil in *. destruct n; simpl in Hturns; [|done].
    injection Hturns as _ <-. by destruct (length _).
  - destruct (turns_loop _ _ _ _ _ _ _ _ _ Hturns Hlen) as [Hfuel ->].
    by destruct (_ - n).
Qed.

Lemma blank_header_ends_parse_witness :
  parse dateutil_examples blank_line_clippings = Parsed scenario_state.
Proof.
  apply (blank_header_ends_parse dateutil_examples blank_line_clippings 1
           (drop 6 (readlines (drop 1 blank_line_clippings)))).
  vm_compute. reflexivity.
Defined.

(** ** Invariants of the parse loop *)

(** What every turn that ends well keeps, the parse keeps. *)
Lemma parse_invariant (P : state -> Prop) dp :
  P state0 ->
  (forall line ls st line' ls' st',
     P st -> parse_record dp line ls st = Next line' ls' st' -> P st') ->
  forall clippings st, parse dp clippings = Parsed st -> P st.
Proof.
  intros H0 Hstep clippings st. rewrite parse_unfold.
  generalize (length (readlines (drop 1 clippings))) as fuel.
  generalize (first_header clippings).1 as line.
  generalize (first_header clippings).2 as ls.
  intros ls line fuel. revert line ls H0. generalize state0 as st0.
  induction fuel as [|fuel IH]; intros st0 line ls H0; simpl.
  - destruct line; [by intros [= <-]|done].
  - destruct line as [|c line]; [by intros [= <-]|].
    destruct (parse_record dp (c :: line) ls st0) as [l1 ls1 st1| |] eqn:Hrec;
      [|done..].
    apply IH. by eapply Hstep.
Qed.

(** X7. After a parse that completes the four dictionaries of the books
    have the same keys, every book has at least one hash, and every hash
    of a book has its text, type, location and date in the side tables:
    no later lookup of a book or of a hash can miss. *)
Theorem parsed_books_aligned dateutil_str clippings st :
  parse dateutil_str clippings = Parsed st ->
  (forall k,
     dict_mem (pub_title st) k = dict_mem (pub_hashes st) k /\
     dict_mem (pub_author st) k = dict_mem (pub_hashes st) k /\
     dict_mem (pub_notes st) k = dict_mem (pub_hashes st) k) /\
  (forall k hs,
     dict_get (pub_hashes st) k = Some hs ->
     hs <> [] /\
     forall h, h ∈ hs ->
       is_Some (dict_get (notes st) h) /\ is_Some (dict_get (types st) h) /\
       is_Some (dict_get (locations st) h) /\ is_Some (dict_get (dates st) h)).
Proof.
  intros [Hkeys Hbooks]%parse_well_formed. split; [done|].
  intros k hs Hk. destruct (Hbooks k hs Hk) as [Hne Hok]. split; [done|].
  intros h Hh. pose proof (book_ok_elem _ _ _ Hok Hh) as Hknown.
  unfold note_known in Hknown.
  repeat (apply andb_true_iff in Hknown as [Hknown ?]).
  repeat split; by apply dict_mem_get.
Qed.

Lemma parsed_books_aligned_witness :
  (forall k,
     dict_mem (pub_title scenario_state) k = dict_mem (pub_hashes scenario_state) k /\
     dict_mem (pub_author scenario_state) k = dict_mem (pub_hashes scenario_state) k /\
     dict_mem (pub_notes scenario_state) k = dict_mem (pub_hashes scenario_state) k) /\
  (forall k hs,
     dict_get (pub_hashes scenario_state) k = Some hs ->
     hs <> [] /\
     forall h, h ∈ hs ->
       is_Some (dict_get (notes scenario_state) h) /\
       is_Some (dict_get (types scenario_state) h) /\
       is_Some (dict_get (locations scenario_state) h) /\
       is_Some (dict_get (dates scenario_state) h)).
Proof.
  apply (parsed_books_aligned dateutil_examples scenario scenario_state).
  vm_compute. reflexivity.
Defined.

Lemma mapM_snoc {A B} (f : A -> result B) l x ys y :
  mapM f l = Ok ys -> f x = Ok y -> mapM f (l ++ [x]) = Ok (ys ++ [y]).
Proof.
  revert ys. induction l as [|a l IH]; intros ys; simpl.
  - intros [= <-] ->. done.
  - destruct (f a) as [b|]; [|done]. simpl.
    destruct (mapM f l) as [bs|]; [|done]. simpl.
    intros [= <-] Hx. by rewrite (IH bs eq_refl Hx).
Qed.

Lemma store_note_hashes_agree st key title author text h locstr type datestr st' :
  hashes_agree st ->
  note_hash_of text = Ok h ->
  store_note st key title author text h locstr type datestr = Ok st' ->
  hashes_agree st'.
Proof.
  intros [Hbooks Hnotes] Hh. unfold store_note, bind.
  assert (forall h' t, dict_get (dict_set (notes st) h text) h' = Some t ->
                       note_hash_of t = Ok h') as Hnotes'.
  { intros h' t. destruct (decide (h' = h)) as [->|Hne].
    - rewrite dict_get_set_eq. by intros [= <-].
    - rewrite dict_get_set_ne by done. apply Hnotes. }
  destruct (dict_mem (pub_notes st) key) eqn:Hmem; cbn [negb].
  - destruct (getitem (pub_notes st) key) as [texts|] eqn:Ht; [|done].
    destruct (getitem (pub_hashes st) key) as [old|] eqn:Hold; [|done].
    apply getitem_ok in Ht, Hold.
    intros [= Hst]. subst st'. split; simpl; [|done].
    intros k ts hs. destruct (decide (k = key)) as [->|Hne].
    + rewrite !dict_get_set_eq.
      intros [= <-] [= <-]. apply mapM_snoc; [by eapply Hbooks|done].
    + rewrite !dict_get_set_ne by done. apply Hbooks.
  - unfold getitem. rewrite !dict_get_set_eq.
    intros [= Hst]. subst st'. split; simpl; [|done].
    intros k ts hs. destruct (decide (k = key)) as [->|Hne].
    + rewrite !dict_get_set_eq.
      intros [= <-] [= <-]. simpl. by rewrite Hh.
    + rewrite !dict_get_set_ne by done. apply Hbooks.
Qed.

(** X8. After a parse that completes, the hash list of every book holds,
    item by item, the truncated digests of the book's text list, and every
    text of the notes table is filed under its own truncated digest. *)
Theorem parsed_hashes_agree dateutil_str clippings st :
  parse dateutil_str clippings = Parsed st ->
  (forall k ts hs,
     dict_get (pub_notes st) k = Some ts ->
     dict_get (pub_hashes st) k = Some hs ->
     mapM note_hash_of ts = Ok hs) /\
  (forall h t, dict_get (notes st) h = Some t -> note_hash_of t = Ok h).
Proof.
  revert clippings st. apply (parse_invariant hashes_agree); [by split|].
  intros line ls st line' ls' st' Hagree Hrec.
  apply parse_record_next in Hrec
    as (m & ms & raw & rest & h & _ & _ & Hh & Hst & _).
  eapply store_note_hashes_agree; [|exact Hh|exact Hst]. exact Hagree.
Qed.

Lemma parsed_hashes_agree_witness :
  (forall k ts hs,
     dict_get (pub_notes scenario_state) k = Some ts ->
     dict_get (pub_hashes scenario_state) k = Some hs ->
     mapM note_hash_of ts = Ok hs) /\
  (forall h t, dict_get (notes scenario_state) h = Some t -> note_hash_of t = Ok h).
Proof.
  apply (parsed_hashes_agree dateutil_examples scenario scenario_state).
  vm_compute. reflexivity.
Defined.

(** ** How a run ends *)

(** X9. No run ends on a [KeyError]: every lookup of a book or of a
    hash in the dictionaries, in the parser, the reconciler and the writer,
    finds its key.  The bound on the turns of the parse loop is never
    reached. *)
Theorem run_never_key_error dateutil_str nfkd today outdir clippings
    selected_titles :
  match run dateutil_str nfkd today outdir clippings selected_titles with
  | Aborted e _ => e <> KeyError
  | NoFuel => False
  | Finished _ _ | Hangs _ => True
  end.
Proof.
  pose proof (run_outcomes dateutil_str nfkd today outdir clippings
                selected_titles) as H.
  destruct (run dateutil_str nfkd today outdir clippings selected_titles)
    as [outdir' st'|e out|out|]; [done| |done|done].
  by destruct H as [-> | ->].
Qed.

(** The lines left after turns that ended well on lines of scalar values
    are lines of scalar values. *)
Lemma turns_scalar dp n : forall line0 ls0 st0 line ls st,
  Forall (Forall (fun c => scalar c = true)) ls0 -> well_formed st0 ->
  turns dp n line0 ls0 st0 = Some (line, ls, st) ->
  Forall (Forall (fun c => scalar c = true)) ls.
Proof.
  induction n as [|n IH]; intros line0 ls0 st0 line ls st Hls Hwf; simpl.
  - by intros [= _ <- _].
  - destruct line0 as [|c line0]; [done|].
    pose proof (parse_record_scalar dp (c :: line0) ls0 st0 Hls Hwf) as Hs.
    pose proof (parse_record_well_formed dp (c :: line0) ls0 st0 Hwf) as Hwf'.
    destruct (parse_record dp (c :: line0) ls0 st0) as [l1 ls1 st1| |];
      [|done..].
    by apply IH.
Qed.

(** X10. On a clippings file of Unicode scalar values, as decoding a
    UTF-8 file gives, the text of every record the loop reaches can be
    encoded to UTF-8: the computation of the hash does not raise
    [UnicodeEncodeError], and gives eight characters. *)
Theorem scalar_text_is_hashed dateutil_str clippings n line ls st raw rest :
  scalar_text clippings ->
  turns dateutil_str n (first_header clippings).1 (first_header clippings).2
    state0 = Some (line, ls, st) ->
  read_note_text (drop 2 ls) [] = Some (raw, rest) ->
  exists bytes,
    Sha256.encode_utf8 (postprocess raw) = Some bytes /\
    note_hash_of (postprocess raw) = Ok (take 8 (Sha256.hexdigest bytes)) /\
    length (take 8 (Sha256.hexdigest bytes)) = 8.
Proof.
  intros Hs Hturns Hraw.
  assert (Forall (Forall (fun c => scalar c = true)) ls) as Hls.
  { eapply turns_scalar; [|apply state0_well_formed|exact Hturns].
    pose proof (Forall_readlines clippings Hs) as Hl.
    unfold first_header. simpl.
    destruct (readlines (drop 1 clippings)); [done|].
    by apply Forall_cons in Hl as [_ Hl]. }
  destruct (Forall_read_note_text _ _ _ _
              (Forall_drop _ 2 _ Hls) (Forall_nil_2 _) Hraw) as [Hraw' _].
  destruct (encode_utf8_scalar (postprocess raw) (Forall_postprocess _ Hraw'))
    as [bytes Hbytes].
  exists bytes. split; [done|]. unfold note_hash_of. rewrite Hbytes.
  split; [done|].
  destruct (note_hash_of_spec (postprocess raw) (take 8 (Sha256.hexdigest bytes)))
    as (bytes' & _ & _ & Hlen & _); [|done].
  unfold note_hash_of. by rewrite Hbytes.
Qed.

Lemma scalar_text_is_hashed_witness :
  exists bytes,
    Sha256.encode_utf8 (postprocess (lit "Some  highlighted   text." ++ nl))
      = Some bytes /\
    note_hash_of (postprocess (lit "Some  highlighted   text." ++ nl))
      = Ok (take 8 (Sha256.hexdigest bytes)) /\
    length (take 8 (Sha256.hexdigest bytes)) = 8.
Proof.
  apply (scalar_text_is_hashed dateutil_examples scenario 0 scenario_key
           (tail (readlines (drop 1 scenario))) state0
           (lit "Some  highlighted   text." ++ nl) []).
  - unfold scalar_text. refine (bool_decide_unpack _ _). vm_compute. exact I.
  - reflexivity.
  - vm_compute. reflexivity.
Defined.

(** ** The reconciler as a whole *)

Lemma reordered_refl st : reordered st st.
Proof. by repeat split. Qed.

Lemma reordered_trans st1 st2 st3 :
  reordered st1 st2 -> reordered st2 st3 -> reordered st1 st3.
Proof.
  unfold reordered.
  intros (A1 & A2 & A3 & A4 & A5 & A6 & A7 & A8 & H12)
         (B1 & B2 & B3 & B4 & B5 & B6 & B7 & B8 & H23).
  repeat split; try congruence. intros k. by rewrite H23.
Qed.

Lemma same_but_book_reordered st st' k hs hs' :
  dict_get (pub_hashes st) k = Some hs ->
  dict_get (pub_hashes st') k = Some hs' ->
  hs' ≡ₚ hs ->
  same_but_book k st st' -> reordered st st'.
Proof.
  intros Hk Hk' Hperm (A1 & A2 & A3 & A4 & A5 & A6 & A7 & A8 & Hother).
  repeat split; try done. intros k'. unfold hashes_of.
  destruct (decide (k' = k)) as [->|Hne].
  - by rewrite Hk, Hk'.
  - by rewrite Hother.
Qed.

Lemma reconcile_book_reordered st k :
  well_formed st -> dict_mem (pub_hashes st) k = true ->
  exists st',
    reconcile_book st k = Ok st' /\ well_formed st' /\ reordered st st'.
Proof.
  intros Hwf Hmem.
  destruct (reconcile_book_well_formed st k Hwf Hmem) as (st' & Hrec & Hwf' & _).
  exists st'. split; [done|]. split; [done|].
  destruct Hwf as [Hkeys Hbooks]. apply dict_mem_get in Hmem as [hs Hk].
  destruct (Hbooks k hs Hk) as [Hne Hok].
  destruct hs as [|first hs0] eqn:Hhs; [done|]. rewrite <- Hhs in *.
  assert (hs !! 0 = Some first) as Hfirst by (by rewrite Hhs).
  destruct (note_known_spec st first) as (? & ? & loc0 & ? & _ & _ & Hloc0 & _).
  { eapply book_ok_elem; [done|]. rewrite Hhs. by left. }
  destruct (contains (lit "loc. ") loc0) eqn:Hb1;
    [|destruct (contains (lit "p.") loc0) eqn:Hb2].
  - rewrite (reconcile_book_loc st k hs first loc0) in Hrec by done.
    injection Hrec as <-.
    eapply same_but_book_reordered;
      [done|simpl; apply dict_get_set_eq|apply sort_on_perm|].
    by eapply set_pub_hashes_same_but_book.
  - rewrite (reconcile_book_page st k hs first loc0) in Hrec by done.
    injection Hrec as <-.
    eapply same_but_book_reordered;
      [done|simpl; apply dict_get_set_eq|apply sort_on_perm|].
    by eapply set_pub_hashes_same_but_book.
  - rewrite (reconcile_book_other st k hs first loc0) in Hrec by done.
    injection Hrec as <-.
    eapply same_but_book_reordered; [done|exact Hk|done|].
    apply print_same_but_book.
Qed.

Lemma foldM_reconcile_reordered ks : forall st,
  well_formed st ->
  Forall (fun k => dict_mem (pub_hashes st) k = true) ks ->
  exists st', foldM reconcile_book st ks = Ok st' /\ reordered st st'.
Proof.
  induction ks as [|k ks IH]; intros st Hwf Hks; simpl.
  - exists st. split; [done|apply reordered_refl].
  - apply Forall_cons in Hks as [Hk Hks].
    destruct (reconcile_book_reordered st k Hwf Hk) as (st1 & -> & Hwf1 & H1).
    simpl. destruct (IH st1 Hwf1) as (st' & Hfold & H2).
    + eapply Forall_impl; [exact Hks|]. intros k'. simpl.
      rewrite !dict_mem_keys.
      destruct H1 as (_ & _ & _ & _ & _ & _ & _ & H1 & _). by rewrite H1.
    + exists st'. split; [done|]. by eapply reordered_trans.
Qed.

(** X11. When the reconciler completes on what a completed parse left,
    it has lost nothing: the books, their titles, authors and texts and
    the four side tables are as they were, and the hash list of every book
    is a permutation of the list it was. *)
Theorem reconcile_keeps_every_note dateutil_str clippings st st' :
  parse dateutil_str clippings = Parsed st ->
  reconcile st = Ok st' ->
  reordered st st'.
Proof.
  intros Hwf%parse_well_formed Hrec.
  destruct (foldM_reconcile_reordered (dict_keys (pub_hashes st)) st Hwf
              (dict_keys_mem _)) as (st1 & Hrec1 & Hre).
  unfold reconcile in Hrec. rewrite Hrec in Hrec1. by injection Hrec1 as <-.
Qed.

Lemma reconcile_keeps_every_note_witness :
  reordered three_notes_state walden_state.
Proof.
  apply (reconcile_keeps_every_note dateutil_examples three_notes
           three_notes_state walden_state).
  - vm_compute. reflexivity.
  - vm_compute. reflexivity.
Defined.

(** ** The writer as a whole *)

Lemma append_file_extends (outdir : dict str) outfile ws fname text :
  dict_get outdir fname = Some text ->
  exists more, dict_get (append_file outdir outfile ws) fname = Some (text ++ more).
Proof.
  intros Hf. unfold append_file. destruct (decide (fname = outfile)) as [->|Hne].
  - rewrite dict_get_set_eq, Hf. simpl. eauto.
  - rewrite dict_get_set_ne by done. exists []. by rewrite app_nil_r.
Qed.

Lemma write_all_extends nfkd today st existing selected ks :
  forall (outdir outdir' : dict str) fname text,
    foldM (write_step nfkd today st existing selected) outdir ks = Ok outdir' ->
    dict_get outdir fname = Some text ->
    exists more, dict_get outdir' fname = Some (text ++ more).
Proof.
  induction ks as [|k ks IH]; intros outdir outdir' fname text; simpl.
  - intros [= <-] Hf. exists []. by rewrite app_nil_r.
  - destruct (write_step nfkd today st existing selected outdir k)
      as [outdir1|] eqn:Hstep; [|done].
    simpl. intros Hfold Hf.
    assert (exists more1, dict_get outdir1 fname = Some (text ++ more1))
      as [more1 H1].
    { unfold write_step, bind in Hstep.
      destruct (write_book _ _ _ _ _ _ _) as [[[outfile ws]|]|]; [| |done].
      - injection Hstep as <-. by apply append_file_extends.
      - injection Hstep as <-. exists []. by rewrite app_nil_r. }
    destruct (IH _ _ _ _ Hfold H1) as [more2 H2].
    exists (more1 ++ more2). by rewrite app_assoc.
Qed.

Lemma run_finished dp nfkd today outdir clippings selected outdir' st' :
  run dp nfkd today outdir clippings selected = Finished outdir' st' ->
  exists st,
    parse dp clippings = Parsed st /\ reconcile st = Ok st' /\
    write_all nfkd today st' (scan outdir) selected outdir = Ok outdir'.
Proof.
  unfold run. destruct (parse dp clippings) as [st| | |]; [|done..].
  destruct (reconcile st) as [st1|] eqn:Hrec; [|done].
  destruct (write_all _ _ _ _ _ _) as [o|] eqn:Hw; [|done].
  intros [= <- <-]. by exists st.
Qed.

(** X12. A run only appends: every file of the output directory is there
    after the run, and the text it held is the start of the text it
    holds. *)
Theorem run_only_appends dateutil_str nfkd today outdir clippings
    selected_titles outdir' st' :
  run dateutil_str nfkd today outdir clippings selected_titles
    = Finished outdir' st' ->
  forall fname text,
    dict_get outdir fname = Some text ->
    exists more, dict_get outdir' fname = Some (text ++ more).
Proof.
  intros (st & _ & _ & Hw)%run_finished fname text.
  by apply write_all_extends with (1 := Hw).
Qed.

Lemma run_only_appends_witness :
  second_run
    = Finished [(lit "short_notes.md", first_output ++ first_output)]
        scenario_reconciled /\
  forall fname text,
    dict_get (outdir_of first_run) fname = Some text ->
    exists more,
      dict_get [(lit "short_notes.md", first_output ++ first_output)] fname
      = Some (text ++ more).
Proof.
  assert (second_run
          = Finished [(lit "short_notes.md", first_output ++ first_output)]
              scenario_reconciled) as Hrun by (vm_compute; reflexivity).
  split; [exact Hrun|].
  exact (run_only_appends dateutil_examples nfkd_ascii today_example
           (outdir_of first_run) scenario [lit "Book Title"]
           [(lit "short_notes.md", first_output ++ first_output)]
           scenario_reconciled Hrun).
Defined.

Lemma write_all_nothing_new nfkd today st existing selected ks :
  forall (outdir outdir' : dict str),
    foldM (write_step nfkd today st existing selected) outdir ks = Ok outdir' ->
    forallb
      (fun k =>
         negb (existsb (str_eqb (default [] (dict_get (pub_title st) k)))
                 selected)
         || forallb (dict_mem existing) (hashes_of st k)) ks = true ->
    outdir' = outdir.
Proof.
  induction ks as [|k ks IH]; intros outdir outdir'; simpl.
  - by intros [= <-].
  - destruct (write_step nfkd today st existing selected outdir k)
      as [outdir1|] eqn:Hstep; [|done].
    simpl. intros Hfold [Hk Hks]%andb_true_iff.
    rewrite (IH _ _ Hfold Hks). clear IH Hfold Hks.
    unfold write_step, write_book, getitem, bind, hashes_of in *.
    destruct (dict_get (pub_title st) k) as [title|]; [|done].
    simpl in Hk. destruct (existsb (str_eqb title) selected); simpl in *;
      [|by injection Hstep as <-].
    destruct (dict_get (pub_notes st) k) as [texts|]; [|done].
    destruct (dict_get (pub_author st) k) as [author|]; [|done].
    destruct (routing (length texts) author title) as [fname short].
    destruct (dict_get (pub_hashes st) k) as [hs|]; [|done].
    simpl in Hk. rewrite count_new_zero, Hk in Hstep.
    by injection Hstep as <-.
Qed.

(** X13. When the parse and the reconciler are through and no selected
    book has a hash that the index lacks, the run finishes and leaves the
    output directory as it was: no file is made and no header is
    written. *)
Theorem run_writes_nothing_new dateutil_str nfkd today outdir clippings
    selected_titles st st' :
  parse dateutil_str clippings = Parsed st ->
  reconcile st = Ok st' ->
  nothing_new st' (scan outdir) selected_titles = true ->
  run dateutil_str nfkd today outdir clippings selected_titles
    = Finished outdir st'.
Proof.
  intros Hparse Hrec Hnone. unfold run. rewrite Hparse, Hrec.
  destruct (reconcile_well_formed st (parse_well_formed _ _ _ Hparse))
    as (st1 & Hrec1 & Hwf). rewrite Hrec in Hrec1. injection Hrec1 as <-.
  destruct (write_all_well_formed nfkd today st' (scan outdir) selected_titles
              outdir Hwf) as [outdir' Hw].
  rewrite Hw. f_equal. by apply write_all_nothing_new with (1 := Hw).
Qed.

Lemma run_writes_nothing_new_witness :
  run dateutil_examples nfkd_ascii today_example complete_outdir three_notes
    [lit "Walden"]
  = Finished complete_outdir walden_state.
Proof.
  apply (run_writes_nothing_new dateutil_examples nfkd_ascii today_example
           complete_outdir three_notes [lit "Walden"] three_notes_state
           walden_state).
  - vm_compute. reflexivity.
  - vm_compute. reflexivity.
  - vm_compute. reflexivity.
Defined.

(** ** The page branch of the reconciler *)

(** The pattern of a number at the head of the subject. *)
Lemma match_num a0 a rest bos :
  digits (a0 :: a) -> no_digit_ahead rest ->
  match_here regex_num ((a0 :: a) ++ rest) bos caps0 = Some ([a0 :: a], rest).
Proof.
  intros [Ha0 Ha]%Forall_cons Hrest.
  change regex_num with [GOpen; One Digit; Star Digit; GClose].
  cbn [app]. rewrite match_here_gopen, match_here_one. cbn [cls_ok].
  rewrite Ha0. apply match_star_digits; [done|done|].
  rewrite andb_false_l. cbn [push gopen opened closed caps0].
  rewrite push_all_opened.
  rewrite match_here_gclose. cbn [match_here gclose opened closed].
  by rewrite !rev_app_distr, !rev_involutive.
Qed.

Lemma search_num_skip pre s bos :
  Forall (fun c => isdecimal c = false) pre ->
  search_from regex_num (pre ++ s) bos
  = search_from regex_num s (bos && bool_decide (pre = [])).
Proof.
  intros Hpre. revert bos.
  induction Hpre as [|c pre Hc _ IH]; intros bos.
  - simpl. by rewrite andb_true_r.
  - change regex_num with [GOpen; One Digit; Star Digit; GClose] in *.
    cbn [app search_from]. rewrite match_here_gopen, match_here_one.
    cbn [cls_ok]. rewrite Hc.
    rewrite IH. by rewrite andb_false_l, andb_false_r.
Qed.

(** X14. The key of the page branch is the first run of decimal digits
    of the location string read as a number, whatever comes before and
    after it, and -1 when the string holds no digit, below every number
    read. *)
Theorem first_number_spec :
  (forall pre a rest,
     Forall (fun c => isdecimal c = false) pre ->
     digits a -> a <> [] -> no_digit_ahead rest ->
     first_number (pre ++ a ++ rest) = int_of_digits a) /\
  (forall loc,
     Forall (fun c => isdecimal c = false) loc -> first_number loc = (-1)%Z) /\
  (forall loc, (-1 <= first_number loc)%Z).
Proof.
  split; [|split].
  - intros pre a rest Hpre Ha Hane Hrest.
    destruct a as [|a0 a]; [done|].
    unfold first_number, search. rewrite search_num_skip by done.
    pose proof (match_num a0 a rest (true && bool_decide (pre = [])) Ha Hrest)
      as Hm.
    destruct ((a0 :: a) ++ rest) eqn:Hs; [done|].
    cbn [search_from]. by rewrite Hm.
  - intros loc Hloc. unfold first_number, search.
    rewrite <- (app_nil_r loc), search_num_skip by done. done.
  - intros loc. unfold first_number. destruct (search regex_num loc); [|done].
    pose proof (int_of_digits_nonneg (group l 0)). lia.
Qed.

Lemma first_number_spec_witness :
  first_number (lit "p." ++ lit "12" ++ lit "-13") = int_of_digits (lit "12").
Proof.
  apply (proj1 first_number_spec (lit "p.") (lit "12") (lit "-13")).
  - repeat constructor.
  - repeat constructor.
  - discriminate.
  - reflexivity.
Defined.

(** X15. In the page branch, taken when the location string of the
    book's first note holds p. and not loc., the book's hash list comes
    out as a permutation of itself in ascending order of the first number
    of each note's location string; only the book's key is printed, no
    pair of notes is compared. *)
Theorem page_branch_order st k hs first loc0 :
  dict_get (pub_hashes st) k = Some hs ->
  hs !! 0 = Some first ->
  dict_get (locations st) first = Some loc0 ->
  contains (lit "loc. ") loc0 = false ->
  contains (lit "p.") loc0 = true ->
  book_ok st hs = true ->
  exists st' hs',
    reconcile_book st k = Ok st' /\
    dict_get (pub_hashes st') k = Some hs' /\
    hs' ≡ₚ hs /\
    StronglySorted
      (fun h1 h2 => (rank first_number st h1 <= rank first_number st h2)%Z) hs' /\
    stdout st' = stdout st ++ [k].
Proof.
  intros Hk Hfirst Hloc0 Hb1 Hb2 Hok.
  eexists _, _. split; [by eapply reconcile_book_page|].
  split; [simpl; apply dict_get_set_eq|].
  split; [apply sort_on_perm|]. split; [apply sort_on_sorted|done].
Qed.

Lemma page_branch_order_witness :
  exists st' hs',
    reconcile_book page_notes_state emma = Ok st' /\
    dict_get (pub_hashes st') emma = Some hs' /\
    hs' ≡ₚ hashes_of page_notes_state emma /\
    StronglySorted
      (fun h1 h2 => (rank first_number page_notes_state h1
                     <= rank first_number page_notes_state h2)%Z) hs' /\
    stdout st' = stdout page_notes_state ++ [emma].
Proof.
  apply (page_branch_order page_notes_state emma
           (hashes_of page_notes_state emma)
           (hd [] (hashes_of page_notes_state emma)) (lit "p.30"));
    vm_compute; reflexivity.
Defined.

(** The pages of the example come out as 4, 12-13, 30. *)
Example page_notes_sorted :
  exists st',
    reconcile_book page_notes_state emma = Ok st' /\
    locations_of page_notes_state emma = [lit "p.30"; lit "p.4"; lit "p.12-13"] /\
    locations_of st' emma = [lit "p.4"; lit "p.12-13"; lit "p.30"].
Proof. eexists. split; [vm_compute; reflexivity|]. split; vm_compute; reflexivity. Qed.

(** ** Greedy repetition *)

(** When every longer repetition fails, the repetition stops at once. *)
Lemma match_star_fallback k r s : forall bos g,
  (forall x y, x <> [] -> s = x ++ y ->
     Forall (fun c => cls_ok k c = true) x ->
     match_here r y false (push_all x g) = None) ->
  match_here (Star k :: r) s bos g = match_here r s bos g.
Proof.
  induction s as [|c s IH]; intros bos g Hfail.
  - by rewrite match_here_star_nil.
  - rewrite match_here_star. destruct (cls_ok k c) eqn:Hc; [|done].
    rewrite IH.
    + assert (match_here r s false (push c g) = None) as ->; [|done].
      apply (Hfail [c] s); [done|done|by repeat constructor].
    + intros x y Hx -> Hok. apply (Hfail (c :: x) y); [done|done|].
      by constructor.
Qed.

(** The repetition takes [t] when the rest of the pattern matches after
    [t] and after no longer repetition. *)
Lemma match_star_split k r t : forall rest bos g res,
  Forall (fun c => cls_ok k c = true) t ->
  match_here r rest (bos && bool_decide (t = [])) (push_all t g) = Some res ->
  (forall x y, x <> [] -> rest = x ++ y ->
     Forall (fun c => cls_ok k c = true) x ->
     match_here r y false (push_all (t ++ x) g) = None) ->
  match_here (Star k :: r) (t ++ rest) bos g = Some res.
Proof.
  induction t as [|c t IH]; intros rest bos g res Ht Hres Hfail.
  - cbn [app]. simpl in Hres. rewrite andb_true_r in Hres.
    rewrite match_star_fallback; [done|].
    intros x y Hx Hxy Hok. by apply (Hfail x y).
  - apply Forall_cons in Ht as [Hc Ht]. cbn [app].
    rewrite match_here_star, Hc.
    rewrite (IH rest false (push c g) res); [done|done| |].
    + rewrite andb_false_r in Hres. by rewrite andb_false_l.
    + intros x y Hx Hxy Hok. by apply (Hfail x y).
Qed.

(** ** Title and author of a header line *)

Lemma match_title_tail a cl :
  Forall (fun c => cls_ok Any c = true) a ->
  match_here [Star Any; GClose; One (chr ")"); Eol] (a ++ lit ")") false
    {| closed := cl; opened := Some [] |}
  = Some (rev (a :: cl), []).
Proof.
  intros Ha. apply match_star_split; [done| |].
  - rewrite push_all_opened, andb_false_l, match_here_gclose.
    cbn. by rewrite app_nil_r, rev_involutive.
  - intros x y Hx Hxy _. destruct x as [|c [|c' x]]; [done| |].
    + injection Hxy as <- <-. by rewrite match_here_gclose.
    + by destruct x.
Qed.

Lemma match_title t a :
  Forall (fun c => cls_ok Any c = true) t ->
  Forall (fun c => cls_ok Any c = true) a ->
  40%N ∉ a ->
  match_here regex_title (t ++ lit "(" ++ a ++ lit ")") true caps0
  = Some ([t; a], []).
Proof.
  intros Ht Ha Hparen.
  change regex_title with
    [Bol; GOpen; Star Any; GClose; One (Chr 40); GOpen; Star Any; GClose;
     One (chr ")"); Eol].
  cbn [match_here]. fold match_here.
  change ((fix star (s : list N) (bos : bool) (g : caps) {struct s} := _)
            (t ++ lit "(" ++ a ++ lit ")") true (gopen caps0))
    with (match_here
            [Star Any; GClose; One (Chr 40); GOpen; Star Any; GClose;
             One (chr ")"); Eol]
            (t ++ lit "(" ++ a ++ lit ")") true (gopen caps0)).
  apply match_star_split; [done| |].
  - unfold gopen, caps0. cbn [closed]. rewrite push_all_opened.
    rewrite match_here_gclose. change (lit "(") with [40%N]. cbn [app].
    rewrite match_here_one. cbn [cls_ok]. rewrite N.eqb_refl.
    rewrite match_here_gopen.
    cbn [gclose gopen push opened closed].
    unfold gopen. cbn [closed]. rewrite match_title_tail by done.
    cbn. by rewrite app_nil_r, rev_involutive.
  - intros x y Hx Hxy _. rewrite match_here_gclose.
    destruct y as [|c y]; [by destruct (gclose _)|].
    rewrite match_here_one. cbn [cls_ok].
    destruct (N.eqb_spec c 40) as [->|Hne]; [|done].
    exfalso. destruct x as [|c x]; [done|].
    change (lit "(") with [40%N] in Hxy. injection Hxy as _ Hxy.
    assert (40%N ∈ a ++ lit ")") as Hin.
    { rewrite Hxy. apply elem_of_app. right. by left. }
    apply elem_of_app in Hin as [Hin|Hin]; [done|].
    by apply list_elem_of_singleton in Hin.
Qed.


(** A match of a pattern that holds a literal character reads that
    character in the subject, and the rest of the pattern matches what
    comes after it. *)
Lemma match_needs_char c r2 : forall r1 s bos g res,
  match_here (r1 ++ One (Chr c) :: r2) s bos g = Some res ->
  exists pre post bos' g',
    s = pre ++ c :: post /\ match_here r2 post bos' g' = Some res.
Proof.
  induction r1 as [|i r1 IH]; intros s bos g res.
  - cbn [app]. destruct s as [|c' s]; [done|].
    rewrite match_here_one. cbn [cls_ok].
    destruct (N.eqb_spec c' c) as [->|]; [|done].
    intros H. by exists [], s, false, (push c g).
  - cbn [app]. destruct i as [k|k| | | |].
    + destruct s as [|c' s]; [done|]. rewrite match_here_one.
      destruct (cls_ok k c'); [|done].
      intros (pre & post & bos' & g' & -> & H)%IH.
      by exists (c' :: pre), post, bos', g'.
    + revert bos g. induction s as [|c' s IHs]; intros bos g.
      * rewrite match_here_star_nil. apply IH.
      * rewrite match_here_star. destruct (cls_ok k c'); [|apply IH].
        destruct (match_here (Star k :: r1 ++ One (Chr c) :: r2) s false
                    (push c' g)) as [res'|] eqn:Hin; [|apply IH].
        intros [= <-].
        apply IHs in Hin as (pre & post & bos' & g' & -> & H).
        by exists (c' :: pre), post, bos', g'.
    + rewrite match_here_gopen. apply IH.
    + rewrite match_here_gclose. apply IH.
    + cbn [match_here]. destruct bos; [apply IH|done].
    + cbn [match_here]. destruct s as [|c' [|c'' s]]; [apply IH| |done].
      destruct (c' =? 10)%N; [apply IH|done].
Qed.

Lemma findall_head r s gs rest :
  match_here r s true caps0 = Some (gs, rest) ->
  exists more, findall r s = gs :: more.
Proof.
  intros H. unfold findall. destruct s; simpl; rewrite H; eauto.
Qed.

Lemma findall_anchored r s :
  match_here (Bol :: r) s true caps0 = None -> findall (Bol :: r) s = [].
Proof.
  intros H. unfold findall. destruct s as [|c s]; cbn [findall_from]; rewrite H;
    [done|]. apply findall_from_anchored.
Qed.

Lemma regex_title_needs key res :
  match_here regex_title key true caps0 = Some res ->
  lparen ∈ key /\ (last key = Some rparen \/ last key = Some newline).
Proof.
  intros H.
  pose proof (match_needs_char 40
                [GOpen; Star Any; GClose; One (chr ")"); Eol]
                [Bol; GOpen; Star Any; GClose] key true caps0 res H)
    as (pre & post & _ & _ & -> & _).
  split; [apply elem_of_app; right; by left|].
  pose proof (match_needs_char 41 [Eol]
                [Bol; GOpen; Star Any; GClose; One (chr "("); GOpen; Star Any;
                 GClose] (pre ++ 40%N :: post) true caps0 res H)
    as (pre' & post' & bos' & g' & -> & Heol).
  cbn [match_here] in Heol. destruct post' as [|c [|c' post']]; [| |done].
  - left. by rewrite last_snoc.
  - destruct (N.eqb_spec c 10) as [->|]; [|done]. right.
    change (pre' ++ [41; 10]%N) with (pre' ++ [41%N] ++ [10%N]).
    by rewrite app_assoc, last_snoc.
Qed.

(** X16. A header line that ends in a parenthesised part splits at its
    last opening parenthesis: the title is what comes before it and the
    author what stands between it and the closing parenthesis.  A header
    line without an opening parenthesis, or that does not end in a closing
    one, is the title as a whole, with the author Unknown. *)
Theorem title_author_spec :
  (forall t a,
     newline ∉ t -> newline ∉ a -> lparen ∉ a ->
     title_author (t ++ lit "(" ++ a ++ lit ")") = (t, a)) /\
  (forall key, lparen ∉ key -> title_author key = (key, lit "Unknown")) /\
  (forall key,
     last key <> Some rparen -> last key <> Some newline ->
     title_author key = (key, lit "Unknown")).
Proof.
  assert (forall s, newline ∉ s -> Forall (fun c => cls_ok Any c = true) s)
    as Hany.
  { intros s Hs. apply Forall_forall. intros c Hc. cbn.
    destruct (N.eqb_spec c 10) as [->|]; [done|done]. }
  assert (forall key,
            ~ (lparen ∈ key /\
               (last key = Some rparen \/ last key = Some newline)) ->
            title_author key = (key, lit "Unknown")) as Hnone.
  { intros key Hkey. unfold title_author.
    change regex_title with (Bol :: tail regex_title).
    rewrite (findall_anchored (tail regex_title) key); [done|].
    destruct (match_here (Bol :: tail regex_title) key true caps0)
      as [res|] eqn:Hm; [|done].
    by apply regex_title_needs in Hm. }
  split; [|split].
  - intros t a Ht Ha Hparen. unfold title_author.
    destruct (findall_head _ _ _ _
                (match_title t a (Hany t Ht) (Hany a Ha) Hparen)) as [more ->].
    done.
  - intros key Hkey. apply Hnone. tauto.
  - intros key H1 H2. apply Hnone. tauto.
Qed.

Lemma title_author_spec_witness :
  title_author (lit "Emma (Penguin Classics) " ++ lit "(" ++ lit "Jane Austen" ++ lit ")")
  = (lit "Emma (Penguin Classics) ", lit "Jane Austen").
Proof.
  apply (proj1 title_author_spec (lit "Emma (Penguin Classics) ")
           (lit "Jane Austen")).
  - refine (bool_decide_unpack _ _). vm_compute. exact I.
  - refine (bool_decide_unpack _ _). vm_compute. exact I.
  - refine (bool_decide_unpack _ _). vm_compute. exact I.
Defined.

(** ** The scan of the output directory *)

Lemma hex_digit_cls c :
  cls_ok (Or (range "a" "f") (Or (range "A" "F") (range "0" "9"))) c
  = hex_digit c.
Proof. reflexivity. Qed.

Lemma hex_digit_not_space c : hex_digit c = true -> isspace c = false.
Proof.
  unfold hex_digit. intros H.
  assert (48 <= c <= 102)%N as Hc.
  { repeat (apply orb_true_iff in H as [H|H]);
      apply andb_true_iff in H as [?%N.leb_le ?%N.leb_le]; lia. }
  unfold isspace.
  replace (c <=? 13)%N with false by (symmetry; apply N.leb_gt; lia).
  replace (c <=? 32)%N with false by (symmetry; apply N.leb_gt; lia).
  replace (c =? 133)%N with false by (symmetry; apply N.eqb_neq; lia).
  replace (c =? 160)%N with false by (symmetry; apply N.eqb_neq; lia).
  replace (c =? 5760)%N with false by (symmetry; apply N.eqb_neq; lia).
  replace (8192 <=? c)%N with false by (symmetry; apply N.leb_gt; lia).
  replace (c =? 8232)%N with false by (symmetry; apply N.eqb_neq; lia).
  replace (c =? 8233)%N with false by (symmetry; apply N.eqb_neq; lia).
  replace (c =? 8239)%N with false by (symmetry; apply N.eqb_neq; lia).
  replace (c =? 8287)%N with false by (symmetry; apply N.eqb_neq; lia).
  replace (c =? 12288)%N with false by (symmetry; apply N.eqb_neq; lia).
  by rewrite !andb_false_r.
Qed.

Lemma closed_push_all x g : closed (push_all x g) = closed g.
Proof.
  revert g. induction x as [|c x IH]; intros g; [done|].
  unfold push_all in *. cbn [foldl]. rewrite IH. unfold push.
  by destruct (opened g).
Qed.

Lemma push_all_none x cl :
  push_all x {| closed := cl; opened := None |}
  = {| closed := cl; opened := None |}.
Proof. induction x as [|c x IH]; [done|]. exact IH. Qed.

(** A repetition that ends the pattern always matches. *)
Lemma match_star_end k s : forall bos g,
  exists rest, match_here [Star k] s bos g = Some (rev (closed g), rest).
Proof.
  induction s as [|c s IH]; intros bos g.
  - rewrite match_here_star_nil. by exists [].
  - rewrite match_here_star. destruct (cls_ok k c); [|by exists (c :: s)].
    destruct (IH false (push c g)) as [rest ->].
    exists rest. unfold push. by destruct (opened g).
Qed.

(** What a repetition took when the pattern matched. *)
Lemma match_star_inv k r s : forall bos g res,
  match_here (Star k :: r) s bos g = Some res ->
  exists x y,
    s = x ++ y /\ Forall (fun c => cls_ok k c = true) x /\
    match_here r y (bos && bool_decide (x = [])) (push_all x g) = Some res.
Proof.
  induction s as [|c s IH]; intros bos g res.
  - rewrite match_here_star_nil. intros H. exists [], [].
    by rewrite andb_true_r.
  - rewrite match_here_star.
    assert (match_here r (c :: s) bos g = Some res ->
            exists x y,
              c :: s = x ++ y /\ Forall (fun c => cls_ok k c = true) x /\
              match_here r y (bos && bool_decide (x = [])) (push_all x g)
              = Some res) as Hstop.
    { intros H. exists [], (c :: s). by rewrite andb_true_r. }
    destruct (cls_ok k c) eqn:Hc; [|done].
    destruct (match_here (Star k :: r) s false (push c g)) as [res'|] eqn:Hin;
      [|done].
    intros [= <-]. apply IH in Hin as (x & y & -> & Hx & Hm).
    exists (c :: x), y. split; [done|]. split; [by constructor|].
    by rewrite andb_false_r.
Qed.

(** A hash line: two dots, whitespace, a run of hexadecimal digits. *)
Lemma match_hashline ws h rest :
  Forall (fun c => isspace c = true) ws ->
  h <> [] -> Forall (fun c => hex_digit c = true) h -> no_hex_ahead rest ->
  exists rest',
    match_here regex_hashline (lit ".." ++ ws ++ h ++ rest) true caps0
    = Some ([h], rest').
Proof.
  intros Hws Hne Hh Hrest. destruct h as [|h0 h]; [done|].
  apply Forall_cons in Hh as [Hh0 Hh].
  destruct (match_star_end Space rest false
              {| closed := [h0 :: h]; opened := None |}) as [rest' Hend].
  exists rest'.
  change regex_hashline with
    [Bol; One (Chr 46); One (Chr 46); Star Space; GOpen;
     One (Or (range "a" "f") (Or (range "A" "F") (range "0" "9")));
     Star (Or (range "a" "f") (Or (range "A" "F") (range "0" "9")));
     GClose; Star Space].
  change (lit "..") with [46; 46]%N. cbn [app].
  cbn [match_here]. fold match_here. cbn [cls_ok]. rewrite N.eqb_refl.
  change ((fix star (s : list N) (bos : bool) (g : caps) {struct s} := _)
            (ws ++ h0 :: h ++ rest) false (push 46%N (push 46%N caps0)))
    with (match_here
            [Star Space; GOpen;
             One (Or (range "a" "f") (Or (range "A" "F") (range "0" "9")));
             Star (Or (range "a" "f") (Or (range "A" "F") (range "0" "9")));
             GClose; Star Space]
            (ws ++ (h0 :: h) ++ rest) false caps0).
  apply match_star_split; [done| |].
  - unfold caps0. rewrite push_all_none, andb_false_l, match_here_gopen.
    cbn [app]. rewrite match_here_one, hex_digit_cls, Hh0.
    apply match_star_split.
    + apply Forall_forall. intros c Hc. rewrite hex_digit_cls.
      by apply (proj1 (Forall_forall _ _) Hh).
    + unfold gopen, push. cbn [opened closed].
      rewrite push_all_opened, andb_false_l, match_here_gclose.
      unfold gclose. cbn [opened closed].
      rewrite rev_app_distr, rev_involutive. exact Hend.
    + intros x y Hx -> Hok. destruct x as [|c x]; [done|].
      apply Forall_cons in Hok as [Hc _]. rewrite hex_digit_cls in Hc.
      simpl in Hrest. congruence.
  - intros x y Hx Hxy Hok. destruct x as [|c x]; [done|].
    injection Hxy as <- _. apply Forall_cons in Hok as [Hc _].
    cbn [cls_ok] in Hc. apply hex_digit_not_space in Hh0. congruence.
Qed.

(** What a match of the hash-line pattern has read. *)
Lemma match_hashline_inv line gs r :
  match_here regex_hashline line true caps0 = Some (gs, r) ->
  exists ws h rest,
    line = lit ".." ++ ws ++ h ++ rest /\
    Forall (fun c => isspace c = true) ws /\
    h <> [] /\ Forall (fun c => hex_digit c = true) h /\ gs = [h].
Proof.
  change regex_hashline with
    [Bol; One (Chr 46); One (Chr 46); Star Space; GOpen;
     One (Or (range "a" "f") (Or (range "A" "F") (range "0" "9")));
     Star (Or (range "a" "f") (Or (range "A" "F") (range "0" "9")));
     GClose; Star Space].
  cbn [match_here]. fold match_here.
  destruct line as [|c1 [|c2 s]]; [done| |].
  { by destruct (cls_ok (Chr 46) c1). }
  cbn [cls_ok].
  destruct (N.eqb_spec c1 46) as [->|]; [|done].
  destruct (N.eqb_spec c2 46) as [->|]; [|done].
  change ((fix star (s : list N) (bos : bool) (g : caps) {struct s} := _)
            s false (push 46%N (push 46%N caps0)))
    with (match_here
            [Star Space; GOpen;
             One (Or (range "a" "f") (Or (range "A" "F") (range "0" "9")));
             Star (Or (range "a" "f") (Or (range "A" "F") (range "0" "9")));
             GClose; Star Space] s false caps0).
  intros (ws & y & -> & Hws & Hm)%match_star_inv.
  unfold caps0 in Hm. rewrite push_all_none, match_here_gopen in Hm.
  destruct y as [|h0 y]; [done|]. rewrite match_here_one, hex_digit_cls in Hm.
  destruct (hex_digit h0) eqn:Hh0; [|done].
  apply match_star_inv in Hm as (h & rest & -> & Hh & Hm).
  unfold gopen, push in Hm. cbn [opened closed] in Hm.
  rewrite push_all_opened, match_here_gclose in Hm.
  unfold gclose in Hm. cbn [opened closed] in Hm.
  destruct (match_star_end Space rest (false && bool_decide (h = []))
              {| closed := [rev (rev h ++ [h0])]; opened := None |})
    as [rest' Hend].
  rewrite Hend in Hm. injection Hm as <- <-.
  exists ws, (h0 :: h), rest. split; [done|]. split; [done|]. split; [done|].
  split.
  - constructor; [done|]. eapply Forall_impl; [exact Hh|].
    intros c. by rewrite hex_digit_cls.
  - cbn. by rewrite rev_app_distr, rev_involutive.
Qed.

Lemma scan_line_hash fname idx ws h rest :
  Forall (fun c => isspace c = true) ws ->
  h <> [] -> Forall (fun c => hex_digit c = true) h -> no_hex_ahead rest ->
  scan_line fname idx (lit ".." ++ ws ++ h ++ rest) = dict_set idx h fname.
Proof.
  intros Hws Hne Hh Hrest.
  destruct (match_hashline ws h rest Hws Hne Hh Hrest) as [rest' Hm].
  destruct (findall_head _ _ _ _ Hm) as [more Hf].
  unfold scan_line. by rewrite Hf.
Qed.

(** A line leaves the index as it is or files one hash it holds. *)
Lemma scan_line_cases fname idx line :
  scan_line fname idx line = idx \/
  exists ws h rest,
    line = lit ".." ++ ws ++ h ++ rest /\
    Forall (fun c => isspace c = true) ws /\
    h <> [] /\ Forall (fun c => hex_digit c = true) h /\
    scan_line fname idx line = dict_set idx h fname.
Proof.
  unfold scan_line.
  destruct (match_here regex_hashline line true caps0) as [[gs r]|] eqn:Hm.
  - right. destruct (findall_head _ _ _ _ Hm) as [more ->].
    apply match_hashline_inv in Hm as (ws & h & rest & -> & Hws & Hne & Hh & ->).
    by exists ws, h, rest.
  - left. change regex_hashline with (Bol :: tail regex_hashline) in *.
    by rewrite findall_anchored.
Qed.

Lemma scan_line_keeps fname idx line h :
  dict_mem idx h = true -> dict_mem (scan_line fname idx line) h = true.
Proof.
  intros Hh. destruct (scan_line_cases fname idx line)
    as [->|(_ & h' & _ & _ & _ & _ & _ & ->)]; [done|].
  rewrite dict_mem_set, Hh. apply orb_true_r.
Qed.

Lemma scan_lines_keep fname ls : forall idx h,
  dict_mem idx h = true -> dict_mem (foldl (scan_line fname) idx ls) h = true.
Proof.
  induction ls as [|l ls IH]; intros idx h Hh; [done|].
  simpl. by apply IH, scan_line_keeps.
Qed.

Lemma scan_file_keeps idx f h :
  dict_mem idx h = true -> dict_mem (scan_file idx f) h = true.
Proof.
  intros Hh. unfold scan_file. destruct (is_markdown f.1); [|done].
  by apply scan_lines_keep.
Qed.

Lemma scan_files_keep files : forall idx h,
  dict_mem idx h = true -> dict_mem (foldl scan_file idx files) h = true.
Proof.
  induction files as [|f files IH]; intros idx h Hh; [done|].
  simpl. by apply IH, scan_file_keeps.
Qed.

(** X17. Every hash line of a Markdown file of the output directory, two
    dots, whitespace if any and a run of hexadecimal digits in either
    case, puts that run in the index of existing hashes. *)
Theorem scan_finds_hash_lines outdir fname text ws h rest :
  (fname, text) ∈ outdir ->
  is_markdown fname = true ->
  lit ".." ++ ws ++ h ++ rest ∈ readlines text ->
  Forall (fun c => isspace c = true) ws ->
  h <> [] -> Forall (fun c => hex_digit c = true) h -> no_hex_ahead rest ->
  dict_mem (scan outdir) h = true.
Proof.
  intros Hfile Hmd Hline Hws Hne Hh Hrest. unfold scan.
  generalize (@nil (list N * list N)) as idx.
  induction outdir as [|f files IH]; intros idx.
  - by apply elem_of_nil in Hfile.
  - simpl. apply elem_of_cons in Hfile as [<-|Hfile]; [|by apply IH].
    apply scan_files_keep. unfold scan_file. simpl. rewrite Hmd.
    clear IH. revert idx.
    induction (readlines text) as [|l ls IHl]; intros idx.
    + by apply elem_of_nil in Hline.
    + simpl. apply elem_of_cons in Hline as [<-|Hline]; [|by apply IHl].
      apply scan_lines_keep. rewrite scan_line_hash by done.
      by rewrite dict_mem_set, str_eqb_refl.
Qed.

Lemma scan_finds_hash_lines_witness :
  dict_mem (scan earlier_outdir) (lit "7708a9c0") = true.
Proof.
  apply (scan_finds_hash_lines earlier_outdir
           (lit "Henry David Thoreau - Walden.md")
           (default [] (dict_get earlier_outdir
                          (lit "Henry David Thoreau - Walden.md")))
           (lit " ") (lit "7708a9c0")
           (lit " ; Highlight ; loc. 50-60 ; 2024-01-01 11:00:00" ++ nl)).
  - refine (bool_decide_unpack _ _). vm_compute. exact I.
  - reflexivity.
  - refine (bool_decide_unpack _ _). vm_compute. exact I.
  - refine (bool_decide_unpack _ _). vm_compute. exact I.
  - discriminate.
  - refine (bool_decide_unpack _ _). vm_compute. exact I.
  - reflexivity.
Defined.

(** X18. Every entry of the index of existing hashes comes from a hash
    line: its key is a non-empty run of hexadecimal digits that follows
    two dots and whitespace at the start of a line of a Markdown file of
    the output directory, and its value is the name of that file. *)
Theorem scan_index_sound outdir h fname :
  dict_get (scan outdir) h = Some fname ->
  is_markdown fname = true /\ h <> [] /\
  Forall (fun c => hex_digit c = true) h /\
  exists text ws rest,
    (fname, text) ∈ outdir /\
    lit ".." ++ ws ++ h ++ rest ∈ readlines text /\
    Forall (fun c => isspace c = true) ws.
Proof.
  set (Q := fun (files : list (list N * list N)) (idx : list (list N * list N)) =>
              forall h fname,
                dict_get idx h = Some fname ->
                is_markdown fname = true /\ h <> [] /\
                Forall (fun c => hex_digit c = true) h /\
                exists text ws rest,
                  (fname, text) ∈ files /\
                  lit ".." ++ ws ++ h ++ rest ∈ readlines text /\
                  Forall (fun c => isspace c = true) ws).
  enough (Q outdir (scan outdir)) as H by apply H.
  assert (forall files idx, Q outdir idx ->
            (forall x, x ∈ files -> x ∈ outdir) ->
            Q outdir (foldl scan_file idx files)) as Hfold.
  { induction files as [|[f text] files IH]; intros idx Hidx Hsub; [done|].
    simpl. apply IH; [|intros x Hx; apply Hsub; by right].
    unfold scan_file. simpl. destruct (is_markdown f) eqn:Hmd; [|done].
    assert (forall ls idx, Q outdir idx ->
              (forall l, l ∈ ls -> l ∈ readlines text) ->
              Q outdir (foldl (scan_line f) idx ls)) as Hlines;
      [|by apply Hlines].
    clear idx Hidx. induction ls as [|l ls IHl]; intros idx Hidx Hls; [done|].
    simpl. apply IHl; [|intros l' Hl'; apply Hls; by right].
    destruct (scan_line_cases f idx l)
      as [->|(ws & h' & rest & Hl & Hws & Hne & Hh & ->)]; [done|].
    intros h1 f1. destruct (decide (h1 = h')) as [->|Hneq].
    - rewrite dict_get_set_eq. intros [= <-].
      split; [done|]. split; [done|]. split; [done|].
      exists text, ws, rest. split; [apply Hsub; by left|]. split; [|done].
      rewrite <- Hl. apply Hls. by left.
    - rewrite dict_get_set_ne by done. apply Hidx. }
  apply Hfold; [|done]. intros h1 f1. done.
Qed.

Lemma scan_index_sound_witness :
  is_markdown (lit "Henry David Thoreau - Walden.md") = true /\
  lit "07f938c3" <> [] /\
  Forall (fun c => hex_digit c = true) (lit "07f938c3") /\
  exists text ws rest,
    (lit "Henry David Thoreau - Walden.md", text) ∈ earlier_outdir /\
    lit ".." ++ ws ++ lit "07f938c3" ++ rest ∈ readlines text /\
    Forall (fun c => isspace c = true) ws.
Proof.
  apply (scan_index_sound earlier_outdir (lit "07f938c3")
           (lit "Henry David Thoreau - Walden.md")).
  vm_compute. reflexivity.
Defined.

(** ** What the writer's lines are to the scan *)

(** X19. The metadata line the writer puts before a note is never a hash
    line: whatever the note's location, page, date, author and title, the
    scan of that line leaves the index as it is. *)
Theorem comment_line_not_indexed fname existing_hashes short author title
    note_loc note_page note_date :
  scan_line fname existing_hashes
    (comment_of short author title (locstr_of note_loc note_page) note_date
     ++ nl)
  = existing_hashes.
Proof. unfold scan_line. by rewrite comment_line_has_no_hash. Qed.

(** ** Text normalisation *)

Lemma rstrip_spaces_r s ws :
  Forall (fun c => isspace c = true) ws -> rstrip (s ++ ws) = rstrip s.
Proof.
  intros Hws. unfold rstrip. rewrite rev_app_distr, lstrip_spaces; [done|].
  apply Forall_forall. intros x Hx. rewrite Forall_forall in Hws. apply Hws.
  apply list_elem_of_In. apply in_rev. by apply list_elem_of_In.
Qed.

Lemma lstrip_all_spaces ws :
  Forall (fun c => isspace c = true) ws -> lstrip ws = [].
Proof. intros H. by rewrite <- (app_nil_r ws), lstrip_spaces. Qed.

Lemma strip_spaces_around ws1 s ws2 :
  Forall (fun c => isspace c = true) ws1 ->
  Forall (fun c => isspace c = true) ws2 ->
  strip (ws1 ++ s ++ ws2) = strip s.
Proof.
  intros H1 H2. unfold strip. rewrite lstrip_spaces by done.
  destruct (lstrip_split s) as (ws & Hws & Hs & Hr).
  destruct Hr as [Hnil | (c & r & Hcr & Hc)].
  - rewrite Hnil. rewrite Hnil, app_nil_r in Hs. subst s.
    rewrite lstrip_all_spaces; [done|]. by apply Forall_app.
  - rewrite Hs at 1. rewrite <- app_assoc, lstrip_spaces by done.
    rewrite Hcr. cbn [app]. rewrite lstrip_nonspace by done.
    exact (rstrip_spaces_r (c :: r) ws2 H2).
Qed.

Lemma strip_shape s :
  strip s = [] \/
  exists c r r' d,
    strip s = c :: r /\ isspace c = false /\
    strip s = r' ++ [d] /\ isspace d = false.
Proof.
  unfold strip. destruct (lstrip_split s) as (_ & _ & _ & Hl).
  destruct Hl as [-> | (c & r & Hcr & Hc)]; [by left|].
  destruct (rstrip_split (lstrip s)) as (ws & Hws & Hs & Hr).
  destruct Hr as [Hnil | (r' & d & Hrd & Hd)].
  - rewrite Hnil in Hs. simpl in Hs. rewrite Hcr in Hs. subst ws.
    apply Forall_cons in Hws as [Hc' _]. congruence.
  - right. rewrite Hrd. rewrite Hrd, Hcr in Hs.
    destruct r' as [|c' r'].
    + injection Hs as -> _. by exists d, [], [], d.
    + injection Hs as -> _. by exists c', (r' ++ [d]), (c' :: r'), d.
Qed.

Lemma strip_strip s : strip (strip s) = strip s.
Proof.
  destruct (strip_shape s) as [-> | (c & r & r' & d & Hcr & Hc & Hrd & Hd)];
    [done|].
  unfold strip at 1. rewrite Hcr at 1. rewrite lstrip_nonspace by done.
  rewrite <- Hcr, Hrd. rewrite <- (app_nil_r (r' ++ [d])) at 1.
  by apply rstrip_app.
Qed.

(** X20. The normalised text of a note has no whitespace at either end,
    and whitespace around the text gathered from the file does not show in
    it: records that differ only in blank lines or spaces around their text
    get the same text, hence the same hash.  A text of whitespace only
    becomes the empty text. *)
Theorem postprocess_trims :
  (forall text, strip (postprocess text) = postprocess text) /\
  (forall ws1 text ws2,
     Forall (fun c => isspace c = true) ws1 ->
     Forall (fun c => isspace c = true) ws2 ->
     postprocess (ws1 ++ text ++ ws2) = postprocess text) /\
  (forall text, Forall (fun c => isspace c = true) text -> postprocess text = []).
Proof.
  split; [|split].
  - intros text. rewrite postprocess_order. apply strip_strip.
  - intros ws1 text ws2 H1 H2. unfold postprocess.
    by rewrite strip_spaces_around.
  - intros text Htext. unfold postprocess, strip.
    by rewrite lstrip_all_spaces.
Qed.

Lemma postprocess_trims_witness :
  postprocess (nl ++ lit "Our life is frittered away by detail." ++ lit "  " ++ nl)
  = postprocess (lit "Our life is frittered away by detail.").
Proof.
  apply (proj1 (proj2 postprocess_trims) nl
           (lit "Our life is frittered away by detail.") (lit "  " ++ nl)).
  - refine (bool_decide_unpack _ _). vm_compute. exact I.
  - refine (bool_decide_unpack _ _). vm_compute. exact I.
Defined.

(** ** From the information line to the sorting branch *)

(** The first match [findall] returns is a match at some position. *)
Lemma findall_from_first r : forall s bos skip m more,
  findall_from r s bos skip = m :: more ->
  exists s' bos' rest, match_here r s' bos' caps0 = Some (m, rest).
Proof.
  induction s as [|c s IH]; intros bos skip m more.
  - destruct skip; simpl; [|done].
    destruct (match_here r [] bos caps0) as [[gs rest]|] eqn:Hm; [|done].
    intros [= <- _]. eauto.
  - destruct skip as [|k]; simpl.
    + destruct (match_here r (c :: s) bos caps0) as [[gs rest]|] eqn:Hm.
      * intros [= <- _]. eauto.
      * apply IH.
    + apply IH.
Qed.

(** Literal characters before the first group leave the groups alone. *)
Lemma match_chars_inv p r : forall s bos cl res,
  match_here (map (fun c => One (Chr c)) p ++ r) s bos
    {| closed := cl; opened := None |} = Some res ->
  exists s' bos',
    match_here r s' bos' {| closed := cl; opened := None |} = Some res.
Proof.
  induction p as [|x p IH]; intros s bos cl res; cbn [map app]; [eauto|].
  destruct s as [|c s]; [done|]. rewrite match_here_one.
  destruct (cls_ok (Chr x) c); [|done]. apply IH.
Qed.

(** A pattern made of a literal and one group of a repeated class captures
    a non-empty run of that class. *)
Lemma match_literal_group_inv p k s bos gs rest :
  match_here (chars p ++ [GOpen] ++ plus k ++ [GClose]) s bos caps0
  = Some (gs, rest) ->
  exists w, gs = [w] /\ w <> [] /\ Forall (fun c => cls_ok k c = true) w.
Proof.
  unfold chars, caps0.
  intros (s' & bos' & Hm)%match_chars_inv.
  cbn [app plus] in Hm. rewrite match_here_gopen in Hm.
  destruct s' as [|c s']; [done|]. rewrite match_here_one in Hm.
  destruct (cls_ok k c) eqn:Hc; [|done].
  apply match_star_inv in Hm as (x & y & -> & Hx & Hm).
  unfold gopen, push in Hm. cbn [opened closed] in Hm.
  rewrite push_all_opened, match_here_gclose in Hm.
  cbn in Hm. injection Hm as <- <-.
  exists (c :: x). rewrite rev_app_distr, rev_involutive.
  split; [done|]. split; [done|]. by constructor.
Qed.

Lemma first_group_literal p k s :
  Forall (fun c => cls_ok k c = true)
    (first_group (chars p ++ [GOpen] ++ plus k ++ [GClose]) s).
Proof.
  unfold first_group, findall.
  destruct (findall_from _ s true 0) as [|m more] eqn:Hf; [done|].
  apply findall_from_first in Hf as (s' & bos' & rest & Hm).
  by apply match_literal_group_inv in Hm as (w & -> & _ & Hw).
Qed.

Lemma contains_head sub s x :
  contains (x :: sub) s = true -> x ∈ s.
Proof.
  induction s as [|c s IH]; simpl; [done|].
  intros [H|H]%orb_true_iff.
  - apply andb_true_iff in H as [->%N.eqb_eq _]. by left.
  - right. by apply IH.
Qed.

(** X21. The sorting branch of a book follows from what the information
    line of its first note held: a location puts the book in the location
    branch, whether or not a page is there; a page alone puts it in the
    page branch; neither leaves the book's order alone.  The location and
    the page kept are runs of digits and dashes. *)
Theorem branch_of_information_line location :
  let note_loc := first_group regex_loc location in
  let note_page := first_group regex_page location in
  let locstr := locstr_of note_loc note_page in
  Forall (fun c => digit_or_dash c = true) note_loc /\
  Forall (fun c => digit_or_dash c = true) note_page /\
  contains (lit "loc. ") locstr = negb (bool_decide (note_loc = [])) /\
  (note_loc = [] -> contains (lit "p.") locstr = negb (bool_decide (note_page = []))).
Proof.
  intros note_loc note_page locstr.
  assert (Forall (fun c => digit_or_dash c = true) note_loc) as Hloc.
  { apply (first_group_literal "location " (Or Digit (chr "-"))). }
  assert (Forall (fun c => digit_or_dash c = true) note_page) as Hpage.
  { apply (first_group_literal "page " (Or Digit (chr "-"))). }
  split; [done|]. split; [done|].
  subst locstr. unfold locstr_of.
  destruct note_loc as [|c note_loc].
  - split.
    + destruct note_page as [|d note_page]; [done|].
      cbn [bool_decide negb app]. simpl negb.
      destruct (contains (lit "loc. ") ([] ++ lit "p." ++ d :: note_page))
        eqn:Hc; [|done].
      apply contains_head in Hc. cbn [app] in Hc.
      change (lit "p.") with [112; 46]%N in Hc. cbn [app] in Hc.
      apply elem_of_cons in Hc as [Hc|Hc]; [done|].
      apply elem_of_cons in Hc as [Hc|Hc]; [done|].
      rewrite Forall_forall in Hpage. apply Hpage in Hc. by vm_compute in Hc.
    + intros _. by destruct note_page.
  - split; [|done]. by destruct note_page.
Qed.

(** ** The choice of books *)

Lemma str_ltb_irrefl a : Selection.str_ltb a a = false.
Proof.
  induction a as [|x a IH]; simpl; [done|].
  by rewrite N.ltb_irrefl, N.eqb_refl, IH.
Qed.

Lemma str_ltb_trans a : forall b c,
  Selection.str_ltb a b = true -> Selection.str_ltb b c = true ->
  Selection.str_ltb a c = true.
Proof.
  induction a as [|x a IH]; intros [|y b] [|z c]; simpl; try done.
  intros Hab Hbc.
  apply orb_true_iff in Hab as [Hxy|[Hxy Hab]%andb_true_iff];
    apply orb_true_iff in Hbc as [Hyz|[Hyz Hbc]%andb_true_iff].
  - apply N.ltb_lt in Hxy, Hyz.
    apply orb_true_iff. left. apply N.ltb_lt. lia.
  - apply N.ltb_lt in Hxy. apply N.eqb_eq in Hyz. subst z.
    apply orb_true_iff. left. by apply N.ltb_lt.
  - apply N.eqb_eq in Hxy. apply N.ltb_lt in Hyz. subst y.
    apply orb_true_iff. left. by apply N.ltb_lt.
  - apply N.eqb_eq in Hxy, Hyz. subst y z.
    rewrite N.eqb_refl, (IH b c) by done. apply orb_true_r.
Qed.

Lemma str_ltb_total a : forall b,
  Selection.str_ltb a b = false -> a <> b -> Selection.str_ltb b a = true.
Proof.
  induction a as [|x a IH]; intros [|y b]; simpl; try done.
  intros [Hxy Hab]%orb_false_iff Hne.
  apply N.ltb_ge in Hxy.
  destruct (N.eqb_spec x y) as [->|Hxy'].
  - simpl in Hab. rewrite N.eqb_refl, IH; [apply orb_true_r|done|congruence].
  - apply orb_true_iff. left. apply N.ltb_lt. lia.
Qed.

Lemma elem_of_insert_title t l x :
  x ∈ Selection.insert_title t l <-> x = t \/ x ∈ l.
Proof.
  induction l as [|u l IH]; simpl.
  - rewrite list_elem_of_singleton, elem_of_nil. tauto.
  - destruct (Selection.str_ltb t u); [by rewrite elem_of_cons|].
    destruct (str_eqb t u) eqn:E.
    + apply str_eqb_eq in E as ->. rewrite elem_of_cons. tauto.
    + rewrite !elem_of_cons, IH. tauto.
Qed.

Lemma insert_title_sorted t l :
  StronglySorted str_lt l -> StronglySorted str_lt (Selection.insert_title t l).
Proof.
  induction 1 as [|u l Hl IH Hu]; simpl; [by repeat constructor|].
  destruct (Selection.str_ltb t u) eqn:Hlt.
  - constructor; [by constructor|]. constructor; [done|].
    eapply Forall_impl; [exact Hu|]. intros v Hv.
    by apply (str_ltb_trans t u v).
  - destruct (str_eqb t u) eqn:E; [by constructor|].
    constructor; [done|]. apply Forall_forall. intros v Hv.
    apply elem_of_insert_title in Hv as [->|Hv].
    + apply str_ltb_total; [done|]. intros ->. by rewrite str_eqb_refl in E.
    + by apply (proj1 (Forall_forall _ _) Hu).
Qed.

Lemma sorted_set_sorted values :
  StronglySorted str_lt (Selection.sorted_set values).
Proof.
  induction values as [|t values IH]; simpl; [constructor|].
  by apply insert_title_sorted.
Qed.

Lemma elem_of_sorted_set values t :
  t ∈ Selection.sorted_set values <-> t ∈ values.
Proof.
  induction values as [|u values IH]; simpl; [done|].
  rewrite elem_of_insert_title, elem_of_cons, IH. tauto.
Qed.

(** Two ascending lists with the same elements are the same list. *)
Lemma ascending_unique l1 : forall l2,
  StronglySorted str_lt l1 -> StronglySorted str_lt l2 ->
  (forall t, t ∈ l1 <-> t ∈ l2) -> l1 = l2.
Proof.
  assert (forall u l v, StronglySorted str_lt (u :: l) -> v ∈ u :: l ->
            v = u \/ str_lt u v) as Hhead.
  { intros u l v Hs [->|Hv]%elem_of_cons; [by left|]. right.
    apply StronglySorted_inv in Hs as [_ Hu].
    by apply (proj1 (Forall_forall _ _) Hu). }
  assert (forall u v, str_lt u v -> str_lt v u -> False) as Hasym.
  { intros u v Huv Hvu. pose proof (str_ltb_trans u v u Huv Hvu) as H.
    by rewrite str_ltb_irrefl in H. }
  induction l1 as [|u l1 IH]; intros [|v l2] H1 H2 Hsame.
  - done.
  - exfalso. apply (elem_of_nil v). apply Hsame. by left.
  - exfalso. apply (elem_of_nil u). apply Hsame. by left.
  - assert (u = v) as ->.
    { destruct (Hhead v l2 u H2) as [?|Hvu]; [apply Hsame; by left|done|].
      destruct (Hhead u l1 v H1) as [?|Huv]; [apply Hsame; by left|done|].
      by destruct (Hasym u v). }
    f_equal. pose proof H1 as H1'. pose proof H2 as H2'.
    apply StronglySorted_inv in H1 as [H1 Hu1], H2 as [H2 Hu2].
    apply IH; [done|done|]. intros t. split; intros Ht.
    + assert (t ∈ v :: l2) as [->|]%elem_of_cons; [apply Hsame; by right| |done].
      exfalso. apply (proj1 (Forall_forall _ _) Hu1) in Ht.
      unfold str_lt in Ht. by rewrite str_ltb_irrefl in Ht.
    + assert (t ∈ v :: l1) as [->|]%elem_of_cons; [apply Hsame; by right| |done].
      exfalso. apply (proj1 (Forall_forall _ _) Hu2) in Ht.
      unfold str_lt in Ht. by rewrite str_ltb_irrefl in Ht.
Qed.

Lemma ascending_NoDup l : StronglySorted str_lt l -> NoDup l.
Proof.
  induction 1 as [|u l Hl IH Hu]; constructor; [|done].
  intros Hin. apply (proj1 (Forall_forall _ _) Hu) in Hin.
  unfold str_lt in Hin. by rewrite str_ltb_irrefl in Hin.
Qed.

(** X22. The list of titles offered to the user holds the titles of the
    books, each once, in ascending order of code points; it is the only
    list that does. *)
Theorem unique_titles_spec (titles : list (list N * list N)) :
  let unique_titles := Selection.sorted_set (map snd titles) in
  StronglySorted str_lt unique_titles /\
  NoDup unique_titles /\
  (forall t, t ∈ unique_titles <-> exists k, (k, t) ∈ titles) /\
  (forall l,
     StronglySorted str_lt l ->
     (forall t, t ∈ l <-> exists k, (k, t) ∈ titles) ->
     l = unique_titles).
Proof.
  intros unique_titles.
  assert (forall t, t ∈ unique_titles <-> exists k, (k, t) ∈ titles) as Hin.
  { intros t. unfold unique_titles. rewrite elem_of_sorted_set, list_elem_of_fmap.
    split.
    - intros ([k t'] & -> & H). by exists k.
    - intros [k H]. by exists (k, t). }
  split; [apply sorted_set_sorted|]. split; [|split; [done|]].
  - apply ascending_NoDup, sorted_set_sorted.
  - intros l Hl Hl'. apply ascending_unique; [done|apply sorted_set_sorted|].
    intros t. by rewrite Hl', Hin.
Qed.

Lemma getitem_list_in_range {A} (l : list A) (num : Z) :
  (1 <= num <= Z.of_nat (length l))%Z ->
  exists x, Selection.getitem_list l (num - 1) = Some x /\ x ∈ l.
Proof.
  intros Hnum. unfold Selection.getitem_list.
  destruct (Z.ltb_spec (num - 1) 0) as [|_]; [lia|].
  destruct (lookup_lt_is_Some_2 l (Z.to_nat (num - 1)) ltac:(lia)) as [x Hx].
  exists x. split; [done|]. by eapply list_elem_of_lookup_2.
Qed.

Lemma chosen_in_range (l : list (list N)) numbers :
  existsb (Z.eqb 0) numbers = false ->
  existsb (fun num => (num <? 0)%Z || (Z.of_nat (length l) <? num)%Z) numbers
    = false ->
  exists selected,
    Selection.titles_at l numbers = Some selected /\
    length selected = length numbers /\
    forall x, x ∈ selected -> x ∈ l.
Proof.
  induction numbers as [|num numbers IH]; cbn [existsb].
  { intros _ _. exists []. split; [done|]. split; [done|].
    intros x Hx. by apply elem_of_nil in Hx. }
  intros [Hz Hzs]%orb_false_iff [Hr Hrs]%orb_false_iff.
  apply orb_false_iff in Hr as [Hneg Hbig].
  apply Z.eqb_neq in Hz. apply Z.ltb_ge in Hneg, Hbig.
  destruct (getitem_list_in_range l num ltac:(lia)) as (x & Hx & Hxl).
  destruct (IH Hzs Hrs) as (selected & Hsel & Hlen & Hin).
  exists (x :: selected). unfold Selection.titles_at in *. cbn.
  rewrite Hx. cbn. rewrite Hsel. cbn.
  split; [done|]. split; [by rewrite Hlen|].
  intros y [->|Hy]%elem_of_cons; [done|by apply Hin].
Qed.

Lemma ask_sound unique_titles inputs : forall out,
  match (Selection.ask unique_titles inputs out).1 with
  | Selection.Chosen selected =>
      (forall t, t ∈ selected -> t ∈ unique_titles) /\
      (selected = [] -> unique_titles = [])
  | Selection.Raised e => e = Selection.EOFError
  end.
Proof.
  induction inputs as [|line inputs IH]; intros out; cbn [Selection.ask];
    [done|].
  destruct (Selection.numbers_of line)
    as [[|num numbers]|]; [apply IH| |apply IH].
  destruct (existsb (Z.eqb 0) (num :: numbers)) eqn:Hzero; [done|].
  destruct (existsb
              (fun num => (num <? 0)%Z
                          || (Z.of_nat (length unique_titles) <? num)%Z)
              (num :: numbers)) eqn:Hrange; [apply IH|].
  destruct (chosen_in_range unique_titles (num :: numbers) Hzero Hrange)
    as (selected & -> & Hlen & Hin).
  cbn [fst]. split; [done|]. intros ->. done.
Qed.

(** X23. Whatever is typed, the choice of books ends in one of two ways:
    it returns titles, each of them the title of a book, and at least one
    unless there is no book at all; or the input ends before a line was
    accepted and [input] raises [EOFError].  No index of the list of
    titles is ever out of range. *)
Theorem selection_sound titles inputs :
  match (Selection.get_user_book_selection titles inputs).1 with
  | Selection.Chosen selected_titles =>
      (forall t, t ∈ selected_titles -> exists k, (k, t) ∈ titles) /\
      (selected_titles = [] -> titles = [])
  | Selection.Raised e => e = Selection.EOFError
  end.
Proof.
  unfold Selection.get_user_book_selection.
  pose proof (ask_sound (Selection.sorted_set (map snd titles)) inputs
                (Selection.menu (Selection.sorted_set (map snd titles)))) as H.
  destruct (Selection.ask _ _ _).1 as [selected|e]; [|done].
  destruct H as [Hin Hnil]. split.
  - intros t Ht. apply Hin, elem_of_sorted_set, list_elem_of_fmap in Ht
      as ([k t'] & -> & H). by exists k.
  - intros Hsel. specialize (Hnil Hsel). destruct titles as [|[k t] titles]; [done|].
    exfalso. apply (elem_of_nil t). rewrite <- Hnil.
    apply elem_of_sorted_set. by left.
Qed.

(** X24. A line of numbers that holds a zero selects every book, whatever
    the other numbers are, and no line after it is read; every book's title
    is then among the selected titles, so that the writer skips no book. *)
Theorem zero_selects_all titles line inputs numbers :
  Selection.numbers_of line = Some numbers ->
  0%Z ∈ numbers ->
  (Selection.get_user_book_selection titles (line :: inputs)).1
    = Selection.Chosen (Selection.sorted_set (map snd titles)) /\
  forall k title,
    dict_get titles k = Some title ->
    existsb (str_eqb title) (Selection.sorted_set (map snd titles)) = true.
Proof.
  intros Hnum Hzero. split.
  - unfold Selection.get_user_book_selection. cbn [Selection.ask].
    rewrite Hnum.
    destruct numbers as [|num numbers]; [by apply elem_of_nil in Hzero|].
    assert (existsb (Z.eqb 0) (num :: numbers) = true) as ->; [|done].
    apply existsb_exists. exists 0%Z. split; [by apply list_elem_of_In|done].
  - intros k title Hk. apply existsb_exists. exists title.
    split; [|apply str_eqb_refl].
    apply list_elem_of_In, elem_of_sorted_set, list_elem_of_fmap.
    exists (k, title). split; [done|].
    clear -Hk. induction titles as [|[k' t'] titles IH]; [done|].
    simpl in Hk. destruct (str_eqb k k') eqn:E.
    + injection Hk as ->. apply str_eqb_eq in E as ->. by left.
    + right. by apply IH.
Qed.

Lemma zero_selects_all_witness :
  (Selection.get_user_book_selection (pub_title three_notes_state)
     [lit " 7 0 "; lit "1"]).1
    = Selection.Chosen (Selection.sorted_set (map snd (pub_title three_notes_state))) /\
  forall k title,
    dict_get (pub_title three_notes_state) k = Some title ->
    existsb (str_eqb title)
      (Selection.sorted_set (map snd (pub_title three_notes_state))) = true.
Proof.
  apply (zero_selects_all (pub_title three_notes_state) (lit " 7 0 ")
           [lit "1"] [7; 0]%Z).
  - vm_compute. reflexivity.
  - refine (bool_decide_unpack _ _). vm_compute. exact I.
Defined.

Lemma int_digits_digits s : forall acc count,
  digits s ->
  Selection.int_digits acc count s
  = Some (foldl (fun acc c => 10 * acc + default 0 (decimal_value c))%Z acc s,
          (count + N.of_nat (length s))%N).
Proof.
  induction s as [|c s IH]; intros acc count Hs.
  - simpl. by rewrite N.add_0_r.
  - apply Forall_cons in Hs as [Hc Hs]. cbn [Selection.int_digits].
    unfold isdecimal in Hc. destruct (decimal_value c) as [d|] eqn:Hd; [|done].
    rewrite IH by done. cbn [foldl length]. rewrite Hd. cbn [default].
    rewrite Nat2N.inj_succ. do 2 f_equal. lia.
Qed.

(** X25. On a string of decimal digits [int] reads the number the
    reconciler's keys read from such a string, with a minus sign before it
    the opposite, as long as the digits are at most 4300; on more digits it
    raises [ValueError]. *)
Theorem int_of_digit_string ds :
  digits ds -> ds <> [] ->
  if (N.of_nat (length ds) <=? Selection.max_str_digits)%N then
    Selection.int ds = Some (int_of_digits ds) /\
    Selection.int (lit "+" ++ ds) = Some (int_of_digits ds) /\
    Selection.int (lit "-" ++ ds) = Some (- int_of_digits ds)%Z
  else
    Selection.int ds = None /\
    Selection.int (lit "+" ++ ds) = None /\
    Selection.int (lit "-" ++ ds) = None.
Proof.
  intros Hds Hne. destruct ds as [|c s]; [done|].
  pose proof Hds as Hds'. apply Forall_cons in Hds' as [Hc Hs].
  assert (forall negative,
            match decimal_value c with
            | Some d =>
                match Selection.int_digits d 1 s with
                | Some (v, count) =>
                    if (Selection.max_str_digits <? count)%N then None
                    else Some (if negative : bool then (- v)%Z else v)
                | None => None
                end
            | None => None
            end
            = if (N.of_nat (length (c :: s)) <=? Selection.max_str_digits)%N
              then Some (if negative then (- int_of_digits (c :: s))%Z
                         else int_of_digits (c :: s))
              else None) as Hbody.
  { intros negative. unfold isdecimal in Hc. unfold int_of_digits.
    cbn [foldl]. destruct (decimal_value c) as [d|] eqn:Hd; [|done].
    rewrite int_digits_digits by done. cbn [default].
    replace (1 + N.of_nat (length s))%N with (N.of_nat (length (c :: s)))
      by (cbn [length]; rewrite Nat2N.inj_succ; lia).
    rewrite Z.mul_0_r, Z.add_0_l.
    destruct (N.leb_spec (N.of_nat (length (c :: s))) Selection.max_str_digits)
      as [Hle|Hgt].
    - by rewrite (proj2 (N.ltb_ge _ _) Hle).
    - by rewrite (proj2 (N.ltb_lt _ _) Hgt). }
  assert ((c =? 43)%N = false /\ (c =? 45)%N = false) as [H43 H45].
  { split; apply N.eqb_neq; intros ->; by vm_compute in Hc. }
  assert (Selection.int (c :: s)
          = if (N.of_nat (length (c :: s)) <=? Selection.max_str_digits)%N
            then Some (int_of_digits (c :: s)) else None) as H0.
  { unfold Selection.int. rewrite H43, H45. apply (Hbody false). }
  assert (Selection.int (lit "+" ++ c :: s)
          = if (N.of_nat (length (c :: s)) <=? Selection.max_str_digits)%N
            then Some (int_of_digits (c :: s)) else None) as H1.
  { apply (Hbody false). }
  assert (Selection.int (lit "-" ++ c :: s)
          = if (N.of_nat (length (c :: s)) <=? Selection.max_str_digits)%N
            then Some (- int_of_digits (c :: s))%Z else None) as H2.
  { apply (Hbody true). }
  rewrite H0, H1, H2.
  by destruct (N.of_nat (length (c :: s)) <=? Selection.max_str_digits)%N.
Qed.

Lemma int_of_digit_string_witness :
  Selection.int (lit "012") = Some (int_of_digits (lit "012")) /\
  Selection.int (lit "+" ++ lit "012") = Some (int_of_digits (lit "012")) /\
  Selection.int (lit "-" ++ lit "012") = Some (- int_of_digits (lit "012"))%Z.
Proof.
  apply (int_of_digit_string (lit "012")).
  - refine (bool_decide_unpack _ _). vm_compute. exact I.
  - discriminate.
Defined.

(** ** The information line *)

(** A literal in a pattern is read at the head of the subject. *)
Lemma match_chars_prefix p r : forall s bos g res,
  match_here (map (fun c => One (Chr c)) p ++ r) s bos g = Some res ->
  startswith p s = true.
Proof.
  induction p as [|x p IH]; intros s bos g res; cbn [map app]; [done|].
  destruct s as [|c s]; [done|]. rewrite match_here_one. cbn [cls_ok startswith].
  destruct (N.eqb_spec c x) as [->|]; [|done].
  intros H%IH. by rewrite N.eqb_refl.
Qed.

(** A literal in a pattern matches itself, and the groups stay as they
    are when none is open. *)
Lemma match_chars p r : forall s bos cl,
  match_here (map (fun c => One (Chr c)) p ++ r) (p ++ s) bos
    {| closed := cl; opened := None |}
  = match_here r s (bos && bool_decide (p = []))
      {| closed := cl; opened := None |}.
Proof.
  induction p as [|x p IH]; intros s bos cl; cbn [map app].
  - by rewrite andb_true_r.
  - rewrite match_here_one. cbn [cls_ok]. rewrite N.eqb_refl.
    unfold push. cbn [opened]. rewrite IH.
    by rewrite andb_false_l, andb_false_r.
Qed.

Lemma contains_suffix sub x y :
  contains sub y = true -> contains sub (x ++ y) = true.
Proof.
  intros H. induction x as [|c x IH]; [done|].
  cbn [app contains]. rewrite IH. apply orb_true_r.
Qed.

(** What follows the location in the pattern of the information line
    needs the words Added on after a first character. *)
Lemma info_tail_needs r y bos g res :
  match_here (plus (Or Space (chr "|")) ++ chars "Added on" ++ r) y bos g
  = Some res ->
  exists c y', y = c :: y' /\ contains (lit "Added on") y' = true.
Proof.
  cbn [plus app]. destruct y as [|c y]; [done|].
  rewrite match_here_one. destruct (cls_ok _ c); [|done].
  intros (x & y2 & -> & _ & Hm)%match_star_inv.
  exists c, (x ++ y2). split; [done|].
  apply contains_suffix. apply match_chars_prefix in Hm.
  destruct y2; simpl in *; [done|]. by rewrite Hm.
Qed.


Lemma any_of_no_newline s :
  newline ∉ s -> Forall (fun c => cls_ok Any c = true) s.
Proof.
  intros Hs. apply Forall_forall. intros c Hc. cbn.
  by destruct (N.eqb_spec c 10) as [->|].
Qed.

(** The date: whitespace, then the rest of the line. *)
Lemma match_info_date d cl :
  d <> [] -> newline ∉ d -> no_space_ahead d ->
  match_here (plus Space ++ [GOpen] ++ plus Any ++ [GClose; Eol])
    (lit " " ++ d) false {| closed := cl; opened := None |}
  = Some (rev (d :: cl), []).
Proof.
  intros Hne Hnl Hsp. destruct d as [|d0 d]; [done|].
  pose proof (any_of_no_newline _ Hnl) as Hany.
  apply Forall_cons in Hany as [Hd0 Hany]. simpl in Hsp.
  change (lit " ") with [32%N]. cbn [plus app].
  rewrite match_here_one. cbn [cls_ok]. rewrite isspace_32.
  rewrite match_here_star. cbn [cls_ok]. rewrite Hsp.
  rewrite match_here_gopen, match_here_one, Hd0.
  rewrite <- (app_nil_r d). apply match_star_split; [done| |].
  - unfold push, gopen. cbn [opened closed].
    rewrite push_all_opened, match_here_gclose. cbn.
    by rewrite rev_app_distr, rev_involutive, app_nil_r.
  - intros x y Hx Hxy. by destruct x.
Qed.

(** The separator, the words Added on and the date. *)
Lemma match_info_added d cl :
  d <> [] -> newline ∉ d -> no_space_ahead d ->
  match_here
    (plus (Or Space (chr "|")) ++ chars "Added on" ++ plus Space ++ [GOpen]
     ++ plus Any ++ [GClose; Eol])
    (lit " Added on " ++ d) false {| closed := cl; opened := None |}
  = Some (rev (d :: cl), []).
Proof.
  intros Hne Hnl Hsp.
  change (lit " Added on " ++ d) with (32%N :: 65%N :: lit "dded on" ++ lit " " ++ d).
  cbn [plus app]. rewrite match_here_one.
  change (cls_ok (Or Space (chr "|")) 32) with true. cbn iota.
  rewrite match_here_star.
  change (cls_ok (Or Space (chr "|")) 65) with false. cbn iota.
  unfold push. cbn [opened].
  change (65%N :: lit "dded on" ++ lit " " ++ d)
    with (lit "Added on" ++ lit " " ++ d).
  unfold chars. rewrite match_chars.
  by apply match_info_date.
Qed.

(** No later start of the separator: the words Added on do not come
    again. *)
Lemma info_no_later_match r d x y bos g :
  contains (lit "Added on") d = false ->
  x <> [] -> lit " Added on " ++ d = x ++ y ->
  match_here (plus (Or Space (chr "|")) ++ chars "Added on" ++ r) y bos g = None.
Proof.
  intros Hd Hx Hxy.
  destruct (match_here _ y bos g) as [res|] eqn:Hm; [|done]. exfalso.
  apply info_tail_needs in Hm as (c & y' & -> & Hc).
  assert (exists z, lit "dded on " ++ d = z ++ y') as [z Hz].
  { destruct x as [|x0 [|x1 x]]; [done| |].
    - injection Hxy as _ _ Hxy. by exists [].
    - injection Hxy as _ _ Hxy. exists (x ++ [c]). by rewrite <- app_assoc. }
  assert (contains (lit "Added on") (lit "dded on " ++ d) = true) as Hcon.
  { rewrite Hz. by apply contains_suffix. }
  assert (contains (lit "Added on") (lit "dded on " ++ d)
          = contains (lit "Added on") d) as Heq by reflexivity.
  congruence.
Qed.

(** The location: all up to the last character before the separator. *)
Lemma match_info_location l d cl :
  newline ∉ l -> d <> [] -> newline ∉ d -> no_space_ahead d ->
  contains (lit "Added on") d = false ->
  match_here
    ([GOpen; Star Any; GClose] ++ plus (Or Space (chr "|"))
     ++ chars "Added on" ++ plus Space ++ [GOpen] ++ plus Any ++ [GClose; Eol])
    (l ++ lit " | Added on " ++ d) false {| closed := cl; opened := None |}
  = Some (rev (d :: (l ++ lit " |") :: cl), []).
Proof.
  intros Hl Hne Hnl Hsp Hd.
  replace (l ++ lit " | Added on " ++ d)
    with ((l ++ lit " |") ++ lit " Added on " ++ d)
    by (by rewrite <- app_assoc).
  change ([GOpen; Star Any; GClose] ++ plus (Or Space (chr "|"))
          ++ chars "Added on" ++ plus Space ++ [GOpen] ++ plus Any
          ++ [GClose; Eol])
    with (GOpen :: Star Any :: GClose :: plus (Or Space (chr "|"))
          ++ chars "Added on" ++ plus Space ++ [GOpen] ++ plus Any
          ++ [GClose; Eol]).
  rewrite match_here_gopen.
  apply (match_star_split Any _ (l ++ lit " |")).
  - apply Forall_app. split; [by apply any_of_no_newline|by repeat constructor].
  - unfold gopen. cbn [closed]. rewrite push_all_opened, andb_false_l.
    rewrite match_here_gclose. unfold gclose. cbn [opened closed].
    rewrite app_nil_r, rev_involutive.
    by apply (match_info_added d ((l ++ lit " |") :: cl)).
  - intros x y Hx Hxy _. rewrite match_here_gclose.
    by eapply (info_no_later_match _ d x y).
Qed.

Lemma match_info t l d :
  t <> [] -> Forall (fun c => isspace c = false) t ->
  newline ∉ l -> d <> [] -> newline ∉ d -> no_space_ahead d ->
  contains (lit "Added on") d = false ->
  match_here regex_info
    (lit "- Your " ++ t ++ lit " " ++ l ++ lit " | Added on " ++ d) true caps0
  = Some ([t; l ++ lit " |"; d], []).
Proof.
  intros Hne Ht Hl Hdne Hnl Hsp Hd. destruct t as [|t0 t]; [done|].
  apply Forall_cons in Ht as [Ht0 Ht].
  change regex_info with
    (Bol :: chars "- Your "
     ++ [GOpen; One NonSpace; Star NonSpace; GClose; One (Chr 32)]
     ++ [GOpen; Star Any; GClose] ++ plus (Or Space (chr "|"))
     ++ chars "Added on" ++ plus Space ++ [GOpen] ++ plus Any ++ [GClose; Eol]).
  cbn [match_here]. fold match_here.
  unfold chars, caps0. rewrite match_chars.
  change (true && bool_decide (lit "- Your " = [])) with false.
  cbn [app]. rewrite match_here_gopen, match_here_one. cbn [cls_ok].
  rewrite Ht0. cbn [negb].
  apply match_star_split.
  - eapply Forall_impl; [exact Ht|]. intros c Hc. cbn. by rewrite Hc.
  - unfold gopen, push. cbn [opened closed].
    rewrite push_all_opened, andb_false_l, match_here_gclose.
    unfold gclose. cbn [opened closed].
    change (lit " " ++ l ++ lit " | Added on " ++ d)
      with (32%N :: l ++ lit " | Added on " ++ d).
    rewrite match_here_one. cbn [cls_ok]. rewrite N.eqb_refl.
    unfold push. cbn [opened].
    rewrite rev_app_distr, rev_involutive. cbn [rev app].
    by apply (match_info_location l d [t0 :: t]).
  - intros x y Hx Hxy Hok. destruct x as [|c x]; [done|].
    apply Forall_cons in Hok as [Hc _].
    change (lit " " ++ l ++ lit " | Added on " ++ d)
      with (32%N :: l ++ lit " | Added on " ++ d) in Hxy.
    injection Hxy as <- _. by vm_compute in Hc.
Qed.

Lemma findall_anchored_single r s gs rest :
  match_here (Bol :: r) s true caps0 = Some (gs, rest) ->
  findall (Bol :: r) s = [gs].
Proof.
  intros H. unfold findall. destruct s as [|c s]; cbn [findall_from]; rewrite H;
    [done|]. by rewrite findall_from_anchored.
Qed.

(** X26. An information line made of the words - Your, a type without
    whitespace, a space, the location text, a bar between spaces, the
    words Added on and a date that does not hold those words again is
    read as that type, the location text with the space and the bar after
    it, and that date. *)
Theorem info_line_fields t l d :
  t <> [] -> Forall (fun c => isspace c = false) t ->
  newline ∉ l -> d <> [] -> newline ∉ d -> no_space_ahead d ->
  contains (lit "Added on") d = false ->
  findall regex_info
    (lit "- Your " ++ t ++ lit " " ++ l ++ lit " | Added on " ++ d)
  = [[t; l ++ lit " |"; d]].
Proof.
  intros Hne Ht Hl Hdne Hnl Hsp Hd.
  change regex_info with (Bol :: tail regex_info).
  apply (findall_anchored_single _ _ _ []).
  by apply match_info.
Qed.

Lemma info_line_fields_witness :
  findall regex_info
    (lit "- Your " ++ lit "Note" ++ lit " " ++ lit "on page 7 | location 100-101"
     ++ lit " | Added on " ++ lit "Friday, 5 January 2024 08:30:00")
  = [[lit "Note"; lit "on page 7 | location 100-101" ++ lit " |";
      lit "Friday, 5 January 2024 08:30:00"]].
Proof.
  apply (info_line_fields (lit "Note") (lit "on page 7 | location 100-101")
           (lit "Friday, 5 January 2024 08:30:00")).
  - discriminate.
  - refine (bool_decide_unpack _ _). vm_compute. exact I.
  - refine (bool_decide_unpack _ _). vm_compute. exact I.
  - discriminate.
  - refine (bool_decide_unpack _ _). vm_compute. exact I.
  - reflexivity.
  - reflexivity.
Defined.

(** X27. A record with a header line, an information line of that form,
    one more line, text lines and a separator line is stored whole: the
    loop goes on with the line after the separator, and the note is filed
    under the hash of its normalised text with the type, the date and the
    location string read from the information line, last in the list of
    the book named by the header line. *)
Theorem record_is_stored dateutil_str header infoline skipped body sepline
    rest st t l d h :
  let text := postprocess (concat (map (fun line => strip line ++ nl) body)) in
  strip infoline
    = lit "- Your " ++ t ++ lit " " ++ l ++ lit " | Added on " ++ d ->
  t <> [] -> Forall (fun c => isspace c = false) t ->
  newline ∉ l -> d <> [] -> newline ∉ d -> no_space_ahead d ->
  contains (lit "Added on") d = false ->
  forallb (fun line => negb (str_eqb (strip line) note_sep)) body = true ->
  strip sepline = note_sep ->
  note_hash_of text = Ok h ->
  dict_mem (pub_notes st) (strip header)
    = dict_mem (pub_hashes st) (strip header) ->
  exists st',
    parse_record dateutil_str header
      (infoline :: skipped :: body ++ sepline :: rest) st
    = Next (strip (hd [] rest)) (tail rest) st' /\
    last (hashes_of st' (strip header)) = Some h /\
    dict_get (pub_title st') (strip header)
      = Some (strip (title_author (strip header)).1) /\
    dict_get (pub_author st') (strip header)
      = Some (strip (title_author (strip header)).2) /\
    dict_get (notes st') h = Some text /\
    dict_get (types st') h = Some t /\
    dict_get (locations st') h
      = Some (locstr_of (first_group regex_loc (l ++ lit " |"))
                (first_group regex_page (l ++ lit " |"))) /\
    dict_get (dates st') h = Some (datestr_of dateutil_str d) /\
    stdout st' = stdout st ++ [strip infoline].
Proof.
  intros text Hinfo Hne Ht Hl Hdne Hnl Hsp Hd Hbody Hsep Hh Hkeys.
  unfold parse_record.
  destruct (title_author (strip header)) as [title author] eqn:Hta.
  cbn [readline]. rewrite Hinfo.
  change regex_info with (Bol :: tail regex_info).
  rewrite (findall_anchored_single _ _ [t; l ++ lit " |"; d] [])
    by (by apply match_info).
  rewrite (read_note_text_some body sepline rest []) by done.
  cbn [app]. fold text. rewrite Hh. cbn [bind].
  destruct (store_note _ _ _ _ _ _ _ _ _) as [st'|e] eqn:Hst.
  - apply store_note_spec in Hst
      as (old & _ & Hhs & Htitle & Hauthor & Hn & Hloc & Hty & Hda & Hout).
    exists st'. rewrite readline_hd_tl. split; [done|].
    unfold hashes_of. rewrite Hhs. cbn [default fst snd].
    split; [apply last_snoc|].
    unfold group in *. cbn [nth] in *. by repeat split.
  - exfalso. unfold store_note, bind, getitem in Hst.
    change (pub_notes (print _ st)) with (pub_notes st) in Hst.
    change (pub_hashes (print _ st)) with (pub_hashes st) in Hst.
    destruct (dict_mem (pub_notes st) (strip header)) eqn:Hmem;
      cbn [negb] in Hst.
    + symmetry in Hkeys.
      apply dict_mem_get in Hmem as [ts Hts], Hkeys as [hs Hhs].
      by rewrite Hts, Hhs in Hst.
    + by rewrite !dict_get_set_eq in Hst.
Qed.

Lemma record_is_stored_witness :
  exists st',
    parse_record dateutil_examples (lit "Book Title (Jane Doe)" ++ nl)
      ((lit "- Your Highlight on page 12 | Added on Monday, 1 January 2024 00:00:00" ++ nl)
       :: nl :: [lit "Some  highlighted   text." ++ nl]
       ++ (note_sep ++ nl) :: []) state0
    = Next (strip (hd [] [])) (tail []) st' /\
    last (hashes_of st' (strip (lit "Book Title (Jane Doe)" ++ nl)))
      = Some (lit "1283d823") /\
    dict_get (pub_title st') (strip (lit "Book Title (Jane Doe)" ++ nl))
      = Some (strip (title_author (strip (lit "Book Title (Jane Doe)" ++ nl))).1) /\
    dict_get (pub_author st') (strip (lit "Book Title (Jane Doe)" ++ nl))
      = Some (strip (title_author (strip (lit "Book Title (Jane Doe)" ++ nl))).2) /\
    dict_get (notes st') (lit "1283d823")
      = Some (postprocess
                (concat (map (fun line => strip line ++ nl)
                           [lit "Some  highlighted   text." ++ nl]))) /\
    dict_get (types st') (lit "1283d823") = Some (lit "Highlight") /\
    dict_get (locations st') (lit "1283d823")
      = Some (locstr_of (first_group regex_loc (lit "on page 12" ++ lit " |"))
                (first_group regex_page (lit "on page 12" ++ lit " |"))) /\
    dict_get (dates st') (lit "1283d823")
      = Some (datestr_of dateutil_examples (lit "Monday, 1 January 2024 00:00:00")) /\
    stdout st'
      = stdout state0
        ++ [strip (lit "- Your Highlight on page 12 | Added on Monday, 1 January 2024 00:00:00" ++ nl)].
Proof.
  apply (record_is_stored dateutil_examples (lit "Book Title (Jane Doe)" ++ nl)
           (lit "- Your Highlight on page 12 | Added on Monday, 1 January 2024 00:00:00" ++ nl)
           nl [lit "Some  highlighted   text." ++ nl] (note_sep ++ nl) []
           state0 (lit "Highlight") (lit "on page 12")
           (lit "Monday, 1 January 2024 00:00:00") (lit "1283d823")).
  - vm_compute. reflexivity.
  - discriminate.
  - refine (bool_decide_unpack _ _). vm_compute. exact I.
  - refine (bool_decide_unpack _ _). vm_compute. exact I.
  - discriminate.
  - refine (bool_decide_unpack _ _). vm_compute. exact I.
  - reflexivity.
  - reflexivity.
  - reflexivity.
  - vm_compute. reflexivity.
  - vm_compute. reflexivity.
  - reflexivity.
Defined.

(** ** Books without a note to write *)

(** X28. A selected book with a hash that the index lacks, but whose new
    notes are all empty, as the note of a bookmark is, still gets its file
    opened and the header written, and no note after it. *)
Theorem empty_notes_write_header_only nfkd today st existing_hashes
    selected_titles outdir key title texts author hs :
  dict_get (pub_title st) key = Some title ->
  existsb (str_eqb title) selected_titles = true ->
  dict_get (pub_notes st) key = Some texts ->
  dict_get (pub_author st) key = Some author ->
  dict_get (pub_hashes st) key = Some hs ->
  book_ok st hs = true ->
  forallb (dict_mem existing_hashes) hs = false ->
  forallb (fun h => negb (written st existing_hashes h)) hs = true ->
  let fname := (routing (length texts) author title).1 in
  let short := (routing (length texts) author title).2 in
  let outfile := getvalidfilename nfkd fname in
  write_book nfkd today st existing_hashes selected_titles outdir key
  = Ok (Some (outfile, header today short (dict_mem outdir outfile) author title)).
Proof.
  intros Ht Hsel Hn Ha Hh Hok Hnew Hempty fname short outfile.
  rewrite (write_book_spec nfkd today st existing_hashes selected_titles outdir
             key title texts author hs) by done.
  rewrite Hnew. fold fname short outfile.
  assert (List.filter (written st existing_hashes) hs = []) as ->.
  { clear -Hempty. induction hs as [|h hs IH]; [done|].
    simpl in *. apply andb_true_iff in Hempty as [Hh Hhs].
    apply negb_true_iff in Hh. rewrite Hh. by apply IH. }
  simpl. by rewrite app_nil_r.
Qed.

Lemma empty_notes_write_header_only_witness :
  write_book nfkd_ascii today_example bookmark_state [] [lit "Emma"] []
    (lit "Emma (Jane Austen)")
  = Ok (Some (lit "short_notes.md",
              [lit "Jane Austen - Emma" ++ nl;
               lit "------------------" ++ nl ++ nl])).
Proof.
  apply (empty_notes_write_header_only nfkd_ascii today_example bookmark_state
           [] [lit "Emma"] [] (lit "Emma (Jane Austen)") (lit "Emma") [[]]
           (lit "Jane Austen") [lit "e3b0c442"]);
    vm_compute; reflexivity.
Defined.
